(** * Product-Key Memory layer (PKM-layer.ipynb): a shallow embedding

    The notebook defines [get_uniform_keys] and the class [HashingMemory]
    ([__init__], [initialize_keys], [_get_indices], [get_indices],
    [forward]).  Every one of them is translated below, line by line, over
    a small model of the tensor operations they call.

    Modelling choices.
    - A tensor is its shape together with its elements in row-major order.
      [view] therefore never touches the elements; it only checks the
      requested size the way torch does (one inferred [-1] at most, which
      is refused when the remaining sizes multiply to zero).
    - Python exceptions are values of [error]; a fallible computation is a
      [result].  Code that draws from torch's ambient random generator
      ([F.dropout] in training mode, parameter initialisation) runs in the
      state-and-error monad [M] over the generator state; an exception
      ends the computation, and the state it leaves behind is not
      modelled.
    - Numbers of dtype float are elements of an abstract type with the
      operations of [Scalar]; the theorems name the algebraic laws they
      rely on.  The conversion of the keys from double to single
      precision ([astype(np.float32)]) is the operation [sf32] of
      [Scalar]; [.float()] and [.type_as] act on single-precision scores
      and change nothing.
    - Library routines whose result is not determined by their
      documentation ([torch.topk] on ties, the Mersenne Twister behind
      [np.random.RandomState], the dropout mask, parameter initialisers,
      [nn.Linear]/[nn.BatchNorm1d]) are fields of the class [Backend].
    - Two instances run the program: one over the rationals, with simple
      stand-ins for the library routines, and one for the key generator
      in the arithmetic it really uses (IEEE double precision, numpy's
      Mersenne Twister, rounding to single precision).
    - [F.linear] is the matrix product with every entry summed in one
      fixed order.  This is exact over the rationals; torch's
      single-precision kernels choose the order of summation by the
      shape of the batch, so in floating point the entries agree with
      this definition up to rounding only; the theorems speak of the
      scores as they are defined here. *)

From Stdlib Require Import List Arith PeanoNat Bool Lia ZArith NArith QArith Qcanon.
From Stdlib Require Import Qround Qpower Lqa.
From Stdlib Require Import Sorted Permutation.
From Stdlib Require Import SpecFloat.
Import ListNotations.

Set Implicit Arguments.
Local Open Scope nat_scope.

(* ------------------------------------------------------------------ *)
(** ** Exceptions and the two monads *)

Inductive error : Type :=
| AssertionError
| RuntimeError
| TypeError
| ValueError
| IndexError
| ZeroDivisionError.

Definition result (A : Type) : Type := (error + A)%type.

Definition ok {A} (a : A) : result A := inr a.
Definition raise {A} (e : error) : result A := inl e.

Definition bind {A B} (c : result A) (k : A -> result B) : result B :=
  match c with
  | inl e => inl e
  | inr a => k a
  end.

Notation "x <- c ;; k" := (bind c (fun x => k))
  (at level 61, c at next level, right associativity).
Notation "' pat <- c ;; k" := (bind c (fun x => match x with pat => k end))
  (at level 61, pat pattern, c at next level, right associativity).

(** [assert cond] *)
Definition assert (cond : bool) : result unit :=
  if cond then ok tt else raise AssertionError.

(** A list comprehension whose body may raise: elements are evaluated from
    left to right and the first exception aborts the comprehension. *)
Fixpoint mapM {A B} (f : A -> result B) (l : list A) : result (list B) :=
  match l with
  | [] => ok []
  | x :: l' => y <- f x ;; ys <- mapM f l' ;; ok (y :: ys)
  end.

(** State (the torch generator, of type [G]) and exceptions. *)
Definition M (G A : Type) : Type := G -> result (A * G).

Definition retM {G A} (a : A) : M G A := fun g => ok (a, g).

Definition bindM {G A B} (c : M G A) (k : A -> M G B) : M G B :=
  fun g => match c g with
           | inl e => inl e
           | inr (a, g') => k a g'
           end.

Definition lift {G A} (c : result A) : M G A :=
  fun g => match c with
           | inl e => inl e
           | inr a => ok (a, g)
           end.

Notation "x <~ c ;; k" := (bindM c (fun x => k))
  (at level 61, c at next level, right associativity).
Notation "' pat <~ c ;; k" := (bindM c (fun x => match x with pat => k end))
  (at level 61, pat pattern, c at next level, right associativity).

(* ------------------------------------------------------------------ *)
(** ** Tensors *)

Record tensor (A : Type) : Type := Tensor {
  shape : list nat;
  data : list A
}.

Arguments Tensor {A} _ _.

(** Number of elements a shape describes. *)
Definition numel (s : list nat) : nat := fold_right Nat.mul 1 s.

(** The representation invariant. *)
Definition wf {A} (t : tensor A) : Prop := length (data t) = numel (shape t).

(** [t.dim()] and [t.size(i)] *)
Definition tdim {A} (t : tensor A) : nat := length (shape t).
Definition size {A} (t : tensor A) (i : nat) : nat := nth i (shape t) 0.

(** [len(t)]: the first size; a tensor without dimensions has no length. *)
Definition len {A} (t : tensor A) : result nat :=
  match shape t with
  | [] => raise TypeError
  | d :: _ => ok d
  end.

(** [n] consecutive blocks of [m] elements. *)
Fixpoint chunks {A} (n m : nat) (l : list A) : list (list A) :=
  match n with
  | 0 => []
  | S n' => firstn m l :: chunks n' m (skipn m l)
  end.

(** The rows of a tensor along its first dimension, and along its last. *)
Definition blocks0 {A} (t : tensor A) : list (list A) :=
  chunks (hd 0 (shape t)) (numel (tl (shape t))) (data t).

Definition rows {A} (t : tensor A) : list (list A) :=
  chunks (numel (removelast (shape t))) (last (shape t) 1) (data t).

(** The sizes given to [view]: [None] stands for [-1]. *)
Definition known (sz : list (option nat)) : nat :=
  fold_right (fun o acc => match o with Some k => k * acc | None => acc end) 1 sz.

Definition unknowns (sz : list (option nat)) : nat :=
  length (filter (fun o => match o with None => true | Some _ => false end) sz).

Definition fill (d : nat) (sz : list (option nat)) : list nat :=
  map (fun o => match o with Some k => k | None => d end) sz.

(** [t.view(sz)].  The tensors of this program are contiguous, so a view
    succeeds exactly when the sizes fit: without [-1] the product must be
    the number of elements; with one [-1] the product of the others must
    be positive and divide it. *)
Definition view {A} (t : tensor A) (sz : list (option nat)) : result (tensor A) :=
  let n := numel (shape t) in
  match unknowns sz with
  | 0 => if n =? known sz then ok (Tensor (fill 0 sz) (data t))
         else raise RuntimeError
  | 1 => if (0 <? known sz) && (n mod known sz =? 0)
         then ok (Tensor (fill (n / known sz) sz) (data t))
         else raise RuntimeError
  | _ => raise RuntimeError
  end.

(** [t[i]] *)
Definition select0 {A} (t : tensor A) (i : nat) : result (tensor A) :=
  match shape t with
  | [] => raise IndexError
  | d :: rest =>
      if i <? d
      then ok (Tensor rest (firstn (numel rest) (skipn (i * numel rest) (data t))))
      else raise IndexError
  end.

(** [t[:, i]] *)
Definition select1 {A} (t : tensor A) (i : nat) : result (tensor A) :=
  match shape t with
  | d0 :: d1 :: rest =>
      if i <? d1
      then ok (Tensor (d0 :: rest)
                 (concat (map (fun b => firstn (numel rest) (skipn (i * numel rest) b))
                              (chunks d0 (d1 * numel rest) (data t)))))
      else raise IndexError
  | _ => raise IndexError
  end.

(** [t[:, a:b]]; Python clamps both ends of a slice to the size. *)
Definition slice1 {A} (t : tensor A) (a b : nat) : result (tensor A) :=
  match shape t with
  | d0 :: d1 :: rest =>
      let a' := Nat.min a d1 in
      let b' := Nat.max a' (Nat.min b d1) in
      ok (Tensor (d0 :: (b' - a') :: rest)
            (concat (map (fun r => firstn ((b' - a') * numel rest)
                                     (skipn (a' * numel rest) r))
                         (chunks d0 (d1 * numel rest) (data t)))))
  | _ => raise IndexError
  end.

(** Equality of shapes ([a.shape == b.shape]). *)
Definition shape_eqb (a b : list nat) : bool :=
  if list_eq_dec Nat.eq_dec a b then true else false.

(** The elements of [t.expand(tgt)]: a dimension of size 1 is repeated. *)
Fixpoint expand_data {A} (src tgt : list nat) (d : list A) : list A :=
  match src, tgt with
  | s :: src', t :: tgt' =>
      let bs := map (expand_data src' tgt') (chunks s (numel src') d) in
      if s =? t then concat bs else concat (repeat (hd [] bs) t)
  | _, _ => d
  end.

Fixpoint expandable (src tgt : list nat) : bool :=
  match src, tgt with
  | [], [] => true
  | s :: src', t :: tgt' => ((s =? t) || (s =? 1)) && expandable src' tgt'
  | _, _ => false
  end.

Definition expand {A} (t : tensor A) (tgt : list nat) : result (tensor A) :=
  if expandable (shape t) tgt
  then ok (Tensor tgt (expand_data (shape t) tgt (data t)))
  else raise RuntimeError.

(** Element-wise binary operation on two tensors of the same shape. *)
Definition tmap2 {A B C} (f : A -> B -> C) (x : tensor A) (y : tensor B)
  : result (tensor C) :=
  if shape_eqb (shape x) (shape y)
  then ok (Tensor (shape x) (map (fun p => f (fst p) (snd p)) (combine (data x) (data y))))
  else raise RuntimeError.

(** [t.gather(1, index)] for 2-D tensors. *)
Definition gather1 {A} (dflt : A) (t : tensor A) (index : tensor nat)
  : result (tensor A) :=
  match shape t, shape index with
  | [r; c], [r'; c'] =>
      if (r' <=? r) && forallb (fun i => i <? c) (data index)
      then ok (Tensor [r'; c']
                 (concat (map (fun p => map (fun i => nth i (fst p) dflt) (snd p))
                              (combine (chunks r c (data t)) (chunks r' c' (data index))))))
      else raise RuntimeError
  | _, _ => raise RuntimeError
  end.

(** [torch.cat(ts, 1)]: the tensors agree on every size but the second. *)
Definition cat1 {A} (ts : list (tensor A)) : result (tensor A) :=
  match ts with
  | [] => raise RuntimeError
  | t0 :: _ =>
      match shape t0 with
      | d0 :: _ :: rest =>
          if forallb (fun t => match shape t with
                               | e0 :: _ :: rest' =>
                                   (e0 =? d0) && shape_eqb rest' rest
                               | _ => false
                               end) ts
          then ok (Tensor (d0 :: list_sum (map (fun t => size t 1) ts) :: rest)
                     (concat (map (fun b => concat (map (fun t => nth b (blocks0 t) []) ts))
                                  (seq 0 d0))))
          else raise RuntimeError
      | _ => raise RuntimeError
      end
  end.

(* ------------------------------------------------------------------ *)
(** ** Numbers and library routines *)

(** The operations the program applies to floating-point numbers. *)
Class Scalar (T : Type) : Type := {
  szero : T;
  sone : T;
  sadd : T -> T -> T;
  smul : T -> T -> T;
  sdiv : T -> T -> T;
  sneg : T -> T;
  ssqrt : T -> T;
  sexp : T -> T;
  sof_nat : nat -> T;
  sf32 : T -> T;
  sleb : T -> T -> bool
}.

(** Library routines the program calls and whose results the model leaves
    open.  [G] is the state of torch's random generator.
    - [topk1 k xs]: the positions of the [k] largest elements of the row
      [xs], best first, as [torch.topk] picks them (its choice among equal
      elements is implementation-defined);
    - [RandomState_uniform seed low high n]: the first [n] samples that
      [np.random.RandomState(seed).uniform(low, high, ...)] draws;
    - [dropout_mask p xs]: [F.dropout] on the elements [xs] in training
      mode;
    - [normal_ mean std n]: [n] samples of [nn.init.normal_];
    - [new_query_proj i o bn]: the freshly initialised
      [nn.Sequential(nn.Linear(i, o), nn.BatchNorm1d(o) if bn)], as the
      function of the training flag and the input that it computes (the
      running statistics that batch normalisation updates in training
      mode are not modelled). *)
Class Backend (T G : Type) : Type := {
  topk1 : nat -> list T -> list nat;
  RandomState_uniform : N -> T -> T -> nat -> list T;
  dropout_mask : Q -> list T -> G -> list T * G;
  normal_ : T -> T -> nat -> G -> list T * G;
  new_query_proj : nat -> nat -> bool -> G ->
                   (bool -> tensor T -> result (tensor T)) * G
}.

Section Ops.

Context {T G : Type} {S : Scalar T} {B : Backend T G}.

Definition ssum (l : list T) : T := fold_right sadd szero l.

(** The inner product, summed from the right.  In floating point the
    order of summation matters and is the library's choice; see the
    modelling choices above. *)
Definition dot (x y : list T) : T :=
  ssum (map (fun p => smul (fst p) (snd p)) (combine x y)).

(** [F.linear(x, w, bias=None)] for a batch [x] of shape (bs, d) and a
    weight [w] of shape (n, d): entry (b, k) is the inner product of row
    [b] of [x] with row [k] of [w]. *)
Definition F_linear (x w : tensor T) : result (tensor T) :=
  match shape x, shape w with
  | [bs; d], [n; d'] =>
      if d =? d'
      then ok (Tensor [bs; n]
                 (concat (map (fun r => map (dot r) (chunks n d' (data w)))
                              (chunks bs d (data x)))))
      else raise RuntimeError
  | _, _ => raise RuntimeError
  end.

(** [t.topk(k, dim=1)] for a 2-D tensor: values and positions, row by row;
    torch refuses [k] larger than the row length. *)
Definition topk_dim1 (k : nat) (t : tensor T) : result (tensor T * tensor nat) :=
  match shape t with
  | [r; c] =>
      if k <=? c
      then
        let rs := chunks r c (data t) in
        ok (Tensor [r; k] (concat (map (fun row => map (fun i => nth i row szero) (topk1 k row)) rs)),
            Tensor [r; k] (concat (map (topk1 k) rs)))
      else raise RuntimeError
  | _ => raise RuntimeError
  end.

(** [F.softmax(t, dim=-1)] *)
Definition softmax_row (row : list T) : list T :=
  let es := map sexp row in
  map (fun e => sdiv e (ssum es)) es.

Definition F_softmax (t : tensor T) : tensor T :=
  Tensor (shape t) (concat (map softmax_row (rows t))).

(** [nn.EmbeddingBag(n, d, mode='sum')] applied to 2-D [input] with
    [per_sample_weights]: bag [b] accumulates, position after position,
    the row [input[b, j]] of the table scaled by the weight of that
    position. *)
Definition vadd (u v : list T) : list T :=
  map (fun p => sadd (fst p) (snd p)) (combine u v).

Definition vscale (w : T) (v : list T) : list T := map (smul w) v.

Definition bag_sum (table : list (list T)) (d : nat) (idx : list nat) (ws : list T)
  : list T :=
  fold_left (fun acc p => vadd acc (vscale (snd p) (nth (fst p) table [])))
            (combine idx ws) (repeat szero d).

Definition EmbeddingBag (weight : tensor T) (input : tensor nat)
           (per_sample_weights : tensor T) : result (tensor T) :=
  match shape weight, shape input with
  | [n; d], [b; l] =>
      if negb (shape_eqb (shape input) (shape per_sample_weights))
      then raise ValueError
      else if negb (forallb (fun i => i <? n) (data input))
      then raise IndexError
      else
        let table := chunks n d (data weight) in
        ok (Tensor [b; d]
              (concat (map (fun p => bag_sum table d (fst p) (snd p))
                           (combine (chunks b l (data input))
                                    (chunks b l (data per_sample_weights))))))
  | _, _ => raise ValueError
  end.

(** [F.dropout(x, p, training)]: the probability is checked first, in
    either mode; outside training the input is returned as it is. *)
Definition F_dropout (x : tensor T) (p : Q) (training : bool) : M G (tensor T) :=
  if negb (Qle_bool 0 p && Qle_bool p 1)
  then lift (raise ValueError)
  else if training
  then fun g => let (d, g') := dropout_mask p (data x) g in ok (Tensor (shape x) d, g')
  else retM x.

(** [np.array(ts)] for a list of arrays of one shape. *)
Definition np_array (ts : list (tensor T)) : tensor T :=
  match ts with
  | [] => Tensor [0] []
  | t0 :: _ => Tensor (length ts :: shape t0) (concat (map (@data T) ts))
  end.

(** [np.prod(shape)]: an integer, except for the empty tuple, where numpy
    answers the float 1.0. *)
Inductive pynum : Type :=
| PyInt (n : nat)
| PyFloat (q : Q).

Definition np_prod (s : list nat) : pynum :=
  match s with
  | [] => PyFloat 1
  | _ => PyInt (numel s)
  end.

Definition py_mul (a : pynum) (b : nat) : pynum :=
  match a with
  | PyInt n => PyInt (n * b)
  | PyFloat q => PyFloat (q * inject_Z (Z.of_nat b))
  end.

(** A size passed to [view] must be an integer. *)
Definition as_size (a : pynum) : result nat :=
  match a with
  | PyInt n => ok n
  | PyFloat _ => raise TypeError
  end.

End Ops.

(* ------------------------------------------------------------------ *)
(** ** The program *)

(** The [params] object handed to the constructor (an [AttrDict]). *)
Record AttrDict : Type := {
  p_sparse : bool;
  p_k_dim : nat;
  p_heads : nat;
  p_knn : nat;
  p_n_keys : nat;
  p_query_batchnorm : bool;
  p_input_dropout : Q;
  p_query_dropout : Q;
  p_value_dropout : Q
}.

(** The attributes of a [HashingMemory] object.  [keys] is the parameter
    of shape (heads, 2, n_keys, k_dim // 2), [values] the weight of the
    embedding bag, [size_] the attribute [size], [training] the mode flag
    every [nn.Module] carries. *)
Record HashingMemory (T : Type) : Type := {
  input_dim : nat;
  output_dim : nat;
  k_dim : nat;
  v_dim : nat;
  n_keys : nat;
  size_ : nat;
  heads : nat;
  knn : nat;
  input_dropout : Q;
  query_dropout : Q;
  value_dropout : Q;
  keys : tensor T;
  values : tensor T;
  query_proj : bool -> tensor T -> result (tensor T);
  training : bool
}.

Section Program.

Context {T G : Type} {S : Scalar T} {B : Backend T G}.

(** [get_uniform_keys(n_keys, dim, seed)].  [RandomState] accepts the
    seeds below 2**32; [1 / math.sqrt(0)] divides by zero. *)
Definition get_uniform_keys (n_keys dim : nat) (seed : N) : result (tensor T) :=
  _ <- (if (seed <? 2 ^ 32)%N then ok tt else raise ValueError) ;;
  bound <- (if dim =? 0 then raise ZeroDivisionError
            else ok (sdiv sone (ssqrt (sof_nat dim)))) ;;
  let keys := RandomState_uniform seed (sneg bound) bound (n_keys * dim) in
  ok (Tensor [n_keys; dim] (map sf32 keys)).

(** [initialize_keys]: the comprehension runs over the heads and, inside,
    over the two halves. *)
Definition initialize_keys (k_dim n_keys heads : nat) : result (tensor T) :=
  let half := k_dim / 2 in
  arrs <- mapM (fun ij => get_uniform_keys n_keys half (N.of_nat (2 * fst ij + snd ij)))
               (flat_map (fun i => map (fun j => (i, j)) (seq 0 2)) (seq 0 heads)) ;;
  view (np_array arrs) [Some heads; Some 2; Some n_keys; Some half].

(** [__init__(input_dim, output_dim, params)].  [v_dim ** -0.5] is
    1 / sqrt(v_dim) and raises for [v_dim = 0]; the warning printed for
    [query_batchnorm] has no effect on the object. *)
Definition __init__ (input_dim output_dim : nat) (params : AttrDict)
  : M G (HashingMemory T) :=
  let k_dim := p_k_dim params in
  let v_dim := output_dim in
  let n_keys := p_n_keys params in
  let size := n_keys ^ 2 in
  let heads := p_heads params in
  let knn := p_knn params in
  _ <~ lift (assert ((2 <=? k_dim) && (k_dim mod 2 =? 0))) ;;
  keys <~ lift (initialize_keys k_dim n_keys heads) ;;
  std <~ lift (if v_dim =? 0 then raise ZeroDivisionError
               else ok (sdiv sone (ssqrt (sof_nat v_dim)))) ;;
  w <~ (fun g => ok (normal_ szero std (size * v_dim) g)) ;;
  qp <~ (fun g => ok (new_query_proj input_dim (heads * k_dim)
                        (p_query_batchnorm params) g)) ;;
  retM {| input_dim := input_dim;
          output_dim := output_dim;
          k_dim := k_dim;
          v_dim := v_dim;
          n_keys := n_keys;
          size_ := size;
          heads := heads;
          knn := knn;
          input_dropout := p_input_dropout params;
          query_dropout := p_query_dropout params;
          value_dropout := p_value_dropout params;
          keys := keys;
          values := Tensor [size; v_dim] w;
          query_proj := qp;
          training := true |}.

(** [module.eval()] *)
Definition eval (m : HashingMemory T) : HashingMemory T :=
  {| input_dim := input_dim m; output_dim := output_dim m; k_dim := k_dim m;
     v_dim := v_dim m; n_keys := n_keys m; size_ := size_ m; heads := heads m;
     knn := knn m; input_dropout := input_dropout m;
     query_dropout := query_dropout m; value_dropout := value_dropout m;
     keys := keys m; values := values m; query_proj := query_proj m;
     training := false |}.

(** The same object with other dropout rates. *)
Definition with_dropout (m : HashingMemory T) (pi pq pv : Q) : HashingMemory T :=
  {| input_dim := input_dim m; output_dim := output_dim m; k_dim := k_dim m;
     v_dim := v_dim m; n_keys := n_keys m; size_ := size_ m; heads := heads m;
     knn := knn m; input_dropout := pi;
     query_dropout := pq; value_dropout := pv;
     keys := keys m; values := values m; query_proj := query_proj m;
     training := training m |}.

(** The cartesian product of the two candidate lists: with
    [a' = a.view(bs, knn, 1).expand(bs, knn, knn)] and
    [b' = b.view(bs, 1, knn).expand(bs, knn, knn)], the tensor
    [(a' op b').view(bs, -1)], where [op] works element by element:
    [a' + b'] for the scores, [a' * n_keys + b'] for the indices. *)
Definition cartesian {A} (op : A -> A -> A) (bs knn : nat) (a b : tensor A)
  : result (tensor A) :=
  a1 <- view a [Some bs; Some knn; Some 1] ;;
  a2 <- expand a1 [bs; knn; knn] ;;
  b1 <- view b [Some bs; Some 1; Some knn] ;;
  b2 <- expand b1 [bs; knn; knn] ;;
  c <- tmap2 op a2 b2 ;;
  view c [Some bs; None].

(** [_get_indices(query, subkeys)] *)
Definition _get_indices (self : HashingMemory T) (query subkeys : tensor T)
  : result (tensor T * tensor nat) :=
  _ <- assert ((tdim query =? 2) && (size query 1 =? k_dim self)) ;;
  let bs := size query 0 in
  let knn := knn self in
  let half := k_dim self / 2 in
  subkeys0 <- select0 subkeys 0 ;;
  n_keys <- len subkeys0 ;;
  (* split query for product quantization *)
  q1 <- slice1 query 0 half ;;
  q2 <- slice1 query half (size query 1) ;;
  (* compute indices with associated scores *)
  scores1 <- F_linear q1 subkeys0 ;;
  subkeys1 <- select0 subkeys 1 ;;
  scores2 <- F_linear q2 subkeys1 ;;
  ' (scores1, indices1) <- topk_dim1 knn scores1 ;;
  ' (scores2, indices2) <- topk_dim1 knn scores2 ;;
  (* cartesian product on best candidate keys *)
  all_scores <- cartesian sadd bs knn scores1 scores2 ;;
  all_indices <- cartesian (fun i j => i * n_keys + j) bs knn indices1 indices2 ;;
  (* select best scores with associated indices *)
  ' (scores, best_indices) <- topk_dim1 knn all_scores ;;
  indices <- gather1 0 all_indices best_indices ;;
  _ <- assert (shape_eqb (shape scores) (shape indices)
               && shape_eqb (shape indices) [bs; knn]) ;;
  ok (scores, indices).

(** [get_indices(query)] *)
Definition get_indices (self : HashingMemory T) (query : tensor T)
  : result (tensor T * tensor nat) :=
  _ <- assert ((tdim query =? 2) && (size query 1 =? k_dim self)) ;;
  query <- view query [None; Some (heads self); Some (k_dim self)] ;;
  bs <- len query ;;
  outputs <- mapM (fun i => q <- select1 query i ;;
                            k <- select0 (keys self) i ;;
                            _get_indices self q k)
                  (seq 0 (heads self)) ;;
  ss <- mapM (fun o => view (fst o) [Some bs; Some 1; Some (knn self)]) outputs ;;
  s <- cat1 ss ;;
  js <- mapM (fun o => view (snd o) [Some bs; Some 1; Some (knn self)]) outputs ;;
  i <- cat1 js ;;
  s' <- view s [None; Some (knn self)] ;;
  i' <- view i [None; Some (knn self)] ;;
  ok (s', i').

(** The first part of [forward], up to the merge of heads and knn: the
    leading sizes of the input, the batch size, and the selected rows of
    the value table with their weights, both of shape (bs, heads * knn). *)
Definition forward_select (self : HashingMemory T) (input : tensor T)
  : M G (list nat * nat * tensor nat * tensor T) :=
  (* input dimensions *)
  d <~ lift (match rev (shape input) with
             | [] => raise IndexError
             | d :: _ => ok d
             end) ;;
  _ <~ lift (assert (d =? input_dim self)) ;;
  let prefix_shape := removelast (shape input) in
  let bs := np_prod prefix_shape in
  (* compute query *)
  input <~ F_dropout input (input_dropout self) (training self) ;;
  x <~ lift (view input [None; Some (input_dim self)]) ;;
  query <~ lift (query_proj self (training self) x) ;;
  bsh <~ lift (as_size (py_mul bs (heads self))) ;;
  query <~ lift (view query [Some bsh; Some (k_dim self)]) ;;
  query <~ F_dropout query (query_dropout self) (training self) ;;
  _ <~ lift (assert (shape_eqb (shape query) [bsh; k_dim self])) ;;
  (* retrieve indices and scores *)
  ' (scores, indices) <~ lift (get_indices self query) ;;
  let scores := F_softmax scores in
  (* merge heads / knn (since we sum heads) *)
  bs <~ lift (as_size bs) ;;
  indices <~ lift (view indices [Some bs; Some (heads self * knn self)]) ;;
  scores <~ lift (view scores [Some bs; Some (heads self * knn self)]) ;;
  retM (prefix_shape, bs, indices, scores).

(** [forward(input)] *)
Definition forward (self : HashingMemory T) (input : tensor T) : M G (tensor T) :=
  ' (prefix_shape, bs, indices, scores) <~ forward_select self input ;;
  (* weighted sum of values *)
  output <~ lift (EmbeddingBag (values self) indices scores) ;;
  output <~ F_dropout output (value_dropout self) (training self) ;;
  (* reshape output *)
  if 2 <=? length prefix_shape
  then lift (view output (map Some (prefix_shape ++ [v_dim self])))
  else retM output.

End Program.

(* ------------------------------------------------------------------ *)
(** ** An executable instance

    Rational numbers for the scalars and simple total functions for the
    library routines, so that the program can be run on concrete inputs.
    [topk_stable] sorts the positions of a row by decreasing value,
    keeping the earlier of two equal elements first. *)

Fixpoint insert_desc {A} (leb : A -> A -> bool) (p : A * nat) (l : list (A * nat))
  : list (A * nat) :=
  match l with
  | [] => [p]
  | q :: l' => if leb (fst q) (fst p) then p :: l else q :: insert_desc leb p l'
  end.

Definition sort_desc {A} (leb : A -> A -> bool) (l : list (A * nat)) : list (A * nat) :=
  fold_right (insert_desc leb) [] l.

Definition topk_stable {A} (leb : A -> A -> bool) (k : nat) (xs : list A) : list nat :=
  firstn k (map snd (sort_desc leb (combine xs (seq 0 (length xs))))).

Definition Qc_of_nat (n : nat) : Qc := Q2Qc (inject_Z (Z.of_nat n)).

(** On the rationals the square root is replaced by the identity (exact
    at 0 and 1) and the exponential by the power of two of the integer
    part, which is the exponential of base 2 on integer scores; there is
    no rounding. *)
#[export] Instance Qc_scalar : Scalar Qc := {|
  szero := Q2Qc 0;
  sone := Q2Qc 1;
  sadd := Qcplus;
  smul := Qcmult;
  sdiv := Qcdiv;
  sneg := Qcopp;
  ssqrt := fun x => x;
  sexp := fun x => Q2Qc (Qpower 2 (Qfloor x));
  sof_nat := Qc_of_nat;
  sf32 := fun x => x;
  sleb := fun x y => Qle_bool (this x) (this y)
|}.

(** The generator state is a counter of the draws made so far.  The
    stand-in sampler returns the lower end of the interval, the stand-in
    mask drops every element, the stand-in query network is a linear layer
    whose weights are all one and whose bias is zero. *)
#[export] Instance demo_backend : Backend Qc nat := {|
  topk1 := topk_stable (fun x y => Qle_bool (this x) (this y));
  RandomState_uniform := fun _ low _ n => repeat low n;
  dropout_mask := fun _ xs g => (map (fun _ => Q2Qc 0) xs, Datatypes.S g);
  normal_ := fun mean _ n g => (repeat mean n, Datatypes.S g);
  new_query_proj := fun i o _ g =>
    (fun _ x => F_linear x (Tensor [o; i] (repeat (Q2Qc 1) (o * i))), Datatypes.S g)
|}.

(** ** A small object to run the program on

    Two heads, three keys per half, keys of dimension 2 (one component
    per half), two rows read per head, a value table of 9 rows of
    dimension 2, evaluation mode. *)

Definition qz (z : Z) : Qc := Q2Qc (inject_Z z).

Definition demo_memory : HashingMemory Qc := {|
  input_dim := 2;
  output_dim := 2;
  k_dim := 2;
  v_dim := 2;
  n_keys := 3;
  size_ := 9;
  heads := 2;
  knn := 2;
  input_dropout := 0;
  query_dropout := 0;
  value_dropout := 0;
  keys := Tensor [2; 2; 3; 1] (map qz [1; 2; 3;  3; 1; 2;  0; 5; 1;  1; 1; 4]%Z);
  values := Tensor [9; 2]
              (map qz [1; 0;  0; 1;  2; 0;  0; 2;  3; 0;  0; 3;  4; 0;  0; 4;  5; 5]%Z);
  query_proj := fun _ x => F_linear x (Tensor [4; 2] (map qz [1; 0;  0; 1;  1; 1;  2; 1]%Z));
  training := false
|}.

(** An input with two leading dimensions, and one with none. *)
Definition demo_input : tensor Qc := Tensor [2; 1; 2] (map qz [1; 2;  3; 1]%Z).
Definition demo_vector : tensor Qc := Tensor [2] (map qz [1; 2]%Z).

(** A batch of two queries for head 0, and the keys of head 0. *)
Definition demo_query : tensor Qc := Tensor [2; 2] (map qz [1; 2;  3; 1]%Z).
Definition demo_subkeys : tensor Qc := Tensor [2; 3; 1] (map qz [1; 2; 3;  3; 1; 2]%Z).

Definition demo_scores : tensor Qc :=
  match _get_indices demo_memory demo_query demo_subkeys with
  | inr (s, _) => s
  | inl _ => Tensor [] []
  end.

Definition demo_indices : tensor nat :=
  match _get_indices (G := nat) demo_memory demo_query demo_subkeys with
  | inr (_, i) => i
  | inl _ => Tensor [] []
  end.

Definition demo_selected : tensor nat :=
  match forward_select demo_memory demo_input 0 with
  | inr ((_, _, idx, _), _) => idx
  | inl _ => Tensor [] []
  end.

Definition demo_weights : tensor Qc :=
  match forward_select demo_memory demo_input 0 with
  | inr ((_, _, _, w), _) => w
  | inl _ => Tensor [] []
  end.

Definition demo_output : tensor Qc :=
  match forward demo_memory demo_input 0 with
  | inr (out, _) => out
  | inl _ => Tensor [] []
  end.

(** Two configurations: one with an odd [k_dim], one with more rows to
    read than keys. *)
Definition odd_params : AttrDict := {|
  p_sparse := false; p_k_dim := 3; p_heads := 2; p_knn := 2; p_n_keys := 3;
  p_query_batchnorm := false;
  p_input_dropout := 0; p_query_dropout := 0; p_value_dropout := 0
|}.

Definition greedy_params : AttrDict := {|
  p_sparse := false; p_k_dim := 2; p_heads := 2; p_knn := 4; p_n_keys := 3;
  p_query_batchnorm := false;
  p_input_dropout := 0; p_query_dropout := 0; p_value_dropout := 0
|}.

Definition demo_params : AttrDict := {|
  p_sparse := false; p_k_dim := 2; p_heads := 2; p_knn := 2; p_n_keys := 3;
  p_query_batchnorm := false;
  p_input_dropout := 0; p_query_dropout := 0; p_value_dropout := 0
|}.

(* ------------------------------------------------------------------ *)
(** ** The key generator in the arithmetic of the program

    What [get_uniform_keys] runs on: double precision for
    [1 / math.sqrt(dim)] and for the samples, the Mersenne Twister of
    [np.random.RandomState(seed)] for an integer seed, and the rounding
    of [astype(np.float32)].  A floating-point number is a [spec_float]
    of the standard library (sign, mantissa, exponent); the operations
    are those of binary64 (53 bits), the conversion rounds to binary32
    (24 bits), both to nearest, ties to even.  The generator follows
    numpy's [mt19937.c] ([mt19937_seed], [mt19937_gen], [mt19937_next],
    [mt19937_next_double]) and [random_uniform]. *)

(** [mt19937_seed]: the 624 words of the initial state,
    [key[pos] = seed; seed = 1812433253 * (seed ^ (seed >> 30)) + pos + 1]
    on 32 bits. *)
Fixpoint mt_seed_loop (n : nat) (pos seed : N) : list N :=
  match n with
  | 0 => []
  | Datatypes.S n' =>
      seed :: mt_seed_loop n' (pos + 1)%N
                (N.land (1812433253 * N.lxor seed (N.shiftr seed 30) + pos + 1)
                        0xffffffff)%N
  end.

Definition mt19937_seed (seed : N) : list N :=
  mt_seed_loop 624 0%N (N.land seed 0xffffffff).

(** [key[i] = x] *)
Fixpoint upd {A} (i : nat) (x : A) (key : list A) : list A :=
  match key, i with
  | [], _ => []
  | _ :: key', 0 => x :: key'
  | y :: key', Datatypes.S i' => y :: upd i' x key'
  end.

(** [y = (key[i] & UPPER_MASK) | (key[j] & LOWER_MASK)] and the new word
    [key[m] ^ (y >> 1) ^ (-(y & 1) & MATRIX_A)]. *)
Definition mt_twist (ki kj km : N) : N :=
  let y := N.lor (N.land ki 0x80000000) (N.land kj 0x7fffffff) in
  N.lxor (N.lxor km (N.shiftr y 1)) (if N.odd y then 0x9908b0df%N else 0%N).

(** [mt19937_gen]: the next 624 words, written in place by the three
    parts of the loop: [i < 227] reads [key[i + 397]], [227 <= i < 623]
    reads [key[i - 227]], and the last word reads [key[0]] and
    [key[396]]. *)
Definition mt19937_gen (key : list N) : list N :=
  let step (j m : nat -> nat) (key : list N) (i : nat) : list N :=
    upd i (mt_twist (nth i key 0%N) (nth (j i) key 0%N) (nth (m i) key 0%N)) key in
  let key := fold_left (step Datatypes.S (fun i => i + 397)) (seq 0 227) key in
  let key := fold_left (step Datatypes.S (fun i => i - 227)) (seq 227 396) key in
  step (fun _ => 0) (fun _ => 396) key 623.

(** The tempering of an output word. *)
Definition mt_temper (y : N) : N :=
  let y := N.lxor y (N.shiftr y 11) in
  let y := N.lxor y (N.land (N.shiftl y 7) 0x9d2c5680) in
  let y := N.lxor y (N.land (N.shiftl y 15) 0xefc60000) in
  N.lxor y (N.shiftr y 18).

(** [mt19937_next], [n] times from the state (key, pos): the words are
    regenerated when all 624 have been used. *)
Fixpoint mt19937_next (n : nat) (key : list N) (pos : nat) : list N :=
  match n with
  | 0 => []
  | Datatypes.S n' =>
      let key' := if pos =? 624 then mt19937_gen key else key in
      let pos' := if pos =? 624 then 0 else pos in
      mt_temper (nth pos' key' 0%N) :: mt19937_next n' key' (Datatypes.S pos')
  end.

(** The double that an integer converts to. *)
Definition f64 (z : Z) : spec_float := binary_normalize 53 1024 z 0 false.

(** [mt19937_next_double] on successive pairs of output words:
    [(a * 67108864.0 + b) / 9007199254740992.0] with [a = x >> 5] and
    [b = y >> 6]. *)
Fixpoint next_doubles (words : list N) : list spec_float :=
  match words with
  | x :: y :: rest =>
      let a := N.shiftr x 5 in
      let b := N.shiftr y 6 in
      SFdiv 53 1024
        (SFadd 53 1024 (SFmul 53 1024 (f64 (Z.of_N a)) (f64 67108864))
                       (f64 (Z.of_N b)))
        (f64 9007199254740992)
      :: next_doubles rest
  | _ => []
  end.

(** [RandomState(seed).uniform(low, high, n)]: numpy returns
    [low + (high - low) * u] for [n] successive doubles [u]. *)
Definition np_uniform (seed : N) (low high : spec_float) (n : nat) : list spec_float :=
  let range := SFsub 53 1024 high low in
  map (fun u => SFadd 53 1024 low (SFmul 53 1024 range u))
      (next_doubles (mt19937_next (2 * n) (mt19937_seed seed) 624)).

(** [x.astype(np.float32)] *)
Definition astype_float32 (x : spec_float) : spec_float :=
  match x with
  | S754_finite s m e => binary_normalize 24 128 (cond_Zopp s (Zpos m)) e s
  | _ => x
  end.


(** The numbers of the key generator.  [get_uniform_keys] does not call
    the exponential, for which the standard library has no
    floating-point definition: it is left undefined here (not a
    number). *)
#[export] Instance ieee_scalar : Scalar spec_float := {|
  szero := S754_zero false;
  sone := f64 1;
  sadd := SFadd 53 1024;
  smul := SFmul 53 1024;
  sdiv := SFdiv 53 1024;
  sneg := SFopp;
  ssqrt := SFsqrt 53 1024;
  sexp := fun _ => S754_nan;
  sof_nat := fun n => f64 (Z.of_nat n);
  sf32 := astype_float32;
  sleb := SFleb
|}.

(** numpy's sampler; the torch routines, which [get_uniform_keys] does
    not call, are stand-ins as in [demo_backend] (nothing is dropped,
    every sample is the mean, the query network is the identity). *)
#[export] Instance numpy_backend : Backend spec_float unit := {|
  topk1 := topk_stable SFleb;
  RandomState_uniform := np_uniform;
  dropout_mask := fun _ xs g => (xs, g);
  normal_ := fun mean _ n g => (repeat mean n, g);
  new_query_proj := fun _ _ _ g => (fun _ x => ok x, g)
|}.

(* ------------------------------------------------------------------ *)
(** ** Contracts and specifications *)

Section Contracts.

Context {T G : Type} {S : Scalar T} {B : Backend T G}.

(** The comparison of scores is a total preorder. *)
Definition total_preorder : Prop :=
  (forall x y : T, sleb x y = true \/ sleb y x = true) /\
  (forall x y z : T, sleb x y = true -> sleb y z = true -> sleb x z = true).

(** [sorted_desc l]: every element is at least every later one. *)
Definition sorted_desc (l : list T) : Prop :=
  forall i j, i < j -> j < length l -> sleb (nth j l szero) (nth i l szero) = true.

(** What [torch.topk] promises about the positions [idxs] it returns for
    the [k] largest elements of [xs]: [k] distinct positions of [xs], their
    values in decreasing order, and no position left out holds a value
    that exceeds a chosen one. *)
Definition topk_spec (k : nat) (xs : list T) (idxs : list nat) : Prop :=
  length idxs = k /\
  NoDup idxs /\
  (forall i, In i idxs -> i < length xs) /\
  sorted_desc (map (fun i => nth i xs szero) idxs) /\
  (forall j i, j < length xs -> ~ In j idxs -> In i idxs ->
               sleb (nth j xs szero) (nth i xs szero) = true).

Definition topk_contract : Prop :=
  forall k xs, k <= length xs -> topk_spec k xs (topk1 k xs).

(** What [RandomState.uniform(low, high, size)] promises: as many samples
    as asked for, each between [low] and [high] when [low <= high]. *)
Definition uniform_contract : Prop :=
  forall seed low high n,
    length (RandomState_uniform seed low high n) = n /\
    (sleb low high = true ->
     Forall (fun x => sleb low x = true /\ sleb x high = true)
            (RandomState_uniform seed low high n)).

(** The bound [1 / sqrt(dim)] of the key generator. *)
Definition key_bound (dim : nat) : T := sdiv sone (ssqrt (sof_nat dim)).


End Contracts.

(** The candidates of one query, in the order of the flattened knn x knn
    grid: entry [i * length r2 + j] combines [r1[i]] with [r2[j]]. *)
Definition pair_op {A} (op : A -> A -> A) (r1 r2 : list A) : list A :=
  flat_map (fun x => map (op x) r2) r1.

(** A dropout probability. *)
Definition valid_rate (p : Q) : Prop := (0 <= p)%Q /\ (p <= 1)%Q.

Section Selection.

Context {T G : Type} {S : Scalar T} {B : Backend T G}.

(** What [_get_indices] computes for one query from the two rows of
    half scores [s1] and [s2] (the rows of [scores1] and [scores2] before
    the first [topk]): the selected scores and the selected combined
    indices. *)
Definition select_row (knn n_keys : nat) (s1 s2 : list T) : list T * list nat :=
  let i1 := topk1 knn s1 in
  let i2 := topk1 knn s2 in
  let v1 := map (fun i => nth i s1 szero) i1 in
  let v2 := map (fun i => nth i s2 szero) i2 in
  let all_scores := pair_op sadd v1 v2 in
  let all_indices := pair_op (fun i j => i * n_keys + j) i1 i2 in
  let best := topk1 knn all_scores in
  (map (fun p => nth p all_scores szero) best,
   map (fun p => nth p all_indices 0) best).

(** [half_scores self query subkeys S1 S2 n]: [S1] and [S2] are the
    tensors [scores1] and [scores2] that [_get_indices] holds before its
    first [topk], and [n] is its local [n_keys]. *)
Definition half_scores (self : HashingMemory T) (query subkeys S1 S2 : tensor T)
           (n : nat) : Prop :=
  exists k0 k1 q1 q2,
    select0 subkeys 0 = inr k0 /\ select0 subkeys 1 = inr k1 /\
    len k0 = inr n /\
    slice1 query 0 (k_dim self / 2) = inr q1 /\
    slice1 query (k_dim self / 2) (size query 1) = inr q2 /\
    F_linear q1 k0 = inr S1 /\ F_linear q2 k1 = inr S2.

(** Score and combined index of candidate [p] of the knn x knn grid built
    from the half scores [s1], [s2] of one query. *)
Definition cand_score (K : nat) (s1 s2 : list T) (p : nat) : T :=
  sadd (nth (nth (p / K) (topk1 K s1) 0) s1 szero)
       (nth (nth (p mod K) (topk1 K s2) 0) s2 szero).

Definition cand_index (K n : nat) (s1 s2 : list T) (p : nat) : nat :=
  nth (p / K) (topk1 K s1) 0 * n + nth (p mod K) (topk1 K s2) 0.

(** The invariant that [__init__] establishes on the object. *)
Definition module_wf (self : HashingMemory T) : Prop :=
  2 <= k_dim self /\ k_dim self mod 2 = 0 /\
  v_dim self = output_dim self /\ size_ self = n_keys self ^ 2 /\
  shape (keys self) = [heads self; 2; n_keys self; k_dim self / 2] /\
  shape (values self) = [size_ self; v_dim self].

(** A usable configuration: at least one head, between 1 and [n_keys]
    rows read per head, a positive input dimension, and dropout
    probabilities that are probabilities. *)
Definition usable_config (self : HashingMemory T) : Prop :=
  1 <= heads self /\ 1 <= knn self /\ knn self <= n_keys self /\
  1 <= input_dim self /\
  valid_rate (input_dropout self) /\ valid_rate (query_dropout self) /\
  valid_rate (value_dropout self).

(** The contract of the query network on the batch at hand: a batch of
    [bs] inputs is mapped to a batch of [bs] vectors of [heads * k_dim]
    components. *)
Definition query_proj_contract (self : HashingMemory T) (bs : nat) : Prop :=
  forall x, shape x = [bs; input_dim self] ->
    exists q, query_proj self (training self) x = inr q /\
              shape q = [bs; heads self * k_dim self].

(** The laws of the numbers that the normalisation of the weights relies
    on; [positive x] is [x > 0]. *)
Definition positive (x : T) : Prop := sleb x szero = false.

Definition softmax_laws : Prop :=
  (forall x, positive (sexp x)) /\
  (forall a b, positive a -> sleb szero b = true -> positive (sadd a b)) /\
  sleb szero szero = true /\
  (forall a, positive a -> sleb szero a = true) /\
  (forall a s, positive a -> positive s -> sleb szero (sdiv a s) = true) /\
  (forall a b s, sdiv (sadd a b) s = sadd (sdiv a s) (sdiv b s)) /\
  (forall s, positive s -> sdiv szero s = szero) /\
  (forall s, positive s -> sdiv s s = sone).

(** The laws that the weighted sum of rows relies on. *)
Definition semiring_laws : Prop :=
  (forall a b, sadd a b = sadd b a) /\
  (forall a b c, sadd a (sadd b c) = sadd (sadd a b) c) /\
  (forall a, sadd szero a = a) /\
  (forall a b x, smul (sadd a b) x = sadd (smul a x) (smul b x)) /\
  (forall x, smul szero x = szero).

(** The weighted sum of the selected rows, as the specification words
    it: the weights of the positions that select row [r] are added up
    ([agg_weight]), and component [c] of the result is the sum, over the
    rows [r] of the table, of that total weight times [table[r][c]]. *)
Definition agg_weight (r : nat) (idx : list nat) (ws : list T) : T :=
  ssum (map snd (filter (fun p => fst p =? r) (combine idx ws))).

Definition weighted_row_sum (table : list (list T)) (d : nat)
           (idx : list nat) (ws : list T) : list T :=
  map (fun c => ssum (map (fun r => smul (agg_weight r idx ws)
                                        (nth c (nth r table []) szero))
                          (seq 0 (length table))))
      (seq 0 d).

End Selection.

(* ------------------------------------------------------------------ *)
(** ** Further contracts and notions *)

(** [raises_only P c]: when [c] raises, the exception satisfies [P]. *)
Definition raises_only {A} (P : error -> Prop) (c : result A) : Prop :=
  forall e, c = inl e -> P e.

Section MoreContracts.

Context {T G : Type} {S : Scalar T} {B : Backend T G}.


(** [nn.init.normal_] fills the tensor it is given: as many samples as
    the tensor has elements. *)
Definition normal_contract : Prop :=
  forall (mean std : T) (n : nat) (g : G), length (fst (normal_ mean std n g)) = n.




End MoreContracts.

Section ForwardSpecs.

Context {T : Type}.

(** What an exception raised by [forward] tells about the call, for a
    query network that honours its contract on the batch. *)
Definition forward_error_cause (self : HashingMemory T) (input : tensor T) (e : error)
  : Prop :=
  match e with
  | IndexError => shape input = []
  | AssertionError => shape input <> [] /\ last (shape input) 0 <> input_dim self
  | TypeError => length (shape input) = 1
  | ValueError => ~ valid_rate (input_dropout self) \/
                  ~ valid_rate (query_dropout self) \/
                  ~ valid_rate (value_dropout self)
  | ZeroDivisionError => False
  | RuntimeError =>
      heads self = 0 \/ knn self = 0 \/ n_keys self < knn self \/
      input_dim self = 0 \/ numel (removelast (shape input)) = 0
  end.

End ForwardSpecs.

Section PrefixSpecs.

Context {T G : Type}.

(** The result of the first part of [forward], with the leading sizes
    it reports replaced by [p]. *)
Definition with_prefix (p : list nat)
           (r : result ((list nat * nat * tensor nat * tensor T) * G))
  : result ((list nat * nat * tensor nat * tensor T) * G) :=
  match r with
  | inl e => inl e
  | inr ((_, bs, idx, w), g') => inr ((p, bs, idx, w), g')
  end.

End PrefixSpecs.

(** The same object with another value table, for instance after an
    update of [self.values.weight]. *)
Definition with_values {T} (m : HashingMemory T) (v : tensor T) : HashingMemory T :=
  {| input_dim := input_dim m; output_dim := output_dim m; k_dim := k_dim m;
     v_dim := v_dim m; n_keys := n_keys m; size_ := size_ m; heads := heads m;
     knn := knn m; input_dropout := input_dropout m;
     query_dropout := query_dropout m; value_dropout := value_dropout m;
     keys := keys m; values := v; query_proj := query_proj m;
     training := training m |}.

(* ------------------------------------------------------------------ *)
(** ** The session of the notebook

    The cells after the class build [params], construct
    [memory = HashingMemory(50, 100, params)] and read a batch [x] of
    shape (2, 3, 4, 50) with [memory(x)]. *)

Definition params : AttrDict := {|
  p_sparse := false;
  p_k_dim := 128;
  p_heads := 4;
  p_knn := 32;
  p_n_keys := 512;
  p_query_batchnorm := true;
  p_input_dropout := 0;
  p_query_dropout := 0;
  p_value_dropout := 0
|}.

Section Session.

Context {T G : Type} {S : Scalar T} {B : Backend T G}.

Definition notebook_run (x : tensor T) : M G (tensor T) :=
  memory <~ __init__ 50 100 params ;;
  forward memory x.

End Session.

(** ** More objects to run the program on *)

(** The queries of two batch elements for the two heads of
    [demo_memory], one row per batch element and head. *)
Definition demo_head_queries : tensor Qc :=
  Tensor [4; 2] (map qz [1; 2;  3; 1;  2; 2;  0; 1]%Z).

Definition demo_head_scores : tensor Qc :=
  match get_indices (G := nat) demo_memory demo_head_queries with
  | inr (s, _) => s
  | inl _ => Tensor [] []
  end.

Definition demo_head_indices : tensor nat :=
  match get_indices (G := nat) demo_memory demo_head_queries with
  | inr (_, i) => i
  | inl _ => Tensor [] []
  end.

(** The object that the constructor builds from [demo_params], and one
    built with other sizes, three heads and another generator state. *)
Definition demo_built : HashingMemory Qc :=
  match __init__ (B := demo_backend) 2 2 demo_params 0 with
  | inr (m, _) => m
  | inl _ => demo_memory
  end.

Definition wide_params : AttrDict := {|
  p_sparse := false; p_k_dim := 2; p_heads := 3; p_knn := 1; p_n_keys := 3;
  p_query_batchnorm := true;
  p_input_dropout := 0; p_query_dropout := 0; p_value_dropout := 0
|}.

Definition wide_built : HashingMemory Qc :=
  match __init__ (B := demo_backend) 5 3 wide_params 7 with
  | inr (m, _) => m
  | inl _ => demo_memory
  end.

(** A configuration with 2**31 + 1 heads: the seed of its last sub-key
    set is 2**32 + 1. *)
Definition crowded_params : AttrDict := {|
  p_sparse := false; p_k_dim := 2; p_heads := N.to_nat 2147483649; p_knn := 1;
  p_n_keys := 0; p_query_batchnorm := false;
  p_input_dropout := 0; p_query_dropout := 0; p_value_dropout := 0
|}.

(** A value table that differs from the one of [demo_memory] in the rows
    0, 1, 2, 4 and 7. *)
Definition demo_other_values : tensor Qc :=
  Tensor [9; 2]
    (map qz [9; 9;  9; 9;  9; 9;  0; 2;  9; 9;  0; 3;  4; 0;  9; 9;  5; 5]%Z).

(** The keys that [get_uniform_keys(13, 25, 12837)] returns in the
    arithmetic of the program. *)
Definition numpy_keys : tensor spec_float :=
  match get_uniform_keys (S := ieee_scalar) (B := numpy_backend) 13 25 12837 with
  | inr ks => ks
  | inl _ => Tensor [] []
  end.

(** The object that the constructor builds from [greedy_params], which
    asks for more rows per head than there are keys. *)
Definition greedy_built : HashingMemory Qc :=
  match __init__ (B := demo_backend) 2 2 greedy_params 0 with
  | inr (m, _) => m
  | inl _ => demo_memory
  end.

(** A tensor without dimensions, and a batch whose last size is not the
    [input_dim] of [demo_memory]. *)
Definition demo_number : tensor Qc := Tensor [] [qz 1].
Definition demo_misfit : tensor Qc := Tensor [2; 3] (map qz [1; 2; 3;  4; 5; 6]%Z).

(* ------------------------------------------------------------------ *)
(** * Proofs *)

Unset Implicit Arguments.

(** ** The result monad *)

Lemma bind_inr {A B} (c : result A) (k : A -> result B) (v : B) :
  bind c k = inr v -> exists a, c = inr a /\ k a = inr v.
Proof.
  destruct c as [e | a]; simpl; intros H; [discriminate | eauto].
Qed.

Lemma bindM_inr {G A B} (c : M G A) (k : A -> M G B) (g : G) (v : B * G) :
  bindM c k g = inr v -> exists a g', c g = inr (a, g') /\ k a g' = inr v.
Proof.
  unfold bindM. destruct (c g) as [e | [a g']]; intros H; [discriminate | eauto].
Qed.

Lemma lift_inr {G A} (c : result A) (g g' : G) (a : A) :
  lift c g = inr (a, g') -> c = inr a /\ g' = g.
Proof.
  unfold lift. destruct c as [e | a0]; intros H; [discriminate |].
  inversion H; subst; auto.
Qed.

Lemma assert_inr (b : bool) (u : unit) : assert b = inr u -> b = true.
Proof. destruct b; simpl; [reflexivity | discriminate]. Qed.

(** Peel the successful prefix of a chain of binds. *)
Ltac inv_bind H :=
  let a := fresh "a" in
  let Ha := fresh "E" in
  apply bind_inr in H; destruct H as (a & Ha & H).

Tactic Notation "step" hyp(H) "as" ident(a) ident(E) :=
  apply bind_inr in H; destruct H as (a & E & H).

Tactic Notation "stepM" hyp(H) "as" ident(a) ident(g) ident(E) :=
  apply bindM_inr in H; destruct H as (a & g & E & H).

(** A bind whose first computation is pure. *)
Tactic Notation "inv_lift" hyp(H) "as" ident(a) ident(E) :=
  let g := fresh "g" in
  let Eg := fresh "Eg" in
  apply bindM_inr in H; destruct H as (a & g & E & H);
  apply lift_inr in E; destruct E as [E Eg]; subst g.

Lemma mapM_inr {A B} (f : A -> result B) (l : list A) (ys : list B) :
  mapM f l = inr ys -> Forall2 (fun x y => f x = inr y) l ys.
Proof.
  revert ys. induction l as [| x l IH]; simpl; intros ys H.
  - inversion H. constructor.
  - inv_bind H. inv_bind H. inversion H; subst. constructor; auto.
Qed.

Lemma mapM_ok {A B} (f : A -> result B) (g : A -> B) (l : list A) :
  (forall x, In x l -> f x = inr (g x)) -> mapM f l = inr (map g l).
Proof.
  induction l as [| x l IH]; simpl; intros H; [reflexivity |].
  rewrite (H x (or_introl eq_refl)). simpl.
  rewrite IH by auto. reflexivity.
Qed.

(** ** Blocks of a list *)

Lemma chunks_length {A} (n m : nat) (l : list A) : length (chunks n m l) = n.
Proof. revert l. induction n; simpl; intros; [reflexivity | now rewrite IHn]. Qed.

Lemma chunks_Forall_length {A} (n m : nat) (l : list A) :
  n * m <= length l -> Forall (fun r => length r = m) (chunks n m l).
Proof.
  revert l. induction n as [| n IH]; simpl; intros l H; constructor.
  - rewrite length_firstn. lia.
  - apply IH. rewrite length_skipn. lia.
Qed.

Lemma concat_chunks {A} (n m : nat) (l : list A) :
  length l = n * m -> concat (chunks n m l) = l.
Proof.
  revert l. induction n as [| n IH]; simpl; intros l H.
  - destruct l; [reflexivity | discriminate].
  - rewrite IH by (rewrite length_skipn; lia). apply firstn_skipn.
Qed.

Lemma chunks_concat {A} (m : nat) (rs : list (list A)) :
  Forall (fun r => length r = m) rs -> chunks (length rs) m (concat rs) = rs.
Proof.
  induction 1 as [| r rs Hr _ IH]; simpl; [reflexivity |].
  assert (Hf : firstn m (r ++ concat rs) = r).
  { rewrite firstn_app, Hr, Nat.sub_diag, firstn_O, app_nil_r.
    rewrite <- Hr. apply firstn_all. }
  assert (Hs : skipn m (r ++ concat rs) = concat rs).
  { rewrite skipn_app, Hr, Nat.sub_diag, skipn_O.
    rewrite <- Hr, skipn_all. reflexivity. }
  now rewrite Hf, Hs, IH.
Qed.

Lemma chunks_nth {A} (n m b : nat) (l : list A) :
  b < n -> nth b (chunks n m l) [] = firstn m (skipn (b * m) l).
Proof.
  revert b l. induction n as [| n IH]; intros b l H; [lia |].
  destruct b as [| b]; simpl; [reflexivity |].
  rewrite IH by lia. now rewrite skipn_skipn, Nat.add_comm.
Qed.

Lemma length_concat_uniform {A} (m : nat) (rs : list (list A)) :
  Forall (fun r => length r = m) rs -> length (concat rs) = length rs * m.
Proof.
  induction 1 as [| r rs Hr _ IH]; simpl; [reflexivity |].
  rewrite length_app, IH, Hr. reflexivity.
Qed.

Lemma concat_nth_block {A} (m i : nat) (rs : list (list A)) :
  Forall (fun r => length r = m) rs ->
  firstn m (skipn (i * m) (concat rs)) = if i <? length rs then nth i rs [] else [].
Proof.
  intros H. destruct (Nat.ltb_spec i (length rs)) as [Hi | Hi].
  - rewrite <- (chunks_concat _ _ H) at 2. now rewrite chunks_nth.
  - rewrite skipn_all2; [now rewrite firstn_nil |].
    rewrite (length_concat_uniform _ _ H). nia.
Qed.

Lemma Forall_map_length {A B} (f : A -> list B) (m : nat) (l : list A) :
  (forall x, In x l -> length (f x) = m) ->
  Forall (fun r => length r = m) (map f l).
Proof.
  intros H. apply Forall_forall. intros r Hr.
  apply in_map_iff in Hr. destruct Hr as (x & <- & Hx). auto.
Qed.

(** Rows of rows: block [b * h + i] of width [k] is the [i]-th block of
    block [b] of width [h * k]. *)
Lemma chunks_chunks_nth {A} (n h k b i : nat) (l : list A) :
  length l = n * (h * k) -> b < n -> i < h ->
  firstn k (skipn (i * k) (nth b (chunks n (h * k) l) [])) =
  nth (b * h + i) (chunks (n * h) k l) [].
Proof.
  intros Hl Hb Hi.
  rewrite !chunks_nth by nia.
  rewrite skipn_firstn_comm, firstn_firstn, skipn_skipn.
  f_equal; [nia |]. f_equal. nia.
Qed.

(** ** Expansion and the cartesian product *)

Lemma chunks_one {A} (d : list A) : chunks (length d) 1 d = map (fun x => [x]) d.
Proof. induction d as [| x d IH]; simpl; [reflexivity | now rewrite IH]. Qed.

Lemma concat_repeat_singleton {A} (x : A) (k : nat) :
  concat (repeat [x] k) = repeat x k.
Proof. induction k; simpl; [reflexivity | now rewrite IHk]. Qed.

Lemma expand_data_unit {A} (x : A) (k : nat) :
  expand_data [1] [k] [x] = repeat x k.
Proof.
  simpl. destruct k as [| [| k]]; simpl; try reflexivity.
  now rewrite concat_repeat_singleton.
Qed.

Lemma expand_data_id1 {A} (k : nat) (d : list A) :
  length d = k -> expand_data [k] [k] d = d.
Proof.
  intros H. simpl. rewrite Nat.eqb_refl, map_id.
  apply concat_chunks. lia.
Qed.

Lemma expand_data_last {A} (n k : nat) (d : list A) :
  length d = n -> expand_data [n; 1] [n; k] d = flat_map (fun x => repeat x k) d.
Proof.
  intros H. subst n.
  change (expand_data [length d; 1] [length d; k] d)
    with (if length d =? length d
          then concat (map (expand_data [1] [k]) (chunks (length d) 1 d))
          else concat (repeat (hd [] (map (expand_data [1] [k]) (chunks (length d) 1 d)))
                              (length d))).
  rewrite Nat.eqb_refl, chunks_one, map_map, flat_map_concat_map.
  f_equal. apply map_ext. intros x. apply expand_data_unit.
Qed.

Lemma expand_data_mid {A} (n k : nat) (d : list A) :
  length d = k -> expand_data [1; k] [n; k] d = concat (repeat d n).
Proof.
  intros H.
  change (expand_data [1; k] [n; k] d)
    with (if 1 =? n
          then concat (map (expand_data [k] [k]) (chunks 1 (k * 1) d))
          else concat (repeat (hd [] (map (expand_data [k] [k]) (chunks 1 (k * 1) d))) n)).
  assert (Hc : chunks 1 (k * 1) d = [d]).
  { simpl. rewrite Nat.mul_1_r, <- H, firstn_all. reflexivity. }
  rewrite Hc. cbn [map hd]. rewrite (@expand_data_id1 _ k d H).
  destruct (Nat.eqb_spec 1 n) as [<- | _]; reflexivity.
Qed.

Lemma expand_data_cons {A} (b : nat) (s t : list nat) (d : list A) :
  expand_data (b :: s) (b :: t) d =
  concat (map (expand_data s t) (chunks b (numel s) d)).
Proof. simpl. now rewrite Nat.eqb_refl. Qed.

Lemma combine_app_eq {A B} (l1 l2 : list A) (m1 m2 : list B) :
  length l1 = length m1 ->
  combine (l1 ++ l2) (m1 ++ m2) = combine l1 m1 ++ combine l2 m2.
Proof.
  revert m1. induction l1 as [| x l1 IH]; intros [| y m1] H; simpl in *;
    try discriminate; [reflexivity |].
  f_equal. apply IH. lia.
Qed.

Lemma combine_concat {A B} (la : list (list A)) (lb : list (list B)) :
  Forall2 (fun a b => length a = length b) la lb ->
  combine (concat la) (concat lb) =
  concat (map (fun p => combine (fst p) (snd p)) (combine la lb)).
Proof.
  induction 1 as [| a b la lb Hab _ IH]; simpl; [reflexivity |].
  now rewrite combine_app_eq, IH.
Qed.

Lemma combine_map2 {A B A' B'} (f : A -> A') (g : B -> B') (la : list A) (lb : list B) :
  combine (map f la) (map g lb) = map (fun p => (f (fst p), g (snd p))) (combine la lb).
Proof.
  revert lb. induction la as [| x la IH]; intros [| y lb]; simpl; try reflexivity.
  now rewrite IH.
Qed.

Lemma map_combine_repeat {A C} (f : A -> A -> C) (x : A) (r : list A) :
  map (fun p => f (fst p) (snd p)) (combine (repeat x (length r)) r) = map (f x) r.
Proof. induction r as [| y r IH]; simpl; [reflexivity | now rewrite IH]. Qed.

Lemma pair_op_length {A} (op : A -> A -> A) (r1 r2 : list A) :
  length (pair_op op r1 r2) = length r1 * length r2.
Proof.
  unfold pair_op. induction r1 as [| x r1 IH]; simpl; [reflexivity |].
  now rewrite length_app, length_map, IH.
Qed.

Lemma pair_op_nth {A} (op : A -> A -> A) (r1 r2 : list A) (i j : nat) (d : A) :
  i < length r1 -> j < length r2 ->
  nth (i * length r2 + j) (pair_op op r1 r2) d = op (nth i r1 d) (nth j r2 d).
Proof.
  unfold pair_op. revert i. induction r1 as [| x r1 IH]; intros i Hi Hj; simpl in *; [lia |].
  destruct i as [| i].
  - rewrite app_nth1 by (rewrite length_map; lia).
    simpl. rewrite (nth_indep _ d (op x d)) by (rewrite length_map; lia).
    apply map_nth.
  - rewrite app_nth2 by (rewrite length_map; lia).
    rewrite length_map.
    replace (Datatypes.S i * length r2 + j - length r2) with (i * length r2 + j) by lia.
    apply IH; lia.
Qed.

(** One row of the sum of the two expanded operands. *)
Lemma expanded_row {A} (op : A -> A -> A) (ra rb : list A) :
  map (fun p => op (fst p) (snd p))
      (combine (flat_map (fun x => repeat x (length rb)) ra)
               (concat (repeat rb (length ra)))) = pair_op op ra rb.
Proof.
  unfold pair_op. induction ra as [| x ra IH]; simpl; [reflexivity |].
  rewrite combine_app_eq by now rewrite repeat_length.
  now rewrite map_app, IH, map_combine_repeat.
Qed.

Lemma expanded_row_k {A} (op : A -> A -> A) (k : nat) (ra rb : list A) :
  length ra = k -> length rb = k ->
  map (fun p => op (fst p) (snd p))
      (combine (flat_map (fun x => repeat x k) ra) (concat (repeat rb k))) =
  pair_op op ra rb.
Proof.
  intros Ha Hb. rewrite <- (expanded_row op ra rb). now rewrite Ha, Hb.
Qed.

Lemma length_flat_map_repeat {A} (k : nat) (l : list A) :
  length (flat_map (fun x => repeat x k) l) = length l * k.
Proof.
  induction l as [| x l IH]; simpl; [reflexivity |].
  now rewrite length_app, repeat_length, IH.
Qed.

Lemma length_concat_repeat {A} (n : nat) (d : list A) :
  length (concat (repeat d n)) = n * length d.
Proof.
  induction n as [| n IH]; simpl; [reflexivity |].
  now rewrite length_app, IH.
Qed.

Lemma Forall2_map_lengths {A B C D} (f : A -> list C) (g : B -> list D) (m : nat)
      (la : list A) (lb : list B) :
  length la = length lb ->
  (forall x, In x la -> length (f x) = m) ->
  (forall y, In y lb -> length (g y) = m) ->
  Forall2 (fun u v => length u = length v) (map f la) (map g lb).
Proof.
  revert lb. induction la as [| x la IH]; intros [| y lb] Hl Hf Hg; simpl in *;
    try discriminate; constructor.
  - rewrite Hf, Hg; auto.
  - apply IH; auto.
Qed.

Lemma view_known {A} (t : tensor A) (sz : list nat) :
  view t (map Some sz) =
  if numel (shape t) =? numel sz then ok (Tensor sz (data t)) else raise RuntimeError.
Proof.
  unfold view.
  assert (Hu : unknowns (map Some sz) = 0) by (induction sz; simpl; auto).
  assert (Hk : known (map Some sz) = numel sz)
    by (induction sz as [| a sz IH]; simpl; [reflexivity | now rewrite IH]).
  assert (Hf : fill 0 (map Some sz) = sz)
    by (unfold fill; rewrite map_map; apply map_id).
  now rewrite Hu, Hk, Hf.
Qed.

(** [cartesian] needs a non-empty batch; it then lists, query by query,
    the knn * knn combinations. *)
Lemma bind_ok {A B} (a : A) (k : A -> result B) : bind (ok a) k = k a.
Proof. reflexivity. Qed.

Lemma expand_ok {A} (t : tensor A) (tgt : list nat) :
  expandable (shape t) tgt = true ->
  expand t tgt = ok (Tensor tgt (expand_data (shape t) tgt (data t))).
Proof. unfold expand. now intros ->. Qed.

Lemma tmap2_ok {A B C} (f : A -> B -> C) (x : tensor A) (y : tensor B) :
  shape x = shape y ->
  tmap2 f x y =
  ok (Tensor (shape x) (map (fun p => f (fst p) (snd p)) (combine (data x) (data y)))).
Proof.
  intros H. unfold tmap2, shape_eqb.
  destruct (list_eq_dec Nat.eq_dec (shape x) (shape y)); [reflexivity | contradiction].
Qed.

Lemma shape_eqb_eq (a b : list nat) : shape_eqb a b = true <-> a = b.
Proof.
  unfold shape_eqb. destruct (list_eq_dec Nat.eq_dec a b); split; congruence.
Qed.

(** [t.view(b, -1)] *)
Lemma view_rows {A} (t : tensor A) (b : nat) :
  view t [Some b; None] =
  if (0 <? b) && (numel (shape t) mod b =? 0)
  then ok (Tensor [b; numel (shape t) / b] (data t))
  else raise RuntimeError.
Proof.
  unfold view. cbn [unknowns filter length known fold_right fill map].
  now rewrite Nat.mul_1_r.
Qed.

(** [t.view(-1, c)] *)
Lemma view_cols {A} (t : tensor A) (c : nat) :
  view t [None; Some c] =
  if (0 <? c) && (numel (shape t) mod c =? 0)
  then ok (Tensor [numel (shape t) / c; c] (data t))
  else raise RuntimeError.
Proof.
  unfold view. cbn [unknowns filter length known fold_right fill map].
  now rewrite Nat.mul_1_r.
Qed.

(** [cartesian] needs a non-empty batch; it then lists, query by query,
    the knn * knn combinations. *)
Lemma cartesian_ok {A} (op : A -> A -> A) (bs knn : nat) (a b : tensor A) :
  shape a = [bs; knn] -> shape b = [bs; knn] ->
  length (data a) = bs * knn -> length (data b) = bs * knn ->
  0 < bs ->
  cartesian op bs knn a b =
  inr (Tensor [bs; knn * knn]
         (concat (map (fun p => pair_op op (fst p) (snd p))
                      (combine (chunks bs knn (data a)) (chunks bs knn (data b)))))).
Proof.
  intros Ha Hb La Lb Hbs. unfold cartesian.
  change [Some bs; Some knn; Some 1] with (map Some [bs; knn; 1]).
  change [Some bs; Some 1; Some knn] with (map Some [bs; 1; knn]).
  rewrite !view_known, Ha, Hb.
  replace (numel [bs; knn] =? numel [bs; knn; 1]) with true
    by (symmetry; apply Nat.eqb_eq; simpl; lia).
  replace (numel [bs; knn] =? numel [bs; 1; knn]) with true
    by (symmetry; apply Nat.eqb_eq; simpl; lia).
  rewrite bind_ok, expand_ok
    by (cbn [shape expandable]; rewrite !Nat.eqb_refl; cbn; now rewrite ?orb_true_r).
  rewrite bind_ok, bind_ok, expand_ok
    by (cbn [shape expandable]; rewrite !Nat.eqb_refl; cbn; now rewrite ?orb_true_r).
  rewrite bind_ok, tmap2_ok by reflexivity.
  rewrite bind_ok, view_rows. cbn [shape data].
  replace (0 <? bs) with true by (symmetry; apply Nat.ltb_lt; exact Hbs).
  replace (numel [bs; knn; knn] mod bs =? 0) with true
    by (symmetry; apply Nat.eqb_eq; cbn [numel fold_right];
        rewrite Nat.mul_comm; apply Nat.Div0.mod_mul).
  cbn [andb]. unfold ok. f_equal.
  replace (numel [bs; knn; knn] / bs) with (knn * knn)
    by (cbn [numel fold_right]; rewrite Nat.mul_1_r, (Nat.mul_comm bs), Nat.div_mul; lia).
  f_equal.
  rewrite !expand_data_cons.
  replace (numel [knn; 1]) with knn by (simpl; lia).
  replace (numel [1; knn]) with knn by (simpl; lia).
  rewrite combine_concat.
  - rewrite concat_map, map_map. f_equal.
    rewrite combine_map2. rewrite map_map. apply map_ext_in.
    intros [ra rb] Hin. cbn [fst snd].
    assert (length ra = knn /\ length rb = knn) as [Hra Hrb].
    { split.
      - apply in_combine_l in Hin.
        pose proof (chunks_Forall_length bs knn (data a)) as F.
        rewrite Forall_forall in F. apply F; [lia | exact Hin].
      - apply in_combine_r in Hin.
        pose proof (chunks_Forall_length bs knn (data b)) as F.
        rewrite Forall_forall in F. apply F; [lia | exact Hin]. }
    rewrite (@expand_data_last _ knn knn ra Hra), (@expand_data_mid _ knn knn rb Hrb).
    now apply expanded_row_k.
  - apply Forall2_map_lengths with (m := knn * knn).
    + now rewrite !chunks_length.
    + intros x Hx.
      assert (Lx : length x = knn).
      { pose proof (chunks_Forall_length bs knn (data a)) as F.
        rewrite Forall_forall in F. apply F; [lia | exact Hx]. }
      rewrite (@expand_data_last _ knn knn x Lx), length_flat_map_repeat. now rewrite Lx.
    + intros y Hy.
      assert (Ly : length y = knn).
      { pose proof (chunks_Forall_length bs knn (data b)) as F.
        rewrite Forall_forall in F. apply F; [lia | exact Hy]. }
      rewrite (@expand_data_mid _ knn knn y Ly), length_concat_repeat. now rewrite Ly.
Qed.

(** ** The tensor operations of [_get_indices] *)

Section SelectionProofs.

Context {T G : Type} {S : Scalar T} {B : Backend T G}.

Lemma cartesian_pos {A} (op : A -> A -> A) (bs knn : nat) (a b c : tensor A) :
  cartesian op bs knn a b = inr c -> 0 < bs.
Proof.
  unfold cartesian. intros H. do 5 inv_bind H.
  rewrite view_rows in H.
  destruct (Nat.ltb_spec 0 bs); [assumption | discriminate].
Qed.

Lemma F_linear_inr (x w r : tensor T) :
  F_linear x w = inr r ->
  exists bs d n,
    shape x = [bs; d] /\ shape w = [n; d] /\
    r = Tensor [bs; n]
          (concat (map (fun q => map (dot q) (chunks n d (data w)))
                       (chunks bs d (data x)))).
Proof.
  unfold F_linear. intros H.
  destruct (shape x) as [| bs [| d [| ? ?]]]; try discriminate.
  destruct (shape w) as [| n [| d' [| ? ?]]]; try discriminate.
  destruct (Nat.eqb_spec d d') as [Hd | _]; [subst d' | discriminate].
  inversion H. eauto 8.
Qed.

Lemma F_linear_rows (bs d n : nat) (x w : list T) :
  chunks bs n (concat (map (fun q => map (dot q) (chunks n d w)) (chunks bs d x))) =
  map (fun q => map (dot q) (chunks n d w)) (chunks bs d x).
Proof.
  rewrite <- (chunks_length bs d x) at 1.
  rewrite <- (length_map (fun q => map (dot q) (chunks n d w))).
  apply chunks_concat. apply Forall_map_length.
  intros q _. now rewrite length_map, chunks_length.
Qed.

Lemma topk_dim1_inr (k : nat) (t : tensor T) (v : tensor T) (i : tensor nat) :
  topk_dim1 k t = inr (v, i) ->
  exists r c,
    shape t = [r; c] /\ k <= c /\
    v = Tensor [r; k]
          (concat (map (fun row => map (fun i => nth i row szero) (topk1 k row))
                       (chunks r c (data t)))) /\
    i = Tensor [r; k] (concat (map (topk1 k) (chunks r c (data t)))).
Proof.
  unfold topk_dim1. intros H.
  destruct (shape t) as [| r [| c [| ? ?]]]; try discriminate.
  destruct (Nat.leb_spec k c); [| discriminate].
  inversion H. eauto 8.
Qed.

Lemma gather1_inr {A} (dflt : A) (t : tensor A) (index : tensor nat) (o : tensor A) :
  gather1 dflt t index = inr o ->
  exists r c r' c',
    shape t = [r; c] /\ shape index = [r'; c'] /\ r' <= r /\
    Forall (fun i => i < c) (data index) /\
    o = Tensor [r'; c']
          (concat (map (fun p => map (fun i => nth i (fst p) dflt) (snd p))
                       (combine (chunks r c (data t)) (chunks r' c' (data index))))).
Proof.
  unfold gather1. intros H.
  destruct (shape t) as [| r [| c [| ? ?]]]; try discriminate.
  destruct (shape index) as [| r' [| c' [| ? ?]]]; try discriminate.
  destruct (Nat.leb_spec r' r); [| discriminate].
  destruct (forallb (fun i => i <? c) (data index)) eqn:F; [| discriminate].
  inversion H. exists r, c, r', c'. repeat split; auto.
  apply Forall_forall. intros i Hi.
  rewrite forallb_forall in F. apply Nat.ltb_lt. auto.
Qed.

Lemma select0_inr {A} (t : tensor A) (i : nat) (o : tensor A) :
  select0 t i = inr o ->
  exists d rest,
    shape t = d :: rest /\ i < d /\
    o = Tensor rest (firstn (numel rest) (skipn (i * numel rest) (data t))).
Proof.
  unfold select0. intros H.
  destruct (shape t) as [| d rest]; [discriminate |].
  destruct (Nat.ltb_spec i d); [| discriminate].
  inversion H. eauto.
Qed.

Lemma slice1_inr {A} (t : tensor A) (a b : nat) (o : tensor A) :
  slice1 t a b = inr o ->
  exists d0 d1 rest,
    shape t = d0 :: d1 :: rest /\
    o = Tensor (d0 :: (Nat.max (Nat.min a d1) (Nat.min b d1) - Nat.min a d1) :: rest)
          (concat (map (fun r => firstn ((Nat.max (Nat.min a d1) (Nat.min b d1) - Nat.min a d1)
                                         * numel rest)
                                        (skipn (Nat.min a d1 * numel rest) r))
                       (chunks d0 (d1 * numel rest) (data t)))).
Proof.
  unfold slice1. intros H.
  destruct (shape t) as [| d0 [| d1 rest]]; try discriminate.
  inversion H. eauto.
Qed.

(** Rows of a concatenation of rows of one length. *)
Lemma chunks_concat_map {A C} (f : A -> list C) (m : nat) (l : list A) :
  (forall x, In x l -> length (f x) = m) ->
  chunks (length l) m (concat (map f l)) = map f l.
Proof.
  intros H. rewrite <- (length_map f l).
  apply chunks_concat. now apply Forall_map_length.
Qed.

Lemma length_concat_map {A C} (f : A -> list C) (m : nat) (l : list A) :
  (forall x, In x l -> length (f x) = m) ->
  length (concat (map f l)) = length l * m.
Proof.
  intros H. rewrite (@length_concat_uniform _ m), length_map; [reflexivity |].
  now apply Forall_map_length.
Qed.

Lemma combine_map_same {X A C} (f : X -> A) (g : X -> C) (l : list X) :
  combine (map f l) (map g l) = map (fun x => (f x, g x)) l.
Proof. induction l as [| x l IH]; simpl; [reflexivity | now rewrite IH]. Qed.

Lemma map_fst_combine_eq {A C} (la : list A) (lb : list C) :
  length la = length lb -> map fst (combine la lb) = la.
Proof.
  revert lb. induction la as [| x la IH]; intros [| y lb] H; simpl in *;
    try discriminate; [reflexivity |].
  f_equal. apply IH. lia.
Qed.

Lemma map_snd_combine_eq {A C} (la : list A) (lb : list C) :
  length la = length lb -> map snd (combine la lb) = lb.
Proof.
  revert lb. induction la as [| x la IH]; intros [| y lb] H; simpl in *;
    try discriminate; [reflexivity |].
  f_equal. apply IH. lia.
Qed.

Lemma rows_2d {A} (t : tensor A) (r c : nat) :
  shape t = [r; c] -> rows t = chunks r c (data t).
Proof.
  intros H. unfold rows. rewrite H. cbn [removelast last numel fold_right].
  now rewrite Nat.mul_1_r.
Qed.

(** The master description of a successful call: the two tensors of half
    scores exist, the batch is not empty, there are at least [knn] keys in
    each half, and every row of the result is [select_row] of the
    corresponding rows of half scores. *)
Lemma _get_indices_rows (self : HashingMemory T) (query subkeys : tensor T)
      (scores : tensor T) (indices : tensor nat) :
  topk_contract ->
  _get_indices self query subkeys = inr (scores, indices) ->
  exists S1 S2 n,
    half_scores self query subkeys S1 S2 n /\
    size subkeys 1 = n /\
    shape S1 = [size query 0; n] /\ shape S2 = [size query 0; n] /\
    0 < size query 0 /\ knn self <= n /\
    shape scores = [size query 0; knn self] /\
    shape indices = [size query 0; knn self] /\
    data scores =
      concat (map (fun p => fst (select_row (knn self) n (fst p) (snd p)))
                  (combine (rows S1) (rows S2))) /\
    data indices =
      concat (map (fun p => snd (select_row (knn self) n (fst p) (snd p)))
                  (combine (rows S1) (rows S2))).
Proof.
  intros Htopk H. unfold _get_indices in H.
  inv_bind H. apply assert_inr in E. clear a.
  inv_bind H. rename a into k0, E0 into Ek0.
  inv_bind H. rename a into n, E0 into En.
  inv_bind H. rename a into q1, E0 into Eq1.
  inv_bind H. rename a into q2, E0 into Eq2.
  inv_bind H. rename a into S1, E0 into ES1.
  inv_bind H. rename a into k1, E0 into Ek1.
  inv_bind H. rename a into S2, E0 into ES2.
  inv_bind H. destruct a as [sc1 ix1]. rename E0 into Et1.
  inv_bind H. destruct a as [sc2 ix2]. rename E0 into Et2.
  inv_bind H. rename a into all_scores, E0 into Eas.
  inv_bind H. rename a into all_indices, E0 into Eai.
  inv_bind H. destruct a as [sc best]. rename E0 into Et3.
  inv_bind H. rename a into ix, E0 into Eg.
  inv_bind H. clear a E0. inversion H; subst sc ix; clear H.
  set (bs := size query 0) in *. set (K := knn self) in *.
  (* shapes of the keys *)
  destruct (select0_inr _ _ _ Ek0) as (two & rest & Hsub & _ & Hk0).
  destruct (select0_inr _ _ _ Ek1) as (two' & rest' & Hsub' & _ & Hk1).
  rewrite Hsub in Hsub'. inversion Hsub'; subst two' rest'. clear Hsub'.
  (* half scores *)
  destruct (F_linear_inr _ _ _ ES1) as (b1 & d1 & n1 & Hq1 & Hk0s & HS1).
  destruct (F_linear_inr _ _ _ ES2) as (b2 & d2 & n2 & Hq2 & Hk1s & HS2).
  assert (rest = [n1; d1]) by (subst k0; exact Hk0s). subst rest.
  assert (n2 = n1 /\ d2 = d1) as [-> ->] by (subst k1; simpl in Hk1s; now inversion Hk1s).
  assert (n = n1) by (subst k0; unfold len in En; simpl in En; now inversion En).
  subst n.
  (* the slices keep the batch size *)
  assert (Hb1 : b1 = bs /\ b2 = bs).
  { destruct (slice1_inr _ _ _ _ Eq1) as (d0 & dd & rest & Hq & Ho1).
    destruct (slice1_inr _ _ _ _ Eq2) as (d0' & dd' & rest' & Hq' & Ho2).
    unfold bs, size. rewrite Hq in *. subst q1 q2.
    cbn [shape] in Hq1, Hq2. inversion Hq'. inversion Hq1. inversion Hq2.
    subst. auto. }
  destruct Hb1 as [-> ->].
  (* the first two selections *)
  destruct (topk_dim1_inr _ _ _ _ Et1) as (r1 & c1 & Hs1 & Hle1 & Hsc1 & Hix1).
  destruct (topk_dim1_inr _ _ _ _ Et2) as (r2 & c2 & Hs2 & Hle2 & Hsc2 & Hix2).
  rewrite HS1 in Hs1. simpl in Hs1. inversion Hs1; subst r1 c1. clear Hs1.
  rewrite HS2 in Hs2. simpl in Hs2. inversion Hs2; subst r2 c2. clear Hs2.
  pose proof (cartesian_pos _ _ _ _ _ _ Eas) as Hbs.
  (* rows of half scores *)
  assert (HR1 : rows S1 = chunks bs n1 (data S1)) by (apply rows_2d; now subst S1).
  assert (HR2 : rows S2 = chunks bs n1 (data S2)) by (apply rows_2d; now subst S2).
  assert (FR1 : forall r, In r (rows S1) -> length r = n1).
  { rewrite HR1. subst S1. cbn [data]. rewrite F_linear_rows. intros r Hr.
    apply in_map_iff in Hr. destruct Hr as (q & <- & _).
    now rewrite length_map, chunks_length. }
  assert (FR2 : forall r, In r (rows S2) -> length r = n1).
  { rewrite HR2. subst S2. cbn [data]. rewrite F_linear_rows. intros r Hr.
    apply in_map_iff in Hr. destruct Hr as (q & <- & _).
    now rewrite length_map, chunks_length. }
  assert (LR1 : length (rows S1) = bs) by (rewrite HR1; apply chunks_length).
  assert (LR2 : length (rows S2) = bs) by (rewrite HR2; apply chunks_length).
  rewrite <- HR1 in Hsc1, Hix1. rewrite <- HR2 in Hsc2, Hix2.
  set (P := combine (rows S1) (rows S2)) in *.
  assert (HP1 : rows S1 = map fst P) by (symmetry; apply map_fst_combine_eq; congruence).
  assert (HP2 : rows S2 = map snd P) by (symmetry; apply map_snd_combine_eq; congruence).
  assert (LP : length P = bs)
    by (unfold P; rewrite length_combine, LR1, LR2; apply Nat.min_id).
  assert (FP : forall p, In p P -> length (fst p) = n1 /\ length (snd p) = n1).
  { intros [x y] Hp. split; [apply FR1 | apply FR2].
    - eapply in_combine_l; exact Hp.
    - eapply in_combine_r; exact Hp. }
  assert (LK1 : forall p, In p P -> length (topk1 K (fst p)) = K).
  { intros p Hp. apply Htopk. destruct (FP p Hp) as [-> _]. exact Hle1. }
  assert (LK2 : forall p, In p P -> length (topk1 K (snd p)) = K).
  { intros p Hp. apply Htopk. destruct (FP p Hp) as [_ ->]. exact Hle1. }
  rewrite HP1 in Hsc1, Hix1. rewrite HP2 in Hsc2, Hix2.
  rewrite map_map in Hsc1, Hix1, Hsc2, Hix2.
  clear HR1 HR2 FR1 FR2 HP1 HP2.
  (* the candidates *)
  rewrite (cartesian_ok sadd bs K sc1 sc2) in Eas; try (subst; reflexivity); auto.
  2: { subst sc1. cbn [data]. rewrite (length_concat_map _ K), LP; auto.
       intros p Hp. rewrite length_map. auto. }
  2: { subst sc2. cbn [data]. rewrite (length_concat_map _ K), LP; auto.
       intros p Hp. rewrite length_map. auto. }
  rewrite (cartesian_ok (fun i j => i * n1 + j) bs K) in Eai;
    try (subst; reflexivity); auto.
  2: { subst ix1. cbn [data]. rewrite (length_concat_map _ K), LP; auto. }
  2: { subst ix2. cbn [data]. rewrite (length_concat_map _ K), LP; auto. }
  assert (Has : all_scores =
    Tensor [bs; K * K]
      (concat (map (fun p => pair_op sadd
                                (map (fun i => nth i (fst p) szero) (topk1 K (fst p)))
                                (map (fun i => nth i (snd p) szero) (topk1 K (snd p)))) P))).
  { inversion Eas as [Heq]. f_equal. subst sc1 sc2. cbn [data].
    rewrite <- LP at 1 2.
    rewrite !chunks_concat_map by (intros p Hp; rewrite length_map; auto).
    now rewrite combine_map_same, map_map. }
  assert (Hai : all_indices =
    Tensor [bs; K * K]
      (concat (map (fun p => pair_op (fun i j => i * n1 + j)
                                (topk1 K (fst p)) (topk1 K (snd p))) P))).
  { inversion Eai as [Heq]. f_equal. subst ix1 ix2. cbn [data].
    rewrite <- LP at 1 2.
    rewrite !chunks_concat_map by (intros p Hp; rewrite ?length_map; auto).
    now rewrite combine_map_same, map_map. }
  clear Eas Eai.
  (* the final selection *)
  destruct (topk_dim1_inr _ _ _ _ Et3) as (r3 & c3 & Hs3 & Hle3 & Hsc3 & Hbest).
  rewrite Has in Hs3. cbn [shape] in Hs3. inversion Hs3; subst r3 c3. clear Hs3.
  destruct (gather1_inr _ _ _ _ Eg) as (r & c & r' & c' & Hsa & Hsb & _ & _ & Hix).
  rewrite Hai in Hsa. cbn [shape] in Hsa. inversion Hsa; subst r c. clear Hsa.
  rewrite Hbest in Hsb. cbn [shape] in Hsb. inversion Hsb; subst r' c'. clear Hsb.
  assert (Hrows : chunks bs (K * K) (data all_scores) =
                  map (fun p => pair_op sadd
                                  (map (fun i => nth i (fst p) szero) (topk1 K (fst p)))
                                  (map (fun i => nth i (snd p) szero) (topk1 K (snd p)))) P).
  { rewrite Has. cbn [data]. rewrite <- LP at 1. apply chunks_concat_map.
    intros p Hp. rewrite pair_op_length, !length_map, LK1, LK2; auto. }
  rewrite Hrows, map_map in Hsc3, Hbest.
  assert (LB : forall p, In p P ->
             length (topk1 K (pair_op sadd
                                (map (fun i => nth i (fst p) szero) (topk1 K (fst p)))
                                (map (fun i => nth i (snd p) szero) (topk1 K (snd p))))) = K).
  { intros p Hp. apply Htopk.
    rewrite pair_op_length, !length_map, LK1, LK2 by auto.
    clearbody K. destruct K; nia. }
  exists S1, S2, n1.
  split; [exists k0, k1, q1, q2; auto 10 |].
  split; [unfold size; now rewrite Hsub |].
  repeat match goal with |- _ /\ _ => split end; auto.
  all: try (subst S1; reflexivity); try (subst S2; reflexivity).
  all: fold P.
  - subst scores. reflexivity.
  - subst indices. reflexivity.
  - subst scores. reflexivity.
  - subst indices. cbn [data]. f_equal.
    rewrite Hai, Hbest. cbn [data].
    rewrite <- LP at 1 2.
    rewrite !chunks_concat_map; auto.
    + rewrite combine_map_same, map_map. reflexivity.
    + intros p Hp. rewrite pair_op_length, LK1, LK2; auto.
Qed.

End SelectionProofs.

(** ** One query: the candidates and their selection *)

Section RowProofs.

Context {T G : Type} {S : Scalar T} {B : Backend T G}.

Lemma nth_map_lt {A C} (f : A -> C) (l : list A) (i : nat) (d : A) (e : C) :
  i < length l -> nth i (map f l) e = f (nth i l d).
Proof.
  intros H. rewrite (nth_indep _ e (f d)) by now rewrite length_map.
  apply map_nth.
Qed.

Lemma divmod_lt (K p : nat) : p < K * K -> p / K < K /\ p mod K < K /\ p = p / K * K + p mod K.
Proof.
  intros H. assert (K <> 0) by (intros ->; lia).
  repeat split.
  - apply Nat.Div0.div_lt_upper_bound; lia.
  - now apply Nat.mod_upper_bound.
  - rewrite (Nat.div_mod_eq p K) at 1. lia.
Qed.

(** The score and the combined index of candidate [p] of a query. *)
Lemma candidate_score (K : nat) (s1 s2 : list T) (i1 i2 : list nat) (p : nat) :
  length i1 = K -> length i2 = K -> p < K * K ->
  nth p (pair_op sadd (map (fun i => nth i s1 szero) i1)
                      (map (fun i => nth i s2 szero) i2)) szero =
  sadd (nth (nth (p / K) i1 0) s1 szero) (nth (nth (p mod K) i2 0) s2 szero).
Proof.
  intros L1 L2 Hp. destruct (divmod_lt K p Hp) as (Hd & Hm & Heq).
  rewrite Heq at 1.
  replace K with (length (map (fun i => nth i s2 szero) i2)) at 2
    by now rewrite length_map.
  rewrite pair_op_nth by (rewrite length_map; lia).
  rewrite (nth_map_lt _ i1 _ 0) by lia.
  rewrite (nth_map_lt _ i2 _ 0) by lia. reflexivity.
Qed.

Lemma candidate_index (K n : nat) (i1 i2 : list nat) (p : nat) :
  length i1 = K -> length i2 = K -> p < K * K ->
  nth p (pair_op (fun i j => i * n + j) i1 i2) 0 =
  nth (p / K) i1 0 * n + nth (p mod K) i2 0.
Proof.
  intros L1 L2 Hp. destruct (divmod_lt K p Hp) as (Hd & Hm & Heq).
  rewrite Heq at 1.
  replace K with (length i2) at 2 by assumption.
  now rewrite pair_op_nth by lia.
Qed.

Lemma NoDup_map_inj_in {A C} (f : A -> C) (l : list A) :
  (forall x y, In x l -> In y l -> f x = f y -> x = y) ->
  NoDup l -> NoDup (map f l).
Proof.
  intros Hinj Hnd. induction Hnd as [| x l Hx Hnd IH]; simpl; constructor.
  - intros Hin. apply in_map_iff in Hin. destruct Hin as (y & Hy & Hyl).
    apply Hx. rewrite (Hinj x y); simpl; auto.
  - apply IH. intros; apply Hinj; simpl; auto.
Qed.

Lemma index_decode (n a c : nat) :
  c < n -> (a * n + c) / n = a /\ (a * n + c) mod n = c.
Proof.
  intros H. split.
  - rewrite Nat.div_add_l by lia. rewrite Nat.div_small by lia. lia.
  - rewrite Nat.add_comm, Nat.Div0.mod_add. now apply Nat.mod_small.
Qed.

(** The pairing of two positions below [n] into one row number. *)
Lemma pairing_injective (n a c a' c' : nat) :
  c < n -> c' < n -> a * n + c = a' * n + c' -> a = a' /\ c = c'.
Proof.
  intros Hc Hc' H.
  destruct (index_decode n a c Hc) as [Hd Hm].
  destruct (index_decode n a' c' Hc') as [Hd' Hm'].
  rewrite H in Hd, Hm. split; congruence.
Qed.

End RowProofs.

(** ** The Product-Key Selector *)

Section SelectorClaims.

Context {T G : Type} {S : Scalar T} {B : Backend T G}.

Lemma nth_map_combine {A C D} (f : A * C -> list D) (la : list A) (lb : list C)
      (b : nat) (da : A) (dc : C) :
  b < length la -> length la = length lb ->
  nth b (map f (combine la lb)) [] = f (nth b la da, nth b lb dc).
Proof.
  intros Hb Hl.
  rewrite (nth_map_lt f _ _ (da, dc)) by (rewrite length_combine; lia).
  now rewrite combine_nth.
Qed.

(** Row [b] of the result of a successful call. *)
Lemma _get_indices_row (self : HashingMemory T) (query subkeys scores : tensor T)
      (indices : tensor nat) :
  topk_contract ->
  _get_indices self query subkeys = inr (scores, indices) ->
  exists S1 S2 n,
    half_scores self query subkeys S1 S2 n /\
    size subkeys 1 = n /\ 0 < size query 0 /\ knn self <= n /\
    shape scores = [size query 0; knn self] /\
    shape indices = [size query 0; knn self] /\
    length (data scores) = size query 0 * knn self /\
    length (data indices) = size query 0 * knn self /\
    forall b, b < size query 0 ->
      length (nth b (rows S1) []) = n /\ length (nth b (rows S2) []) = n /\
      nth b (rows scores) [] =
        fst (select_row (knn self) n (nth b (rows S1) []) (nth b (rows S2) [])) /\
      nth b (rows indices) [] =
        snd (select_row (knn self) n (nth b (rows S1) []) (nth b (rows S2) [])).
Proof.
  intros Htopk H.
  destruct (_get_indices_rows _ _ _ _ _ Htopk H)
    as (S1 & S2 & n & Hhalf & Hn & HS1 & HS2 & Hbs & Hle & Hsc & Hix & Dsc & Dix).
  exists S1, S2, n.
  set (bs := size query 0) in *. set (K := knn self) in *.
  assert (LR1 : length (rows S1) = bs)
    by (rewrite (rows_2d _ _ _ HS1); apply chunks_length).
  assert (LR2 : length (rows S2) = bs)
    by (rewrite (rows_2d _ _ _ HS2); apply chunks_length).
  assert (FR : forall b, b < bs ->
            length (nth b (rows S1) []) = n /\ length (nth b (rows S2) []) = n).
  { destruct Hhalf as (k0 & k1 & q1 & q2 & _ & _ & _ & _ & _ & E1 & E2).
    destruct (F_linear_inr _ _ _ E1) as (b1 & d1 & n1 & _ & _ & Q1).
    destruct (F_linear_inr _ _ _ E2) as (b2 & d2 & n2 & _ & _ & Q2).
    intros b Hb. rewrite (rows_2d _ _ _ HS1), (rows_2d _ _ _ HS2).
    rewrite Q1 in HS1 |- *. rewrite Q2 in HS2 |- *.
    cbn [shape data] in *.
    injection HS1 as -> ->. injection HS2 as -> ->.
    rewrite !F_linear_rows.
    rewrite !(nth_map_lt _ _ _ []) by (rewrite chunks_length; assumption).
    now rewrite !length_map, !chunks_length. }
  set (P := combine (rows S1) (rows S2)) in *.
  assert (LP : length P = bs)
    by (unfold P; rewrite length_combine, LR1, LR2; apply Nat.min_id).
  assert (FP : forall p, In p P -> length (fst p) = n /\ length (snd p) = n).
  { intros p Hp. destruct (In_nth _ _ ([], []) Hp) as (b & Hb & <-).
    unfold P. rewrite combine_nth by congruence. apply FR. congruence. }
  assert (LS : forall p, In p P ->
             length (fst (select_row K n (fst p) (snd p))) = K /\
             length (snd (select_row K n (fst p) (snd p))) = K).
  { intros p Hp. destruct (FP p Hp) as [L1 L2].
    unfold select_row. cbn [fst snd]. rewrite !length_map.
    assert (length (topk1 K (fst p)) = K) as E1 by (apply Htopk; lia).
    assert (length (topk1 K (snd p)) = K) as E2 by (apply Htopk; lia).
    split; apply Htopk; rewrite pair_op_length, !length_map, E1, E2;
      clearbody K; destruct K; nia. }
  repeat match goal with |- _ /\ _ => split end; auto.
  - rewrite Dsc, (length_concat_map _ K), LP; [reflexivity |].
    intros p Hp. now apply LS.
  - rewrite Dix, (length_concat_map _ K), LP; [reflexivity |].
    intros p Hp. now apply LS.
  - intros b Hb. destruct (FR b Hb) as [F1 F2].
    repeat match goal with |- _ /\ _ => split end; auto.
    + rewrite (rows_2d _ _ _ Hsc), Dsc. rewrite <- LP at 1.
      rewrite chunks_concat_map by (intros p Hp; now apply LS).
      unfold P. now rewrite (nth_map_combine _ _ _ _ [] []) by congruence.
    + rewrite (rows_2d _ _ _ Hix), Dix. rewrite <- LP at 1.
      rewrite chunks_concat_map by (intros p Hp; now apply LS).
      unfold P. now rewrite (nth_map_combine _ _ _ _ [] []) by congruence.
Qed.

(** What the contract of [topk] gives for one query. *)
Lemma select_row_spec (K n : nat) (s1 s2 : list T) :
  topk_contract -> K <= length s1 -> K <= length s2 ->
  let i1 := topk1 K s1 in
  let i2 := topk1 K s2 in
  let all := pair_op sadd (map (fun i => nth i s1 szero) i1)
                          (map (fun i => nth i s2 szero) i2) in
  let best := topk1 K all in
  topk_spec K s1 i1 /\ topk_spec K s2 i2 /\
  length all = K * K /\ topk_spec K all best /\
  fst (select_row K n s1 s2) = map (fun p => cand_score K s1 s2 p) best /\
  snd (select_row K n s1 s2) = map (fun p => cand_index K n s1 s2 p) best /\
  (forall p, p < K * K -> nth p all szero = cand_score K s1 s2 p).
Proof.
  intros Htopk H1 H2 i1 i2 all best.
  pose proof (Htopk K s1 H1) as T1. pose proof (Htopk K s2 H2) as T2.
  fold i1 in T1. fold i2 in T2.
  assert (L1 : length i1 = K) by apply T1.
  assert (L2 : length i2 = K) by apply T2.
  assert (La : length all = K * K)
    by (unfold all; now rewrite pair_op_length, !length_map, L1, L2).
  assert (Tb : topk_spec K all best)
    by (apply Htopk; rewrite La; destruct K; nia).
  assert (Hc : forall p, p < K * K -> nth p all szero = cand_score K s1 s2 p)
    by (intros p Hp; now apply candidate_score).
  repeat match goal with |- _ /\ _ => split end; auto.
  - unfold select_row. cbn [fst]. apply map_ext_in. intros p Hp.
    apply Hc. rewrite <- La. now apply Tb.
  - unfold select_row. cbn [snd]. apply map_ext_in. intros p Hp.
    apply candidate_index; auto. rewrite <- La. now apply Tb.
Qed.

(** C1.  For every head (every call of [_get_indices]) and every query of
    the batch, the returned scores are sorted in decreasing order and are
    the exact top-knn of the knn * knn sums [scores1[i] + scores2[j]] taken
    over the top-knn candidates of each half: they are the sums of [knn]
    distinct candidates, every candidate left out scores no more than any
    returned one, and the returned index at each position is
    [indices1[i] * n_keys + indices2[j]] for the pair (i, j) that produced
    the score at that position. *)
Theorem selector_returns_exact_topk_of_candidates
        (self : HashingMemory T) (query subkeys scores : tensor T)
        (indices : tensor nat) :
  topk_contract ->
  _get_indices self query subkeys = inr (scores, indices) ->
  exists S1 S2 n,
    half_scores self query subkeys S1 S2 n /\
    forall b, b < size query 0 ->
      let K := knn self in
      let s1 := nth b (rows S1) [] in
      let s2 := nth b (rows S2) [] in
      let sc := nth b (rows scores) [] in
      let ix := nth b (rows indices) [] in
      topk_spec K s1 (topk1 K s1) /\ topk_spec K s2 (topk1 K s2) /\
      length sc = K /\ length ix = K /\ sorted_desc sc /\
      exists best,
        length best = K /\ NoDup best /\ (forall p, In p best -> p < K * K) /\
        (forall t, t < K ->
           nth t sc szero = cand_score K s1 s2 (nth t best 0) /\
           nth t ix 0 = cand_index K n s1 s2 (nth t best 0)) /\
        (forall p t, p < K * K -> ~ In p best -> t < K ->
           sleb (cand_score K s1 s2 p) (nth t sc szero) = true).
Proof.
  intros Htopk H.
  destruct (_get_indices_row _ _ _ _ _ Htopk H)
    as (S1 & S2 & n & Hhalf & _ & _ & Hle & _ & _ & _ & _ & Hrow).
  exists S1, S2, n. split; [exact Hhalf |].
  intros b Hb K s1 s2 sc ix.
  destruct (Hrow b Hb) as (L1 & L2 & Esc & Eix). fold s1 s2 sc ix K in L1, L2, Esc, Eix.
  fold K in Hle.
  destruct (select_row_spec K n s1 s2 Htopk) as (T1 & T2 & La & Tb & Fs & Fi & Hc);
    try lia.
  set (all := pair_op sadd (map (fun i => nth i s1 szero) (topk1 K s1))
                           (map (fun i => nth i s2 szero) (topk1 K s2))) in *.
  set (best := topk1 K all) in *.
  destruct Tb as (Lb & Nb & Rb & Sb & Db).
  rewrite Fs in Esc. rewrite Fi in Eix.
  assert (Esc' : sc = map (fun p => nth p all szero) best).
  { rewrite Esc. apply map_ext_in. intros p Hp. symmetry. apply Hc.
    rewrite <- La. now apply Rb. }
  repeat match goal with |- _ /\ _ => split end; auto.
  - rewrite Esc. now rewrite length_map.
  - rewrite Eix. now rewrite length_map.
  - rewrite Esc'. exact Sb.
  - exists best. split; [exact Lb |]. split; [exact Nb |].
    split; [intros p Hp; rewrite <- La; now apply Rb |].
    split.
    + intros t Ht. split.
      * rewrite Esc. apply (nth_map_lt _ best t 0 szero). lia.
      * rewrite Eix. apply (nth_map_lt _ best t 0 0). lia.
    + intros p t Hp Hn Ht. rewrite <- (Hc p Hp). rewrite Esc'.
      rewrite (nth_map_lt _ best t 0 szero) by lia.
      apply Db; [lia | exact Hn | apply nth_In; lia].
Qed.

(** Facts about one returned position, shared by the claims below. *)
Lemma selected_position (K n : nat) (s1 s2 : list T) (p : nat) :
  topk_contract -> K <= length s1 -> K <= length s2 -> length s2 = n ->
  length s1 = n -> p < K * K ->
  let x := cand_index K n s1 s2 p in
  In (x / n) (topk1 K s1) /\ In (x mod n) (topk1 K s2) /\
  x / n = nth (p / K) (topk1 K s1) 0 /\ x mod n = nth (p mod K) (topk1 K s2) 0 /\
  x / n < n /\ x mod n < n /\ x < n ^ 2.
Proof.
  intros Htopk H1 H2 L2 L1 Hp x.
  destruct (Htopk K s1 H1) as (E1 & _ & R1 & _).
  destruct (Htopk K s2 H2) as (E2 & _ & R2 & _).
  destruct (divmod_lt K p Hp) as (Hd & Hm & _).
  assert (I1 : In (nth (p / K) (topk1 K s1) 0) (topk1 K s1)) by (apply nth_In; lia).
  assert (I2 : In (nth (p mod K) (topk1 K s2) 0) (topk1 K s2)) by (apply nth_In; lia).
  pose proof (R1 _ I1) as B1. pose proof (R2 _ I2) as B2.
  rewrite L1 in B1. rewrite L2 in B2.
  destruct (index_decode n (nth (p / K) (topk1 K s1) 0) _ B2) as [Dd Dm].
  fold (cand_index K n s1 s2 p) in Dd, Dm.
  fold x in Dd, Dm. rewrite Dd, Dm.
  repeat match goal with |- _ /\ _ => split end; auto.
  unfold x, cand_index. rewrite Nat.pow_2_r. nia.
Qed.

(** Every index that a successful call returns is below [n_keys ** 2]. *)
Lemma _get_indices_in_range (self : HashingMemory T) (query subkeys scores : tensor T)
      (indices : tensor nat) :
  topk_contract ->
  _get_indices self query subkeys = inr (scores, indices) ->
  Forall (fun x => x < size subkeys 1 ^ 2) (data indices).
Proof.
  intros Htopk H.
  destruct (_get_indices_row _ _ _ _ _ Htopk H)
    as (S1 & S2 & n & _ & Hn & _ & Hle & _ & Hix & _ & Lix & Hrow).
  rewrite Hn.
  rewrite <- (concat_chunks (size query 0) (knn self) (data indices) Lix).
  rewrite <- (rows_2d _ _ _ Hix).
  apply Forall_concat. apply Forall_forall. intros r Hr.
  destruct (In_nth _ _ [] Hr) as (b & Hb & <-).
  rewrite (rows_2d _ _ _ Hix), chunks_length in Hb.
  destruct (Hrow b Hb) as (L1 & L2 & _ & ->).
  destruct (select_row_spec (knn self) n (nth b (rows S1) []) (nth b (rows S2) []) Htopk)
    as (_ & _ & La & Tb & _ & -> & _); try lia.
  apply Forall_forall. intros x Hx. apply in_map_iff in Hx.
  destruct Hx as (p & <- & Hp).
  apply selected_position; auto; try lia.
  rewrite <- La. now apply Tb.
Qed.

(** C5.  For every query, every returned index is a number below
    [n_keys ** 2]; its quotient and remainder by [n_keys] are positions of
    the first and of the second half key set, both among the candidates of
    their half, and the score returned with it is the sum of the two half
    scores at these positions: the index names the row of the value table
    that belongs to the key pair (index // n_keys, index % n_keys). *)
Theorem selected_index_names_value_row
        (self : HashingMemory T) (query subkeys scores : tensor T)
        (indices : tensor nat) :
  topk_contract ->
  _get_indices self query subkeys = inr (scores, indices) ->
  exists S1 S2 n,
    half_scores self query subkeys S1 S2 n /\
    Forall (fun x => x < n ^ 2) (data indices) /\
    forall b t, b < size query 0 -> t < knn self ->
      let s1 := nth b (rows S1) [] in
      let s2 := nth b (rows S2) [] in
      let x := nth t (nth b (rows indices) []) 0 in
      x < n ^ 2 /\ x / n < n /\ x mod n < n /\
      In (x / n) (topk1 (knn self) s1) /\ In (x mod n) (topk1 (knn self) s2) /\
      nth t (nth b (rows scores) []) szero =
        sadd (nth (x / n) s1 szero) (nth (x mod n) s2 szero).
Proof.
  intros Htopk H.
  pose proof (_get_indices_in_range _ _ _ _ _ Htopk H) as Hall.
  destruct (_get_indices_row _ _ _ _ _ Htopk H)
    as (S1 & S2 & n & Hhalf & Hn & _ & Hle & _ & _ & _ & _ & Hrow).
  rewrite Hn in Hall.
  exists S1, S2, n. split; [exact Hhalf |]. split; [exact Hall |].
  intros b t Hb Ht s1 s2 x.
  destruct (Hrow b Hb) as (L1 & L2 & Esc & Eix). fold s1 s2 in L1, L2, Esc, Eix.
  destruct (select_row_spec (knn self) n s1 s2 Htopk) as (_ & _ & La & Tb & Fs & Fi & _);
    try lia.
  set (best := topk1 (knn self) (pair_op _ _ _)) in *.
  destruct Tb as (Lb & _ & Rb & _).
  assert (Hp : nth t best 0 < knn self * knn self)
    by (rewrite <- La; apply Rb; apply nth_In; lia).
  assert (Ex : x = cand_index (knn self) n s1 s2 (nth t best 0)).
  { unfold x. rewrite Eix, Fi. apply (nth_map_lt _ best t 0 0). lia. }
  destruct (selected_position (knn self) n s1 s2 (nth t best 0) Htopk)
    as (I1 & I2 & D1 & D2 & B1 & B2 & Bx); auto; try lia.
  rewrite <- Ex in I1, I2, D1, D2, B1, B2, Bx.
  repeat match goal with |- _ /\ _ => split end; auto.
  rewrite Esc, Fs, (nth_map_lt _ best t 0 szero) by lia.
  unfold cand_score. now rewrite D1, D2.
Qed.

(** C10.  For every query of a call (one head), the [knn] returned indices
    are pairwise distinct: the candidate positions of each half are
    distinct, and the pairing of two positions below [n_keys] into
    [i1 * n_keys + i2] is injective. *)
Theorem selected_indices_distinct
        (self : HashingMemory T) (query subkeys scores : tensor T)
        (indices : tensor nat) :
  topk_contract ->
  _get_indices self query subkeys = inr (scores, indices) ->
  exists S1 S2 n,
    half_scores self query subkeys S1 S2 n /\
    (forall i1 i2 j1 j2, i2 < n -> j2 < n ->
       i1 * n + i2 = j1 * n + j2 -> i1 = j1 /\ i2 = j2) /\
    forall b, b < size query 0 ->
      NoDup (topk1 (knn self) (nth b (rows S1) [])) /\
      NoDup (topk1 (knn self) (nth b (rows S2) [])) /\
      length (nth b (rows indices) []) = knn self /\
      NoDup (nth b (rows indices) []).
Proof.
  intros Htopk H.
  destruct (_get_indices_row _ _ _ _ _ Htopk H)
    as (S1 & S2 & n & Hhalf & Hn & _ & Hle & _ & _ & _ & _ & Hrow).
  exists S1, S2, n. split; [exact Hhalf |].
  split; [intros; now apply (pairing_injective n) |].
  intros b Hb.
  destruct (Hrow b Hb) as (L1 & L2 & _ & Eix).
  set (s1 := nth b (rows S1) []) in *. set (s2 := nth b (rows S2) []) in *.
  set (K := knn self) in *.
  destruct (select_row_spec K n s1 s2 Htopk) as (T1 & T2 & La & Tb & _ & Fi & _);
    try lia.
  set (best := topk1 K (pair_op _ _ _)) in *.
  destruct Tb as (Lb & Nb & Rb & _).
  destruct T1 as (E1 & N1 & R1 & _). destruct T2 as (E2 & N2 & R2 & _).
  rewrite Eix, Fi.
  split; [exact N1 |]. split; [exact N2 |]. split; [now rewrite length_map |].
  apply NoDup_map_inj_in; [| exact Nb].
  intros p q Hp Hq Heq.
  assert (Bp : p < K * K) by (rewrite <- La; now apply Rb).
  assert (Bq : q < K * K) by (rewrite <- La; now apply Rb).
  destruct (divmod_lt K p Bp) as (Pd & Pm & Pe).
  destruct (divmod_lt K q Bq) as (Qd & Qm & Qe).
  unfold cand_index in Heq.
  apply pairing_injective in Heq.
  - destruct Heq as [H1 H2].
    apply (proj1 (NoDup_nth _ 0) N1) in H1; try lia.
    apply (proj1 (NoDup_nth _ 0) N2) in H2; try lia.
  - rewrite <- L2. apply R2. apply nth_In. lia.
  - rewrite <- L2. apply R2. apply nth_In. lia.
Qed.

End SelectorClaims.

(** ** The executable [topk] meets the contract *)

Section TopkStable.

Context {A : Type} (leb : A -> A -> bool).
Hypothesis leb_total : forall x y, leb x y = true \/ leb y x = true.
Hypothesis leb_trans : forall x y z, leb x y = true -> leb y z = true -> leb x z = true.

Let ge (p q : A * nat) : Prop := leb (fst q) (fst p) = true.

Lemma insert_desc_perm (p : A * nat) (l : list (A * nat)) :
  Permutation (insert_desc leb p l) (p :: l).
Proof.
  induction l as [| q l IH]; simpl; [reflexivity |].
  destruct (leb (fst q) (fst p)); [reflexivity |].
  rewrite IH. apply perm_swap.
Qed.

Lemma sort_desc_perm (l : list (A * nat)) : Permutation (sort_desc leb l) l.
Proof.
  induction l as [| p l IH]; simpl; [reflexivity |].
  rewrite insert_desc_perm. now constructor.
Qed.

Lemma insert_desc_sorted (p : A * nat) (l : list (A * nat)) :
  StronglySorted ge l -> StronglySorted ge (insert_desc leb p l).
Proof.
  induction 1 as [| q l Hs IH Hq]; simpl.
  - repeat constructor.
  - destruct (leb (fst q) (fst p)) eqn:E.
    + constructor; [now constructor |].
      constructor; [exact E |].
      rewrite Forall_forall in Hq |- *. intros r Hr. unfold ge in *.
      eapply leb_trans; [apply Hq; exact Hr | exact E].
    + constructor; [exact IH |].
      rewrite Forall_forall in Hq |- *. intros r Hr.
      apply (Permutation_in _ (insert_desc_perm p l)) in Hr.
      destruct Hr as [<- | Hr]; [| now apply Hq].
      unfold ge. destruct (leb_total (fst p) (fst q)) as [H | H]; congruence.
Qed.

Lemma sort_desc_sorted (l : list (A * nat)) : StronglySorted ge (sort_desc leb l).
Proof.
  induction l as [| p l IH]; simpl; [constructor | now apply insert_desc_sorted].
Qed.

Lemma StronglySorted_nth {X} (R : X -> X -> Prop) (l : list X) (d : X) :
  StronglySorted R l ->
  forall i j, i < j -> j < length l -> R (nth i l d) (nth j l d).
Proof.
  induction 1 as [| x l Hs IH Hx]; intros i j Hij Hj; simpl in *; [lia |].
  destruct j as [| j]; [lia |]. destruct i as [| i].
  - rewrite Forall_forall in Hx. apply Hx. apply nth_In. lia.
  - apply IH; lia.
Qed.

Lemma NoDup_firstn {X} (k : nat) (l : list X) : NoDup l -> NoDup (firstn k l).
Proof.
  intros H. revert k. induction H as [| x l Hx Hn IH]; intros [| k]; simpl;
    try constructor; auto.
  intros Hin. apply Hx. rewrite <- (firstn_skipn k l). apply in_or_app. now left.
Qed.

Lemma combine_seq_fst (xs : list A) (d : A) (s : nat) (p : A * nat) :
  In p (combine xs (seq s (length xs))) ->
  s <= snd p < s + length xs /\ fst p = nth (snd p - s) xs d.
Proof.
  revert s. induction xs as [| x xs IH]; intros s H; simpl in *; [contradiction |].
  destruct H as [<- | H]; simpl.
  - rewrite Nat.sub_diag. split; [lia | reflexivity].
  - destruct (IH _ H) as [Hr Hf]. split; [lia |].
    rewrite Hf. replace (snd p - s) with (Datatypes.S (snd p - Datatypes.S s)) by lia.
    reflexivity.
Qed.

Lemma map_snd_combine_seq (xs : list A) (s : nat) :
  map snd (combine xs (seq s (length xs))) = seq s (length xs).
Proof.
  revert s. induction xs as [| x xs IH]; intros s; simpl; [reflexivity |].
  now rewrite IH.
Qed.

(** The positions chosen by [topk_stable], with their values. *)
Lemma topk_stable_facts (d : A) (k : nat) (xs : list A) :
  k <= length xs ->
  let idxs := topk_stable leb k xs in
  length idxs = k /\ NoDup idxs /\
  (forall i, In i idxs -> i < length xs) /\
  (forall i j, i < j -> j < k ->
     leb (nth (nth j idxs 0) xs d) (nth (nth i idxs 0) xs d) = true) /\
  (forall j i, j < length xs -> ~ In j idxs -> In i idxs ->
     leb (nth j xs d) (nth i xs d) = true).
Proof.
  intros Hk idxs. unfold topk_stable in idxs.
  set (L := combine xs (seq 0 (length xs))) in *.
  set (sorted := sort_desc leb L) in *.
  pose proof (sort_desc_perm L) as Hperm. fold sorted in Hperm.
  pose proof (sort_desc_sorted L) as Hsorted. fold sorted in Hsorted.
  assert (Hlen : length sorted = length xs).
  { rewrite (Permutation_length Hperm). unfold L.
    rewrite length_combine, length_seq. apply Nat.min_id. }
  assert (Hpair : forall p, In p sorted ->
            snd p < length xs /\ fst p = nth (snd p) xs d).
  { intros p Hp. apply (Permutation_in _ Hperm) in Hp.
    destruct (combine_seq_fst xs d 0 p Hp) as [Hr Hf].
    rewrite Nat.sub_0_r in Hf. split; [lia | exact Hf]. }
  assert (Hsnd : Permutation (map snd sorted) (seq 0 (length xs))).
  { rewrite <- (map_snd_combine_seq xs 0). now apply Permutation_map. }
  assert (Hnd : NoDup (map snd sorted)).
  { apply (Permutation_NoDup (Permutation_sym Hsnd)). apply seq_NoDup. }
  assert (Hval : forall q, q < length xs ->
            nth (nth q (map snd sorted) 0) xs d = fst (nth q sorted (d, 0))).
  { intros q Hq.
    assert (Hin : In (nth q sorted (d, 0)) sorted) by (apply nth_In; lia).
    destruct (Hpair _ Hin) as [_ Hf].
    rewrite Hf. f_equal. change 0 with (snd (d, 0)). apply map_nth. }
  assert (Hidx : forall q, q < k -> nth q idxs 0 = nth q (map snd sorted) 0).
  { intros q Hq. unfold idxs. now rewrite nth_firstn, (proj2 (Nat.ltb_lt q k) Hq). }
  repeat match goal with |- _ /\ _ => split end.
  - unfold idxs. rewrite length_firstn, length_map. lia.
  - now apply NoDup_firstn.
  - intros i Hi. unfold idxs in Hi.
    assert (Hin : In i (map snd sorted)).
    { rewrite <- (firstn_skipn k (map snd sorted)). apply in_or_app. now left. }
    apply (Permutation_in _ Hsnd) in Hin. apply in_seq in Hin. lia.
  - intros i j Hij Hj. rewrite !Hidx by lia. rewrite !Hval by lia.
    apply (StronglySorted_nth ge sorted (d, 0) Hsorted i j); lia.
  - intros j i Hj Hnot Hi.
    assert (Hjin : In j (map snd sorted)).
    { apply (Permutation_in _ (Permutation_sym Hsnd)). apply in_seq. lia. }
    destruct (In_nth _ _ 0 Hjin) as (q & Hq & Eq).
    rewrite length_map, Hlen in Hq.
    assert (Hqk : k <= q).
    { destruct (Nat.lt_ge_cases q k) as [Hlt | Hge]; [| exact Hge].
      exfalso. apply Hnot. rewrite <- Eq, <- (Hidx q Hlt).
      apply nth_In. unfold idxs. rewrite length_firstn, length_map. lia. }
    destruct (In_nth _ _ 0 Hi) as (p & Hp & Ep).
    unfold idxs in Hp. rewrite length_firstn, length_map in Hp.
    assert (Hpk : p < k) by lia.
    rewrite <- Ep, <- Eq, (Hidx p Hpk), !Hval by lia.
    apply (StronglySorted_nth ge sorted (d, 0) Hsorted p q); lia.
Qed.

End TopkStable.

(** ** Dropout outside training *)

Section DropoutClaims.

Context {T G : Type} {S : Scalar T} {B : Backend T G}.

Lemma F_dropout_eval (x : tensor T) (p : Q) :
  valid_rate p -> F_dropout x p false = retM x.
Proof.
  intros [H0 H1]. unfold F_dropout.
  rewrite (proj2 (Qle_bool_iff 0 p) H0), (proj2 (Qle_bool_iff p 1) H1).
  reflexivity.
Qed.

Lemma bindM_ext {A C} (c : M G A) (k1 k2 : A -> M G C) (g : G) :
  (forall a g', k1 a g' = k2 a g') -> bindM c k1 g = bindM c k2 g.
Proof.
  intros H. unfold bindM. destruct (c g) as [e | [a g']]; [reflexivity | apply H].
Qed.

Lemma bindM_cong {A C} (c1 c2 : M G A) (k1 k2 : A -> M G C) (g : G) :
  c1 g = c2 g -> (forall a g', k1 a g' = k2 a g') ->
  bindM c1 k1 g = bindM c2 k2 g.
Proof.
  intros Hc H. unfold bindM. rewrite Hc.
  destruct (c2 g) as [e | [a g']]; [reflexivity | apply H].
Qed.

(** C9.  In evaluation mode, whatever the three dropout probabilities are,
    [forward] computes what it computes when all three are 0: every
    dropout stage is the identity.  The equality covers the exception
    raised, if any, and the state of the random generator. *)
Theorem eval_mode_ignores_dropout_rates
        (m : HashingMemory T) (pi pq pv : Q) (input : tensor T) (g : G) :
  valid_rate pi -> valid_rate pq -> valid_rate pv ->
  forward (eval (with_dropout m pi pq pv)) input g =
  forward (eval (with_dropout m 0 0 0)) input g.
Proof.
  intros Hi Hq Hv.
  assert (H0 : valid_rate 0) by (split; [apply Qle_refl | discriminate]).
  assert (Hsel : forward_select (eval (with_dropout m pi pq pv)) input g =
                 forward_select (eval (with_dropout m 0 0 0)) input g).
  { unfold forward_select.
    cbn [eval with_dropout input_dropout query_dropout value_dropout training
         input_dim heads k_dim knn v_dim values query_proj].
    repeat (rewrite ?(F_dropout_eval _ _ Hi), ?(F_dropout_eval _ _ Hq),
              ?(F_dropout_eval _ _ H0);
            first [ reflexivity | apply bindM_ext; intros ? ? ]). }
  unfold forward. apply bindM_cong; [exact Hsel |].
  intros [[[prefix_shape bs] indices] scores] g'.
  cbn [eval with_dropout value_dropout training v_dim values].
  apply bindM_ext. intros output g''.
  now rewrite (F_dropout_eval _ _ Hv), (F_dropout_eval _ _ H0).
Qed.

End DropoutClaims.

(** ** The Uniform Key Generator and the Key Store *)

Section KeyClaims.

Context {T G : Type} {S : Scalar T} {B : Backend T G}.

Lemma get_uniform_keys_ok (count dim : nat) (seed : N) :
  1 <= dim -> (seed < 2 ^ 32)%N ->
  get_uniform_keys count dim seed =
  inr (Tensor [count; dim]
         (map sf32 (RandomState_uniform seed (sneg (key_bound dim)) (key_bound dim)
                      (count * dim)))).
Proof.
  intros Hd Hs. unfold get_uniform_keys.
  rewrite (proj2 (N.ltb_lt _ _) Hs).
  destruct (Nat.eqb_spec dim 0) as [-> | _]; [lia | reflexivity].
Qed.

Lemma get_uniform_keys_inr (count dim : nat) (seed : N) (t : tensor T) :
  get_uniform_keys count dim seed = inr t ->
  1 <= dim /\ (seed < 2 ^ 32)%N /\
  t = Tensor [count; dim]
        (map sf32 (RandomState_uniform seed (sneg (key_bound dim)) (key_bound dim)
                     (count * dim))).
Proof.
  unfold get_uniform_keys. intros H.
  destruct (N.ltb_spec seed (2 ^ 32)) as [Hs | Hs]; [| discriminate].
  destruct (Nat.eqb_spec dim 0) as [-> | Hd]; [discriminate |].
  inversion H. repeat split; auto. lia.
Qed.


(** The (head, half) pairs in the order of the comprehension. *)
Lemma pairs_nth (hd s h j : nat) :
  h < hd -> j < 2 ->
  nth (2 * h + j)
      (flat_map (fun i => map (fun j => (i, j)) (seq 0 2)) (seq s hd)) (0, 0) =
  (s + h, j).
Proof.
  revert s h. induction hd as [| hd IH]; intros s h Hh Hj; [lia |].
  cbn [seq flat_map map]. destruct h as [| h].
  - rewrite Nat.add_0_r. destruct j as [| [| j]]; [reflexivity | reflexivity | lia].
  - replace (2 * Datatypes.S h + j) with (Datatypes.S (Datatypes.S (2 * h + j))) by lia.
    cbn [app nth]. rewrite IH by lia. f_equal. lia.
Qed.

Lemma pairs_length (hd s : nat) :
  length (flat_map (fun i => map (fun j => (i, j)) (seq 0 2)) (seq s hd)) = hd * 2.
Proof.
  revert s. induction hd as [| hd IH]; intros s; [reflexivity |].
  cbn [seq flat_map map app length]. rewrite IH. lia.
Qed.

Lemma Forall2_nth {X Y} (R : X -> Y -> Prop) (l : list X) (l' : list Y) (dx : X) (dy : Y) :
  Forall2 R l l' ->
  length l = length l' /\ forall i, i < length l -> R (nth i l dx) (nth i l' dy).
Proof.
  induction 1 as [| x y l l' Hxy _ [IHl IHn]]; simpl; split; auto; try lia.
  intros [| i] Hi; [assumption | apply IHn; lia].
Qed.

(** A successful [initialize_keys]: block (h, j) of the key tensor is the
    array that [get_uniform_keys] returns for seed [2 * h + j]. *)
Lemma initialize_keys_inr (kd nk hd : nat) (ks : tensor T) :
  uniform_contract ->
  initialize_keys kd nk hd = inr ks ->
  shape ks = [hd; 2; nk; kd / 2] /\
  forall h j, h < hd -> j < 2 ->
    exists kh khj,
      select0 ks h = inr kh /\ select0 kh j = inr khj /\
      get_uniform_keys nk (kd / 2) (N.of_nat (2 * h + j)) = inr khj /\
      shape khj = [nk; kd / 2].
Proof.
  intros Hu H. unfold initialize_keys in H.
  set (half := kd / 2) in *.
  inv_bind H. rename a into arrs.
  change [Some hd; Some 2; Some nk; Some half]
    with (map Some [hd; 2; nk; half]) in H.
  rewrite view_known in H.
  destruct (numel (shape (np_array arrs)) =? numel [hd; 2; nk; half]); [| discriminate].
  unfold ok in H. injection H as <-. cbn [shape]. split; [reflexivity |].
  intros h j Hh Hj.
  set (m := nk * half).
  apply mapM_inr in E.
  destruct (Forall2_nth _ _ _ (0, 0) (Tensor [] []) E) as [Hlen Hnth].
  rewrite pairs_length in Hlen.
  assert (Hi : 2 * h + j < hd * 2) by lia.
  specialize (Hnth (2 * h + j)). rewrite pairs_length, pairs_nth in Hnth by assumption.
  specialize (Hnth Hi). cbn [fst snd] in Hnth. rewrite Nat.add_0_l in Hnth.
  assert (Harr : forall a, In a arrs -> length (data a) = m).
  { intros a Ha. destruct (In_nth _ _ (Tensor [] []) Ha) as (i & Hi' & <-).
    destruct (Forall2_nth _ _ _ (0, 0) (Tensor [] []) E) as [_ Hn].
    specialize (Hn i). rewrite pairs_length in Hn. specialize (Hn ltac:(lia)).
    apply get_uniform_keys_inr in Hn. destruct Hn as (_ & _ & ->).
    cbn [data]. rewrite length_map. apply Hu. }
  assert (Hdata : data (np_array arrs) = concat (map (@data T) arrs))
    by (destruct arrs; reflexivity).
  assert (Hblock : firstn m (skipn (j * m)
                     (firstn (2 * m) (skipn (h * (2 * m)) (data (np_array arrs))))) =
                   data (nth (2 * h + j) arrs (Tensor [] []))).
  { rewrite <- (chunks_nth hd (2 * m) h) by assumption.
    rewrite chunks_chunks_nth; try assumption.
    - rewrite Hdata. rewrite Hlen, <- (length_map (@data T) arrs).
      rewrite chunks_concat by (apply Forall_map_length; exact Harr).
      replace (h * 2 + j) with (2 * h + j) by lia.
      change (@nil T) with (data (Tensor (A := T) [] [])). apply map_nth.
    - rewrite Hdata, (length_concat_map _ m) by exact Harr. lia. }
  destruct (get_uniform_keys_inr _ _ _ _ Hnth) as (_ & _ & Hshape).
  exists (Tensor [2; nk; half]
            (firstn (2 * m) (skipn (h * (2 * m)) (data (np_array arrs))))),
         (nth (2 * h + j) arrs (Tensor [] [])).
  repeat match goal with |- _ /\ _ => split end.
  - unfold select0. cbn [shape data]. rewrite (proj2 (Nat.ltb_lt _ _) Hh).
    replace (numel [2; nk; half]) with (2 * m) by (unfold m; simpl; lia).
    reflexivity.
  - unfold select0. cbn [shape data]. rewrite (proj2 (Nat.ltb_lt _ _) Hj).
    replace (numel [nk; half]) with m by (unfold m; simpl; lia).
    rewrite Hblock, Hshape. reflexivity.
  - exact Hnth.
  - now rewrite Hshape.
Qed.

Lemma initialize_keys_ok (kd nk hd : nat) :
  2 <= kd -> (N.of_nat (2 * hd) <= 2 ^ 32)%N ->
  exists ks, initialize_keys kd nk hd = inr ks.
Proof.
  intros Hk Hs. unfold initialize_keys.
  assert (Hhalf : 1 <= kd / 2) by (apply Nat.div_le_lower_bound; lia).
  set (half := kd / 2) in *.
  set (pairs := flat_map (fun i => map (fun j => (i, j)) (seq 0 2)) (seq 0 hd)).
  set (f := fun ij : nat * nat =>
              Tensor [nk; half]
                (map sf32 (RandomState_uniform (N.of_nat (2 * fst ij + snd ij))
                             (sneg (key_bound half)) (key_bound half) (nk * half)))).
  rewrite (mapM_ok _ f).
  - rewrite bind_ok.
    change [Some hd; Some 2; Some nk; Some half] with (map Some [hd; 2; nk; half]).
    rewrite view_known.
    assert (Hn : numel (shape (np_array (map f pairs))) = numel [hd; 2; nk; half]).
    { assert (Hl : length (map f pairs) = hd * 2)
        by (rewrite length_map; apply pairs_length).
      assert (Hsh : forall a, In a (map f pairs) -> shape a = [nk; half]).
      { intros a Ha. apply in_map_iff in Ha. destruct Ha as (ij & <- & _). reflexivity. }
      destruct (map f pairs) as [| a l].
      - simpl in Hl. assert (hd = 0) by lia. subst hd. reflexivity.
      - cbn [np_array shape]. rewrite (Hsh a (or_introl eq_refl)), Hl.
        cbn [numel fold_right]. lia. }
    rewrite Hn, Nat.eqb_refl. eauto.
  - intros [i j] Hin. cbn [fst snd]. apply get_uniform_keys_ok; [assumption |].
    unfold pairs in Hin. apply in_flat_map in Hin. destruct Hin as (i' & Hi' & Hin).
    apply in_map_iff in Hin. destruct Hin as (j' & Heq & Hj'). inversion Heq; subst.
    apply in_seq in Hi'. apply in_seq in Hj'. lia.
Qed.

(** C6.  Construction with [k_dim >= 2] even, a positive output dimension
    and seeds in range succeeds; and whenever construction succeeds, the
    key tensor has shape (heads, 2, n_keys, k_dim // 2) and, for each head
    [h] and half [j], its block (h, j) is the array of [n_keys] vectors of
    dimension [k_dim // 2] that the Uniform Key Generator returns for
    seed [2 * h + j]. *)
Theorem keys_come_from_uniform_generator
        (i_dim o_dim : nat) (params : AttrDict) (g : G) :
  uniform_contract ->
  (2 <= p_k_dim params -> p_k_dim params mod 2 = 0 -> 1 <= o_dim ->
   (N.of_nat (2 * p_heads params) <= 2 ^ 32)%N ->
   exists m g', __init__ i_dim o_dim params g = inr (m, g')) /\
  (forall m g', __init__ i_dim o_dim params g = inr (m, g') ->
     heads m = p_heads params /\ n_keys m = p_n_keys params /\
     k_dim m = p_k_dim params /\
     shape (keys m) = [heads m; 2; n_keys m; k_dim m / 2] /\
     forall h j, h < heads m -> j < 2 ->
       exists kh khj,
         select0 (keys m) h = inr kh /\ select0 kh j = inr khj /\
         get_uniform_keys (n_keys m) (k_dim m / 2) (N.of_nat (2 * h + j)) = inr khj /\
         shape khj = [n_keys m; k_dim m / 2]).
Proof.
  intros Hu. split.
  - intros Hk He Ho Hs.
    destruct (initialize_keys_ok (p_k_dim params) (p_n_keys params) (p_heads params) Hk Hs)
      as (ks & Eks).
    unfold __init__, bindM, lift.
    rewrite (proj2 (Nat.leb_le _ _) Hk), (proj2 (Nat.eqb_eq _ _) He). cbn [andb assert].
    rewrite Eks.
    destruct (Nat.eqb_spec o_dim 0) as [-> | _]; [lia |].
    cbn. destruct (normal_ _ _ _ g) as [w g1]. destruct (new_query_proj _ _ _ g1) as [qp g2].
    unfold retM, ok. eauto.
  - intros m g' H. unfold __init__ in H.
    inv_lift H as u Ea.
    inv_lift H as ks Eks.
    inv_lift H as std Estd.
    stepM H as w g1 Ew.
    stepM H as qp g2 Eqp.
    unfold retM in H. inversion H; subst m; clear H. cbn [heads n_keys k_dim keys].
    destruct (initialize_keys_inr _ _ _ _ Hu Eks) as [Hshape Hblocks].
    repeat match goal with |- _ /\ _ => split end; auto.
Qed.

End KeyClaims.


(** Values to compare with numpy: the first double that
    [np.random.RandomState(0)] draws is 0.5488135039273248; the first two
    keys of the call above are 0.15801484882831573 and
    -0.07423947751522064; the bound 0.2 is rounded to
    0.20000000298023224. *)
Example numpy_generator_values :
  next_doubles (mt19937_next 2 (mt19937_seed 0) 624) =
    [S754_finite false 4943272583565992 (-53)] /\
  firstn 2 (data numpy_keys) =
    [S754_finite false 10604197 (-26); S754_finite true 9964254 (-27)] /\
  key_bound (S := ieee_scalar) 25 = S754_finite false 7205759403792794 (-55) /\
  sf32 (key_bound (S := ieee_scalar) 25) = S754_finite false 13421773 (-26).
Proof. repeat split; vm_compute; reflexivity. Qed.

(** The keys of that call do lie between the rounded bounds. *)
Example numpy_keys_within_rounded_bound :
  Forall (fun x => sleb (sf32 (sneg (key_bound 25))) x = true /\
                   sleb x (sf32 (key_bound 25)) = true) (data numpy_keys).
Proof.
  assert (H : forallb (fun x => sleb (sf32 (sneg (key_bound 25))) x
                                && sleb x (sf32 (key_bound 25)))
                      (data numpy_keys) = true) by (vm_compute; reflexivity).
  apply Forall_forall. intros x Hx.
  rewrite forallb_forall in H. apply andb_prop. now apply H.
Qed.



(** ** [get_indices]: all heads *)

Section HeadsProofs.

Context {T G : Type} {S : Scalar T} {B : Backend T G}.

Lemma In_chunks {A} (n m : nat) (l r : list A) (x : A) :
  In r (chunks n m l) -> In x r -> In x l.
Proof.
  revert l. induction n as [| n IH]; simpl; intros l Hr Hx; [contradiction |].
  destruct Hr as [<- | Hr].
  - rewrite <- (firstn_skipn m l). apply in_or_app. now left.
  - rewrite <- (firstn_skipn m l). apply in_or_app. right. eapply IH; eauto.
Qed.

Lemma In_nth_chunk {A} (n m b : nat) (l : list A) (x : A) :
  In x (nth b (chunks n m l) []) -> In x l.
Proof.
  intros H. destruct (Nat.lt_ge_cases b n) as [Hb | Hb].
  - eapply In_chunks; [| exact H]. apply nth_In. now rewrite chunks_length.
  - rewrite nth_overflow in H by (rewrite chunks_length; lia). contradiction.
Qed.

Lemma cat1_inr {A} (ts : list (tensor A)) (t : tensor A) :
  cat1 ts = inr t ->
  exists d0 d1 rest,
    ts <> [] /\
    shape (hd (Tensor [] []) ts) = d0 :: d1 :: rest /\
    (forall u, In u ts -> exists e1, shape u = d0 :: e1 :: rest) /\
    t = Tensor (d0 :: list_sum (map (fun t => size t 1) ts) :: rest)
          (concat (map (fun b => concat (map (fun t => nth b (blocks0 t) []) ts))
                       (seq 0 d0))).
Proof.
  unfold cat1. intros H. destruct ts as [| t0 ts']; [discriminate |].
  destruct (shape t0) as [| d0 [| d1 rest]] eqn:E0; try discriminate.
  match type of H with (if ?c then _ else _) = _ => destruct c eqn:F end;
    [| discriminate].
  inversion H. exists d0, d1, rest.
  split; [discriminate |]. split; [exact E0 |]. split; [| reflexivity].
  intros u Hu. rewrite forallb_forall in F. specialize (F u Hu).
  destruct (shape u) as [| e0 [| e1 rest']]; try discriminate.
  apply andb_prop in F. destruct F as [F1 F2].
  apply Nat.eqb_eq in F1. apply shape_eqb_eq in F2. subst. eauto.
Qed.

Lemma view3_lead {A} (t : tensor A) (a b : nat) :
  view t [None; Some a; Some b] =
  if (0 <? a * b) && (numel (shape t) mod (a * b) =? 0)
  then ok (Tensor [numel (shape t) / (a * b); a; b] (data t))
  else raise RuntimeError.
Proof.
  unfold view. cbn [unknowns filter length known fold_right fill map].
  now rewrite Nat.mul_1_r.
Qed.

Lemma view_inr_data {A} (t o : tensor A) (sz : list (option nat)) :
  view t sz = inr o -> data o = data t.
Proof.
  unfold view. intros H.
  destruct (unknowns sz) as [| [| ?]]; try discriminate.
  - destruct (_ =? _); [| discriminate]. now inversion H.
  - destruct (_ && _); [| discriminate]. now inversion H.
Qed.

Lemma view_known_inr {A} (t o : tensor A) (sz : list nat) :
  view t (map Some sz) = inr o ->
  numel (shape t) = numel sz /\ o = Tensor sz (data t).
Proof.
  rewrite view_known. destruct (Nat.eqb_spec (numel (shape t)) (numel sz));
    [| discriminate].
  intros H. inversion H. auto.
Qed.

Lemma select1_inr {A} (t : tensor A) (i : nat) (o : tensor A) :
  select1 t i = inr o ->
  exists d0 d1 rest, shape t = d0 :: d1 :: rest /\ i < d1 /\ shape o = d0 :: rest.
Proof.
  unfold select1. intros H.
  destruct (shape t) as [| d0 [| d1 rest]]; try discriminate.
  destruct (Nat.ltb_spec i d1); [| discriminate].
  inversion H. eauto 6.
Qed.

Lemma list_sum_const {X} (f : X -> nat) (c : nat) (l : list X) :
  (forall x, In x l -> f x = c) -> list_sum (map f l) = length l * c.
Proof.
  induction l as [| x l IH]; simpl; intros H; [reflexivity |].
  rewrite H, IH by auto. reflexivity.
Qed.

(** What a successful [get_indices] tells: there are heads, [knn] is
    positive, the batch is not empty, both results have shape
    (bs * heads, knn) and that many elements, the call for head 0
    succeeded, and every index is below the square of the number of keys
    per half. *)
Lemma get_indices_inr (self : HashingMemory T) (query s : tensor T) (i : tensor nat) :
  topk_contract ->
  get_indices self query = inr (s, i) ->
  exists bs,
    0 < heads self /\ 0 < knn self /\ 0 < bs /\ 0 < k_dim self /\
    numel (shape query) = bs * (heads self * k_dim self) /\
    shape s = [bs * heads self; knn self] /\
    shape i = [bs * heads self; knn self] /\
    length (data s) = bs * heads self * knn self /\
    length (data i) = bs * heads self * knn self /\
    (exists q k sc ix,
        select0 (keys self) 0 = inr k /\ _get_indices self q k = inr (sc, ix)) /\
    Forall (fun x => x < size (keys self) 2 ^ 2) (data i).
Proof.
  intros Htopk H. unfold get_indices in H.
  inv_bind H. clear a E.
  inv_bind H. rename a into query3, E into Eq3.
  inv_bind H. rename a into bs, E into Ebs.
  inv_bind H. rename a into outputs, E into Eout.
  inv_bind H. rename a into ss, E into Ess.
  inv_bind H. rename a into s0, E into Es0.
  inv_bind H. rename a into js, E into Ejs.
  inv_bind H. rename a into i0, E into Ei0.
  inv_bind H. rename a into s', E into Es'.
  inv_bind H. rename a into i', E into Ei'.
  inversion H; subst s' i'; clear H.
  set (K := knn self) in *. set (hs := heads self) in *. set (kd := k_dim self) in *.
  (* the query, head by head *)
  rewrite view3_lead in Eq3.
  destruct ((0 <? hs * kd) && (numel (shape query) mod (hs * kd) =? 0)) eqn:Ev;
    [| discriminate].
  apply andb_prop in Ev. destruct Ev as [Ev1 Ev2].
  apply Nat.ltb_lt in Ev1. apply Nat.eqb_eq in Ev2.
  unfold ok in Eq3. injection Eq3 as <-. unfold len in Ebs. cbn [shape] in Ebs.
  unfold ok in Ebs. injection Ebs as Ebs.
  assert (Hnum : numel (shape query) = bs * (hs * kd)).
  { rewrite <- Ebs. rewrite (Nat.div_mod_eq (numel (shape query)) (hs * kd)) at 1.
    rewrite Ev2. lia. }
  rewrite Ebs in Eout.
  (* each head *)
  apply mapM_inr in Eout.
  destruct (Forall2_nth _ _ _ 0 (Tensor [] [], Tensor [] []) Eout) as [Lout Hout].
  rewrite length_seq in Lout, Hout.
  assert (Hhead : forall h, h < hs ->
            exists k sc ix,
              nth h outputs (Tensor [] [], Tensor [] []) = (sc, ix) /\
              select0 (keys self) h = inr k /\
              shape sc = [bs; K] /\ shape ix = [bs; K] /\
              length (data sc) = bs * K /\ length (data ix) = bs * K /\ 0 < bs /\
              (exists q, _get_indices self q k = inr (sc, ix)) /\
              Forall (fun x => x < size (keys self) 2 ^ 2) (data ix)).
  { intros h Hh. specialize (Hout h Hh). rewrite seq_nth in Hout by assumption.
    cbn [Nat.add] in Hout.
    inv_bind Hout. rename a into q. inv_bind Hout. rename a into k.
    destruct (nth h outputs _) as [sc ix].
    destruct (select1_inr _ _ _ E) as (d0 & d1 & rest & Hs3 & _ & Hq).
    cbn [shape] in Hs3. injection Hs3 as <- <- <-.
    destruct (_get_indices_row _ _ _ _ _ Htopk Hout)
      as (S1 & S2 & n & _ & Hn & Hpos & _ & Hsc & Hix & Lsc & Lix & _).
    pose proof (_get_indices_in_range _ _ _ _ _ Htopk Hout) as Hr.
    assert (Hq0 : size q 0 = bs) by (unfold size; now rewrite Hq).
    rewrite Hq0 in *.
    destruct (select0_inr _ _ _ E0) as (d & rest & Hks & _ & Hk).
    assert (Hk2 : size k 1 = size (keys self) 2)
      by (unfold size; rewrite Hk, Hks; reflexivity).
    rewrite Hk2 in Hr.
    exists k, sc, ix. repeat match goal with |- _ /\ _ => split end; eauto. }
  (* the views of the per-head results *)
  apply mapM_inr in Ess. apply mapM_inr in Ejs.
  destruct (Forall2_nth _ _ _ (Tensor [] [], Tensor [] []) (Tensor [] []) Ess) as [Lss Hss].
  destruct (Forall2_nth _ _ _ (Tensor [] [], Tensor [] []) (Tensor [] []) Ejs) as [Ljs Hjs].
  assert (Fss : forall u, In u ss ->
            shape u = [bs; 1; K] /\ length (data u) = bs * K).
  { intros u Hu. destruct (In_nth _ _ (Tensor [] []) Hu) as (h & Hh & <-).
    rewrite <- Lss in Hh. specialize (Hss h Hh).
    change [Some bs; Some 1; Some K] with (map Some [bs; 1; K]) in Hss.
    apply view_known_inr in Hss. destruct Hss as [_ ->].
    destruct (Hhead h ltac:(lia)) as (k & sc & ix & -> & _ & _ & _ & Lsc & _).
    split; [reflexivity | exact Lsc]. }
  assert (Fjs : forall u, In u js ->
            shape u = [bs; 1; K] /\ length (data u) = bs * K /\
            Forall (fun x => x < size (keys self) 2 ^ 2) (data u)).
  { intros u Hu. destruct (In_nth _ _ (Tensor [] []) Hu) as (h & Hh & <-).
    rewrite <- Ljs in Hh. specialize (Hjs h Hh).
    change [Some bs; Some 1; Some K] with (map Some [bs; 1; K]) in Hjs.
    apply view_known_inr in Hjs. destruct Hjs as [_ ->].
    destruct (Hhead h ltac:(lia)) as (k & sc & ix & -> & _ & _ & _ & _ & Lix & _ & _ & Hr).
    repeat split; auto. }
  (* the concatenations *)
  destruct (cat1_inr _ _ Es0) as (d0 & d1 & rest & Hne & Hhd & _ & Hs0).
  destruct (cat1_inr _ _ Ei0) as (e0 & e1 & rest' & Hne' & Hhd' & _ & Hi0).
  assert (Hhs : 0 < hs).
  { destruct ss; [contradiction |]. simpl in Lss. lia. }
  assert (In (hd (Tensor [] []) ss) ss) as Hin
    by (destruct ss; [contradiction | now left]).
  assert (In (hd (Tensor [] []) js) js) as Hin'
    by (destruct js; [contradiction | now left]).
  rewrite (proj1 (Fss _ Hin)) in Hhd. injection Hhd as <- <- <-.
  rewrite (proj1 (Fjs _ Hin')) in Hhd'. injection Hhd' as <- <- <-.
  rewrite (list_sum_const _ 1) in Hs0
    by (intros u Hu; unfold size; now rewrite (proj1 (Fss u Hu))).
  rewrite (list_sum_const _ 1) in Hi0
    by (intros u Hu; unfold size; now rewrite (proj1 (Fjs u Hu))).
  rewrite <- Lss, <- Lout, Nat.mul_1_r in Hs0.
  rewrite <- Ljs, <- Lout, Nat.mul_1_r in Hi0.
  (* the final views *)
  rewrite view_cols in Es'. rewrite view_cols in Ei'.
  rewrite Hs0 in Es'. rewrite Hi0 in Ei'. cbn [shape data] in Es', Ei'.
  destruct (Nat.ltb_spec 0 K) as [HK | HK]; [| discriminate].
  replace (numel [bs; hs; K]) with (bs * hs * K) in Es', Ei' by (simpl; lia).
  rewrite Nat.Div0.mod_mul, Nat.div_mul in Es' by lia.
  rewrite Nat.Div0.mod_mul, Nat.div_mul in Ei' by lia.
  cbn [andb Nat.eqb] in Es', Ei'. unfold ok in Es', Ei'.
  injection Es' as <-. injection Ei' as <-. cbn [shape data].
  destruct (Hhead 0 Hhs) as (k & sc & ix & _ & Hk & _ & _ & _ & _ & Hbs & (q & Hq) & _).
  assert (Lblock : forall {X} (us : list (tensor X)) b,
            (forall u, In u us -> shape u = [bs; 1; K] /\ length (data u) = bs * K) ->
            b < bs ->
            length (concat (map (fun t => nth b (blocks0 t) []) us)) = length us * K).
  { intros X us b Hus Hb. apply length_concat_map. intros u Hu.
    destruct (Hus u Hu) as [Su Lu]. unfold blocks0. rewrite Su.
    cbn [hd tl numel fold_right]. rewrite chunks_nth by assumption.
    rewrite length_firstn, length_skipn. nia. }
  exists bs. repeat match goal with |- _ /\ _ => split end; auto.
  - nia.
  - rewrite (length_concat_map _ (hs * K)), length_seq; [lia |].
    intros b Hb. apply in_seq in Hb.
    rewrite (Lblock _ ss b Fss) by lia. now rewrite <- Lss, <- Lout.
  - rewrite (length_concat_map _ (hs * K)), length_seq; [lia |].
    intros b Hb. apply in_seq in Hb.
    rewrite (Lblock _ js b) by (try lia; intros u Hu; destruct (Fjs u Hu) as (? & ? & _); auto).
    now rewrite <- Ljs, <- Lout.
  - exists q, k, sc, ix. auto.
  - apply Forall_concat. apply Forall_forall. intros r Hr.
    apply in_map_iff in Hr. destruct Hr as (b & <- & _).
    apply Forall_concat. apply Forall_forall. intros r Hr.
    apply in_map_iff in Hr. destruct Hr as (u & <- & Hu).
    destruct (Fjs u Hu) as (_ & _ & Fu).
    apply Forall_forall. intros x Hx. unfold blocks0 in Hx.
    apply In_nth_chunk in Hx. rewrite Forall_forall in Fu. now apply Fu.
Qed.

End HeadsProofs.

(** ** [forward] *)

Section ForwardProofs.

Context {T G : Type} {S : Scalar T} {B : Backend T G}.

Lemma F_dropout_inr (x o : tensor T) (p : Q) (tr : bool) (g g' : G) :
  F_dropout x p tr g = inr (o, g') ->
  shape o = shape x /\ (tr = false -> o = x /\ g' = g).
Proof.
  unfold F_dropout. destruct (negb _); [discriminate |].
  destruct tr.
  - destruct (dropout_mask p (data x) g) as [d g1]. intros H. inversion H.
    split; [reflexivity | discriminate].
  - intros H. inversion H. auto.
Qed.

Lemma F_softmax_data (s : tensor T) (r c : nat) :
  shape s = [r; c] ->
  shape (F_softmax s) = [r; c] /\
  data (F_softmax s) = concat (map softmax_row (chunks r c (data s))).
Proof.
  intros H. unfold F_softmax. cbn [shape data]. now rewrite (rows_2d _ _ _ H).
Qed.

(** A successful first part of [forward]. *)
Lemma forward_select_inr (self : HashingMemory T) (input : tensor T) (g g' : G)
      (pre : list nat) (bs : nat) (idx : tensor nat) (w : tensor T) :
  topk_contract ->
  forward_select self input g = inr ((pre, bs, idx, w), g') ->
  pre = removelast (shape input) /\ pre <> [] /\ bs = numel pre /\
  last (shape input) 0 = input_dim self /\
  0 < bs /\ 0 < heads self /\ 0 < knn self /\
  shape idx = [bs; heads self * knn self] /\
  shape w = [bs; heads self * knn self] /\
  length (data idx) = bs * heads self * knn self /\
  Forall (fun x => x < size (keys self) 2 ^ 2) (data idx) /\
  (exists s : tensor T,
      length (data s) = bs * heads self * knn self /\
      data w = concat (map softmax_row
                           (chunks (bs * heads self) (knn self) (data s)))) /\
  (exists q k sc ix,
      select0 (keys self) 0 = inr k /\ _get_indices self q k = inr (sc, ix)).
Proof.
  intros Htopk H. unfold forward_select in H.
  inv_lift H as d Ed.
  inv_lift H as u Ea. apply assert_inr in Ea. apply Nat.eqb_eq in Ea.
  stepM H as input1 g1 Edrop1.
  inv_lift H as x Ex.
  inv_lift H as query Eqp.
  inv_lift H as bsh Ebsh.
  inv_lift H as query0 Eview.
  stepM H as query1 g2 Edrop2.
  inv_lift H as u' Eshape. apply assert_inr in Eshape. apply shape_eqb_eq in Eshape.
  inv_lift H as si Egi. destruct si as [scores indices].
  inv_lift H as bs0 Ebs.
  inv_lift H as indices0 Evi.
  inv_lift H as scores0 Evs.
  unfold retM, ok in H. injection H as <- <- <- <- <-.
  (* the batch size *)
  unfold np_prod in Ebs, Ebsh.
  destruct (removelast (shape input)) as [| p0 pre'] eqn:Epre; [discriminate |].
  cbn [as_size py_mul] in Ebs, Ebsh. unfold ok in Ebs, Ebsh.
  injection Ebs as <-. injection Ebsh as <-.
  destruct (get_indices_inr _ _ _ _ Htopk Egi)
    as (bs' & Hh & HK & Hbs' & Hkd & Hnum & Hs & Hi & Ls & Li & Hhead & Hrange).
  rewrite Eshape in Hnum. cbn [numel fold_right] in Hnum.
  fold (numel pre') in *.
  assert (Hn : numel (p0 :: pre') = p0 * numel pre') by reflexivity.
  set (pre := p0 :: pre') in *.
  rewrite <- Hn in *. clear Hn.
  assert (bs' = numel pre) by nia. subst bs'.
  change [Some (numel pre); Some (heads self * knn self)]
    with (map Some [numel pre; heads self * knn self]) in Evi, Evs.
  apply view_known_inr in Evi. destruct Evi as [_ ->].
  apply view_known_inr in Evs. destruct Evs as [_ ->].
  destruct (F_softmax_data scores _ _ Hs) as [_ Dw].
  cbn [shape data].
  repeat match goal with |- _ /\ _ => split end; auto.
  - discriminate.
  - rewrite <- Ea. destruct (rev (shape input)) as [| d0 l] eqn:Er; [discriminate |].
    injection Ed as <-.
    rewrite <- (rev_involutive (shape input)), Er. cbn [rev].
    now rewrite last_last.
  - exists scores. split; [exact Ls | exact Dw].
Qed.

(** A successful [forward]. *)
Lemma forward_inr (self : HashingMemory T) (input out : tensor T) (g g' : G) :
  forward self input g = inr (out, g') ->
  exists pre bs idx w g1 o o',
    forward_select self input g = inr ((pre, bs, idx, w), g1) /\
    EmbeddingBag (values self) idx w = inr o /\
    F_dropout o (value_dropout self) (training self) g1 = inr (o', g') /\
    data out = data o' /\
    shape out = if 2 <=? length pre then pre ++ [v_dim self] else shape o'.
Proof.
  unfold forward. intros H.
  stepM H as sel g1 Esel. destruct sel as [[[pre bs] idx] w].
  inv_lift H as o Eo.
  stepM H as o' g2 Edrop.
  assert (Hfin : g' = g2 /\ data out = data o' /\
                 shape out = if 2 <=? length pre then pre ++ [v_dim self] else shape o').
  { destruct (2 <=? length pre).
    - apply lift_inr in H. destruct H as [H ->].
      split; [reflexivity |]. split; [now apply view_inr_data in H |].
      apply view_known_inr in H. destruct H as [_ ->]. reflexivity.
    - unfold retM, ok in H. injection H as <- <-. auto. }
  destruct Hfin as (-> & Hd & Hs).
  exists pre, bs, idx, w, g1, o, o'. auto.
Qed.

End ForwardProofs.

(** ** Normalisation of the weights *)

Section SoftmaxClaims.

Context {T G : Type} {S : Scalar T} {B : Backend T G}.

Lemma ssum_div (es : list T) (s : T) :
  softmax_laws -> positive s ->
  ssum (map (fun e => sdiv e s) es) = sdiv (ssum es) s.
Proof.
  intros (_ & _ & _ & _ & _ & Hadd & Hzero & _) Hs.
  induction es as [| e es IH]; simpl.
  - symmetry. now apply Hzero.
  - now rewrite IH, Hadd.
Qed.

Lemma ssum_exp_positive (row : list T) :
  softmax_laws -> row <> [] -> positive (ssum (map sexp row)).
Proof.
  intros (Hexp & Hpos & H00 & Hnn & _) Hne.
  assert (Hge : forall l, sleb szero (ssum (map sexp l)) = true).
  { induction l as [| x l IH]; simpl; [exact H00 |].
    apply Hnn. apply Hpos; [apply Hexp | exact IH]. }
  destruct row as [| x row]; [contradiction |]. simpl.
  apply Hpos; [apply Hexp | apply Hge].
Qed.

(** One row of [F.softmax]: non-negative weights that add up to one. *)
Lemma softmax_row_normalised (row : list T) :
  softmax_laws -> row <> [] ->
  length (softmax_row row) = length row /\
  Forall (fun x => sleb szero x = true) (softmax_row row) /\
  ssum (softmax_row row) = sone.
Proof.
  intros L Hne. pose proof (ssum_exp_positive row L Hne) as Hs.
  unfold softmax_row. split; [now rewrite !length_map |]. split.
  - apply Forall_forall. intros x Hx. apply in_map_iff in Hx.
    destruct Hx as (e & <- & He). apply in_map_iff in He. destruct He as (y & <- & _).
    destruct L as (Hexp & _ & _ & _ & Hdiv & _). apply Hdiv; [apply Hexp | exact Hs].
  - rewrite (ssum_div _ _ L Hs). destruct L as (_ & _ & _ & _ & _ & _ & _ & Hself).
    now apply Hself.
Qed.

End SoftmaxClaims.

(** ** Invalid configurations *)

Section ConfigClaims.

Context {T G : Type} {S : Scalar T} {B : Backend T G}.

(** The first [topk] of a successful call had enough keys to choose from. *)
Lemma _get_indices_knn_le (self : HashingMemory T) (query subkeys : tensor T)
      (r : tensor T * tensor nat) :
  _get_indices self query subkeys = inr r ->
  exists k0, select0 subkeys 0 = inr k0 /\ knn self <= size k0 0.
Proof.
  intros H. unfold _get_indices in H.
  step H as u Ea. step H as k0 Ek0. step H as n En.
  step H as q1 Eq1. step H as q2 Eq2. step H as S1 ES1.
  step H as k1 Ek1. step H as S2 ES2. step H as t1 Et1.
  exists k0. split; [exact Ek0 |].
  destruct (F_linear_inr _ _ _ ES1) as (b1 & d1 & n1 & _ & Hk0 & ->).
  unfold topk_dim1 in Et1. cbn [shape] in Et1.
  destruct (Nat.leb_spec (knn self) n1); [| discriminate].
  unfold size. now rewrite Hk0.
Qed.

(** A successful [get_indices] ran [_get_indices] for head 0. *)
Lemma get_indices_head0 (self : HashingMemory T) (query : tensor T)
      (r : tensor T * tensor nat) :
  get_indices self query = inr r ->
  exists q k r0, select0 (keys self) 0 = inr k /\ _get_indices self q k = inr r0.
Proof.
  intros H. unfold get_indices in H.
  step H as u Ea. step H as query3 Eq3. step H as bs Ebs.
  step H as outputs Eout. step H as ss Ess. step H as s0 Ecat.
  destruct (heads self) as [| hs].
  - simpl in Eout. inversion Eout; subst outputs. simpl in Ess.
    inversion Ess; subst ss. discriminate.
  - cbn [seq mapM] in Eout. step Eout as o0 Eo. step Eo as q Eq.
    step Eo as k Ek. eauto.
Qed.

Lemma forward_select_get_indices (self : HashingMemory T) (input : tensor T) (g : G)
      (r : (list nat * nat * tensor nat * tensor T) * G) :
  forward_select self input g = inr r ->
  exists query si, get_indices self query = inr si.
Proof.
  intros H. destruct r as [v g']. unfold forward_select in H.
  inv_lift H as d Ed. inv_lift H as u Ea.
  stepM H as input1 g1 Edrop1.
  inv_lift H as x Ex. inv_lift H as query Eqp. inv_lift H as bsh Ebsh.
  inv_lift H as query0 Eview. stepM H as query1 g2 Edrop2.
  inv_lift H as u' Eshape. inv_lift H as si Egi. eauto.
Qed.

Lemma initialize_keys_shape (kd nk hd : nat) (ks : tensor T) :
  initialize_keys kd nk hd = inr ks -> shape ks = [hd; 2; nk; kd / 2].
Proof.
  intros H. unfold initialize_keys in H. inv_bind H.
  change [Some hd; Some 2; Some nk; Some (kd / 2)]
    with (map Some [hd; 2; nk; kd / 2]) in H.
  apply view_known_inr in H. destruct H as [_ ->]. reflexivity.
Qed.

(** [forward] cannot succeed when [knn] exceeds the number of keys of the
    first half of head 0. *)
Lemma forward_needs_enough_keys (self : HashingMemory T) (input : tensor T) (g : G)
      (hs nk d : nat) :
  shape (keys self) = [hs; 2; nk; d] -> nk < knn self ->
  exists e, forward self input g = inl e.
Proof.
  intros Hk Hlt. destruct (forward self input g) as [e | [out g']] eqn:H; [eauto |].
  exfalso. unfold forward in H.
  stepM H as sel g1 Esel.
  destruct (forward_select_get_indices _ _ _ _ Esel) as (query & si & Egi).
  destruct (get_indices_head0 _ _ _ Egi) as (q & k & r0 & Ek & Er).
  destruct (_get_indices_knn_le _ _ _ _ Er) as (k0 & Ek0 & Hle).
  destruct (select0_inr _ _ _ Ek) as (d0 & rest & Hs & _ & ->).
  rewrite Hk in Hs. injection Hs as <- <-.
  destruct (select0_inr _ _ _ Ek0) as (d0 & rest & Hs & _ & ->).
  cbn [shape] in Hs. injection Hs as <- <-.
  unfold size in Hle. cbn [shape nth] in Hle. lia.
Qed.

(** C8.  An invalid configuration never yields an output.  When [k_dim]
    is odd or below 2, construction raises the assertion error before
    anything is built.  When [knn > n_keys], whatever construction
    returns, every call of [forward] on it, in training or in evaluation
    mode, raises an exception instead of returning a tensor. *)
Theorem invalid_configuration_fails_fast
        (i_dim o_dim : nat) (params : AttrDict) (g : G) :
  (p_k_dim params < 2 \/ p_k_dim params mod 2 <> 0 ->
   __init__ i_dim o_dim params g = inl AssertionError) /\
  (p_n_keys params < p_knn params ->
   forall m g', __init__ i_dim o_dim params g = inr (m, g') ->
     forall input g0,
       (exists e, forward m input g0 = inl e) /\
       (exists e, forward (eval m) input g0 = inl e)).
Proof.
  split.
  - intros Hbad. unfold __init__, bindM, lift.
    assert (E : (2 <=? p_k_dim params) && (p_k_dim params mod 2 =? 0) = false).
    { destruct Hbad as [Hlt | Hodd].
      - rewrite (proj2 (Nat.leb_gt _ _) Hlt). reflexivity.
      - rewrite (proj2 (Nat.eqb_neq _ _) Hodd). apply andb_false_r. }
    rewrite E. reflexivity.
  - intros Hlt m g' H input g0. unfold __init__ in H.
    inv_lift H as u Ea. inv_lift H as ks Eks. inv_lift H as std Estd.
    stepM H as w g1 Ew. stepM H as qp g2 Eqp.
    unfold retM, ok in H. injection H as <- <-.
    pose proof (initialize_keys_shape _ _ _ _ Eks) as Hshape.
    split; eapply forward_needs_enough_keys; cbn [keys knn eval]; eauto.
Qed.

End ConfigClaims.

(** ** The weighted sum of the selected rows *)

Section BagClaims.

Context {T G : Type} {S : Scalar T} {B : Backend T G}.

Hypothesis L : semiring_laws.

Lemma sadd_0_r (a : T) : sadd a szero = a.
Proof. destruct L as (Hc & _ & H0 & _). now rewrite Hc, H0. Qed.

Lemma ssum_all_zero {X} (f : X -> T) (l : list X) :
  (forall x, f x = szero) -> ssum (map f l) = szero.
Proof.
  intros H. induction l as [| x l IH]; simpl; [reflexivity |].
  rewrite H, IH. destruct L as (_ & _ & H0 & _). apply H0.
Qed.

(** Adding [a i] to the [i]-th term of a sum adds [a i] to the sum. *)
Lemma ssum_update (a b : nat -> T) (i s n : nat) :
  s <= i < s + n ->
  ssum (map (fun r => if i =? r then sadd (a r) (b r) else b r) (seq s n)) =
  sadd (a i) (ssum (map b (seq s n))).
Proof.
  destruct L as (Hc & Ha & H0 & _).
  revert s. induction n as [| n IH]; intros s Hi; [lia |].
  cbn [seq map ssum fold_right]. fold (ssum (map b (seq (Datatypes.S s) n))).
  fold (ssum (map (fun r => if i =? r then sadd (a r) (b r) else b r)
                  (seq (Datatypes.S s) n))).
  destruct (Nat.eqb_spec i s) as [-> | Hne].
  - rewrite <- Ha. do 3 f_equal. apply map_ext_in. intros r Hr.
    apply in_seq in Hr. destruct (Nat.eqb_spec s r); [lia | reflexivity].
  - rewrite IH by lia. rewrite !Ha. f_equal. apply Hc.
Qed.

Lemma vadd_vscale (d c : nat) (acc row : list T) (w : T) :
  length acc = d -> length row = d -> c < d ->
  length (vadd acc (vscale w row)) = d /\
  nth c (vadd acc (vscale w row)) szero =
  sadd (nth c acc szero) (smul w (nth c row szero)).
Proof.
  intros Ha Hr Hc. unfold vadd, vscale. split.
  - rewrite length_map, length_combine, length_map. lia.
  - rewrite (nth_map_lt _ _ _ (szero, szero))
      by (rewrite length_combine, length_map; lia).
    rewrite combine_nth by (rewrite length_map; lia). cbn [fst snd].
    f_equal. apply (nth_map_lt (smul w) row c szero szero). lia.
Qed.

Lemma vadd_vscale_length (d : nat) (acc row : list T) (w : T) :
  length acc = d -> length row = d -> length (vadd acc (vscale w row)) = d.
Proof.
  intros Ha Hr. unfold vadd, vscale.
  rewrite length_map, length_combine, length_map. lia.
Qed.

Lemma list_as_map_nth {X} (l : list X) (dflt : X) :
  l = map (fun c => nth c l dflt) (seq 0 (length l)).
Proof.
  apply (nth_ext _ _ dflt dflt).
  - now rewrite length_map, length_seq.
  - intros c Hc. rewrite (nth_map_lt _ _ _ 0) by now rewrite length_seq.
    now rewrite seq_nth.
Qed.

(** The accumulation of a bag, component by component. *)
Lemma bag_fold_components (table : list (list T)) (d : nat)
      (pairs : list (nat * T)) (acc : list T) :
  length acc = d ->
  (forall p, In p pairs -> length (nth (fst p) table []) = d) ->
  fold_left (fun acc p => vadd acc (vscale (snd p) (nth (fst p) table []))) pairs acc =
  map (fun c => fold_left (fun a p => sadd a (smul (snd p)
                                              (nth c (nth (fst p) table []) szero)))
                          pairs (nth c acc szero))
      (seq 0 d).
Proof.
  revert acc. induction pairs as [| p ps IH]; intros acc Ha Hrows; cbn [fold_left].
  - subst d. apply list_as_map_nth.
  - rewrite IH.
    + apply map_ext_in. intros c Hc. apply in_seq in Hc. f_equal.
      apply vadd_vscale with (d := d); auto; try lia. apply Hrows. now left.
    + apply vadd_vscale_length; auto. apply Hrows. now left.
    + intros q Hq. apply Hrows. now right.
Qed.

(** One component: the running sum regrouped by table row. *)
Lemma component_sum (tab : nat -> T) (n : nat) (pairs : list (nat * T)) (a : T) :
  (forall p, In p pairs -> fst p < n) ->
  fold_left (fun a p => sadd a (smul (snd p) (tab (fst p)))) pairs a =
  sadd a (ssum (map (fun r => smul (ssum (map snd (filter (fun p => fst p =? r) pairs)))
                                   (tab r))
                    (seq 0 n))).
Proof.
  pose proof L as (Hc & Ha & H0 & Hd & Hz).
  revert a. induction pairs as [| [i w] ps IH]; intros a Hr; cbn [fold_left].
  - cbn [filter map ssum fold_right].
    rewrite (ssum_all_zero _ _ (fun r => Hz (tab r))). symmetry. apply sadd_0_r.
  - rewrite IH by (intros q Hq; apply Hr; now right).
    cbn [fst snd]. rewrite <- Ha. f_equal.
    rewrite <- (ssum_update (fun r => smul w (tab r))
                  (fun r => smul (ssum (map snd (filter (fun p => fst p =? r) ps))) (tab r))
                  i 0 n)
      by (specialize (Hr (i, w) (or_introl eq_refl)); cbn in Hr; lia).
    f_equal. apply map_ext. intros r. cbn [filter fst].
    destruct (Nat.eqb_spec i r) as [-> | _].
    + cbn [map snd ssum fold_right]. now rewrite Hd.
    + reflexivity.
Qed.

(** The scatter-add accumulation and the weighted sum of the
    specification agree. *)
Lemma bag_sum_is_weighted_row_sum (table : list (list T)) (d : nat)
      (idx : list nat) (ws : list T) :
  Forall (fun r => length r = d) table ->
  Forall (fun i => i < length table) idx ->
  bag_sum table d idx ws = weighted_row_sum table d idx ws.
Proof.
  intros Ht Hi. unfold bag_sum, weighted_row_sum.
  assert (Hp : forall p, In p (combine idx ws) -> fst p < length table).
  { intros [i w] Hin. apply in_combine_l in Hin.
    rewrite Forall_forall in Hi. now apply Hi. }
  rewrite (bag_fold_components table d).
  - apply map_ext_in. intros c Hc. apply in_seq in Hc.
    rewrite nth_repeat.
    rewrite (component_sum (fun r => nth c (nth r table []) szero) (length table)) by exact Hp.
    destruct L as (_ & _ & H0 & _). rewrite H0. reflexivity.
  - apply repeat_length.
  - intros p Hin. rewrite Forall_forall in Ht. apply Ht. apply nth_In. now apply Hp.
Qed.

Lemma EmbeddingBag_inr (weight : tensor T) (input : tensor nat) (psw o : tensor T) :
  EmbeddingBag weight input psw = inr o ->
  exists n d b l,
    shape weight = [n; d] /\ shape input = [b; l] /\ shape psw = [b; l] /\
    Forall (fun i => i < n) (data input) /\
    o = Tensor [b; d]
          (concat (map (fun p => bag_sum (chunks n d (data weight)) d (fst p) (snd p))
                       (combine (chunks b l (data input)) (chunks b l (data psw))))).
Proof.
  unfold EmbeddingBag. intros H.
  destruct (shape weight) as [| n [| d [| ? ?]]]; try discriminate.
  destruct (shape input) as [| b [| l [| ? ?]]] eqn:Ei; try discriminate.
  destruct (shape_eqb [b; l] (shape psw)) eqn:Es; [| discriminate].
  apply shape_eqb_eq in Es. cbn [negb] in H.
  destruct (forallb (fun i => i <? n) (data input)) eqn:F; [| discriminate].
  cbn [negb] in H. inversion H. exists n, d, b, l.
  repeat match goal with |- _ /\ _ => split end; auto.
  apply Forall_forall. intros i Hin. rewrite forallb_forall in F.
  apply Nat.ltb_lt. auto.
Qed.

(** C3.  In evaluation mode the output of [forward] is, batch element
    after batch element, the weighted sum of the rows of the value table
    that the selection names, with the weights after the softmax; a row
    named at several positions (for instance by different heads) counts
    with the sum of the weights of these positions. *)
Theorem output_is_weighted_sum_of_selected_rows
        (self : HashingMemory T) (input out : tensor T) (g g' : G) :
  wf (values self) ->
  forward (eval self) input g = inr (out, g') ->
  exists pre bs idx w,
    forward_select (eval self) input g = inr ((pre, bs, idx, w), g') /\
    let d := size (values self) 1 in
    let table := rows (values self) in
    data out =
      concat (map (fun p => weighted_row_sum table d (fst p) (snd p))
                  (combine (rows idx) (rows w))) /\
    forall b, b < size idx 0 ->
      firstn d (skipn (b * d) (data out)) =
      weighted_row_sum table d (nth b (rows idx) []) (nth b (rows w) []).
Proof.
  intros Hwf H.
  destruct (forward_inr _ _ _ _ _ H)
    as (pre & bs & idx & w & g1 & o & o' & Esel & Eo & Edrop & Hd & _).
  destruct (F_dropout_inr _ _ _ _ _ _ Edrop) as [_ Hid].
  destruct (Hid eq_refl) as [-> ->]. clear Hid Edrop.
  exists pre, bs, idx, w. split; [exact Esel |].
  cbn [eval values] in Eo.
  destruct (EmbeddingBag_inr _ _ _ _ Eo) as (n & d & b & l & Hw & Hi & Hp & Hr & ->).
  unfold size. rewrite Hw, Hi. cbn [nth].
  rewrite (rows_2d _ _ _ Hw), (rows_2d _ _ _ Hi), (rows_2d _ _ _ Hp).
  unfold wf in Hwf. rewrite Hw in Hwf. cbn [numel fold_right] in Hwf.
  set (table := chunks n d (data (values self))) in *.
  assert (Ft : Forall (fun r => length r = d) table)
    by (apply chunks_Forall_length; lia).
  assert (Lt : length table = n) by apply chunks_length.
  set (P := combine (chunks b l (data idx)) (chunks b l (data w))).
  assert (HP : forall p, In p P ->
            bag_sum table d (fst p) (snd p) = weighted_row_sum table d (fst p) (snd p)).
  { intros [ri rw] Hin. cbn [fst snd]. apply bag_sum_is_weighted_row_sum; auto.
    apply in_combine_l in Hin. rewrite Lt.
    apply Forall_forall. intros i Hi'. rewrite Forall_forall in Hr. apply Hr.
    eapply In_chunks; eauto. }
  assert (Hdata : data out =
            concat (map (fun p => weighted_row_sum table d (fst p) (snd p)) P)).
  { rewrite Hd. cbn [data]. f_equal. now apply map_ext_in. }
  split; [exact Hdata |].
  intros b0 Hb0.
  assert (LP : length P = b)
    by (unfold P; rewrite length_combine, !chunks_length; apply Nat.min_id).
  rewrite Hdata, (concat_nth_block d).
  - rewrite length_map, LP, (proj2 (Nat.ltb_lt _ _) Hb0).
    rewrite (nth_map_lt _ P b0 ([], []) []) by lia.
    unfold P. rewrite combine_nth by now rewrite !chunks_length. reflexivity.
  - apply Forall_map_length. intros p _. unfold weighted_row_sum.
    now rewrite length_map, length_seq.
Qed.

End BagClaims.

(** ** When the selector succeeds *)

Section SuccessProofs.

Context {T G : Type} {S : Scalar T} {B : Backend T G}.

Lemma select0_ok {A} (t : tensor A) (i d : nat) (rest : list nat) :
  shape t = d :: rest -> i < d ->
  exists o, select0 t i = inr o /\ shape o = rest.
Proof.
  intros Hs Hi. unfold select0. rewrite Hs, (proj2 (Nat.ltb_lt _ _) Hi).
  eexists. split; reflexivity.
Qed.

Lemma select1_ok {A} (t : tensor A) (i d0 d1 : nat) (rest : list nat) :
  shape t = d0 :: d1 :: rest -> i < d1 ->
  exists o, select1 t i = inr o /\ shape o = d0 :: rest.
Proof.
  intros Hs Hi. unfold select1. rewrite Hs, (proj2 (Nat.ltb_lt _ _) Hi).
  eexists. split; reflexivity.
Qed.

Lemma slice1_ok {A} (t : tensor A) (a b d0 d1 : nat) :
  shape t = [d0; d1] -> a <= b -> b <= d1 ->
  exists o, slice1 t a b = inr o /\ shape o = [d0; b - a].
Proof.
  intros Hs Hab Hb. unfold slice1. rewrite Hs.
  eexists. split; [reflexivity |]. cbn [shape].
  rewrite (Nat.min_l a d1), (Nat.min_l b d1), (Nat.max_r a b) by lia. reflexivity.
Qed.

Lemma F_linear_ok (x w : tensor T) (bs d n : nat) :
  shape x = [bs; d] -> shape w = [n; d] ->
  exists o, F_linear x w = inr o /\ shape o = [bs; n] /\ length (data o) = bs * n.
Proof.
  intros Hx Hw. unfold F_linear. rewrite Hx, Hw, Nat.eqb_refl.
  eexists. split; [reflexivity |]. split; [reflexivity |]. cbn [data].
  rewrite (length_concat_map _ n), chunks_length; [reflexivity |].
  intros q _. now rewrite length_map, chunks_length.
Qed.

Lemma topk_dim1_ok (k r c : nat) (t : tensor T) :
  topk_contract -> shape t = [r; c] -> length (data t) = r * c -> k <= c ->
  exists v i,
    topk_dim1 k t = inr (v, i) /\
    shape v = [r; k] /\ shape i = [r; k] /\
    length (data v) = r * k /\ length (data i) = r * k /\
    Forall (fun x => x < c) (data i).
Proof.
  intros Htopk Hs Hl Hk. unfold topk_dim1. rewrite Hs, (proj2 (Nat.leb_le _ _) Hk).
  assert (Hrow : forall row, In row (chunks r c (data t)) -> topk_spec k row (topk1 k row)).
  { intros row Hin. apply Htopk.
    pose proof (chunks_Forall_length r c (data t)) as F.
    rewrite Forall_forall in F. rewrite (F ltac:(lia) row Hin). exact Hk. }
  do 2 eexists. split; [reflexivity |]. cbn [shape data].
  repeat match goal with |- _ /\ _ => split end; auto.
  - rewrite (length_concat_map _ k), chunks_length; [reflexivity |].
    intros row Hin. rewrite length_map. now apply Hrow.
  - rewrite (length_concat_map _ k), chunks_length; [reflexivity |].
    intros row Hin. now apply Hrow.
  - apply Forall_concat. apply Forall_forall. intros l Hl'.
    apply in_map_iff in Hl'. destruct Hl' as (row & <- & Hin).
    apply Forall_forall. intros x Hx.
    destruct (Hrow row Hin) as (_ & _ & Hrange & _).
    pose proof (chunks_Forall_length r c (data t)) as F.
    rewrite Forall_forall in F.
    rewrite <- (F ltac:(lia) row Hin). now apply Hrange.
Qed.

Lemma cartesian_ok_shape {A} (op : A -> A -> A) (bs knn : nat) (a b : tensor A) :
  shape a = [bs; knn] -> shape b = [bs; knn] ->
  length (data a) = bs * knn -> length (data b) = bs * knn -> 0 < bs ->
  exists c, cartesian op bs knn a b = inr c /\
            shape c = [bs; knn * knn] /\ length (data c) = bs * (knn * knn).
Proof.
  intros Ha Hb La Lb Hbs. rewrite (cartesian_ok op bs knn a b) by assumption.
  eexists. split; [reflexivity |]. split; [reflexivity |]. cbn [data].
  rewrite (length_concat_map _ (knn * knn)).
  - rewrite length_combine, !chunks_length. now rewrite Nat.min_id.
  - intros [ra rb] Hin. cbn [fst snd]. rewrite pair_op_length.
    pose proof (chunks_Forall_length bs knn (data a)) as Fa.
    pose proof (chunks_Forall_length bs knn (data b)) as Fb.
    rewrite Forall_forall in Fa, Fb.
    rewrite (Fa ltac:(lia) ra), (Fb ltac:(lia) rb); try lia.
    + eapply in_combine_r; eauto.
    + eapply in_combine_l; eauto.
Qed.

Lemma gather1_ok {A} (dflt : A) (t : tensor A) (index : tensor nat) (r c c' : nat) :
  shape t = [r; c] -> shape index = [r; c'] ->
  Forall (fun i => i < c) (data index) ->
  exists o, gather1 dflt t index = inr o /\ shape o = [r; c'].
Proof.
  intros Ht Hi F. unfold gather1. rewrite Ht, Hi, Nat.leb_refl.
  assert (E : forallb (fun i => i <? c) (data index) = true).
  { apply forallb_forall. intros i Hin. rewrite Forall_forall in F.
    apply Nat.ltb_lt. auto. }
  rewrite E. eexists. split; reflexivity.
Qed.

(** [_get_indices] succeeds on a non-empty batch of queries of even
    dimension when each half has at least [knn] keys. *)
Lemma _get_indices_ok (self : HashingMemory T) (query subkeys : tensor T)
      (bs n : nat) :
  topk_contract ->
  k_dim self mod 2 = 0 ->
  shape query = [bs; k_dim self] -> 0 < bs ->
  shape subkeys = [2; n; k_dim self / 2] -> knn self <= n ->
  exists sc ix, _get_indices self query subkeys = inr (sc, ix).
Proof.
  intros Htopk Heven Hq Hbs Hk Hle.
  set (kd := k_dim self) in *. set (half := kd / 2) in *. set (K := knn self) in *.
  assert (Hkd : kd = 2 * half)
    by (unfold half; rewrite (Nat.div_mod_eq kd 2) at 1; lia).
  unfold _get_indices. fold kd K half.
  unfold tdim, size. rewrite Hq. cbn [length nth].
  rewrite !Nat.eqb_refl. cbn [andb assert]. rewrite bind_ok.
  destruct (select0_ok subkeys 0 2 _ Hk) as (k0 & -> & Hk0); [lia |].
  rewrite bind_ok. unfold len. rewrite Hk0. rewrite bind_ok.
  destruct (slice1_ok query 0 half bs kd Hq) as (q1 & -> & Hq1); try lia.
  rewrite bind_ok.
  destruct (slice1_ok query half kd bs kd Hq) as (q2 & -> & Hq2); try lia.
  rewrite bind_ok.
  rewrite Nat.sub_0_r in Hq1.
  replace (kd - half) with half in Hq2 by lia.
  destruct (F_linear_ok q1 k0 bs half n Hq1 Hk0) as (S1 & -> & HS1 & LS1).
  rewrite bind_ok.
  destruct (select0_ok subkeys 1 2 _ Hk) as (k1 & -> & Hk1); [lia |].
  rewrite bind_ok.
  destruct (F_linear_ok q2 k1 bs half n Hq2 Hk1) as (S2 & -> & HS2 & LS2).
  rewrite bind_ok.
  destruct (topk_dim1_ok K bs n S1 Htopk HS1 LS1 Hle)
    as (sc1 & ix1 & -> & Hsc1 & Hix1 & Lsc1 & Lix1 & _).
  rewrite bind_ok.
  destruct (topk_dim1_ok K bs n S2 Htopk HS2 LS2 Hle)
    as (sc2 & ix2 & -> & Hsc2 & Hix2 & Lsc2 & Lix2 & _).
  rewrite bind_ok.
  destruct (cartesian_ok_shape sadd bs K sc1 sc2) as (all_scores & -> & Has & Las); auto.
  rewrite bind_ok.
  destruct (cartesian_ok_shape (fun i j => i * n + j) bs K ix1 ix2)
    as (all_indices & -> & Hai & Lai); auto.
  rewrite bind_ok.
  assert (HKK : K <= K * K) by (clearbody K; destruct K; nia).
  destruct (topk_dim1_ok K bs (K * K) all_scores Htopk Has Las HKK)
    as (scores & best & -> & Hsc & Hbest & _ & _ & Fbest).
  rewrite bind_ok.
  destruct (gather1_ok 0 all_indices best bs (K * K) K Hai Hbest Fbest)
    as (indices & -> & Hix).
  rewrite bind_ok.
  rewrite Hsc, Hix.
  rewrite (proj2 (shape_eqb_eq [bs; K] [bs; K]) eq_refl). cbn [andb assert].
  rewrite bind_ok. eauto.
Qed.

End SuccessProofs.

(** ** When [forward] succeeds, and the shape of its result *)

Section ShapeClaims.

Context {T G : Type} {S : Scalar T} {B : Backend T G}.

Lemma mapM_exists {A C} (f : A -> result C) (P : C -> Prop) (l : list A) :
  (forall x, In x l -> exists y, f x = inr y /\ P y) ->
  exists ys, mapM f l = inr ys /\ Forall P ys /\ length ys = length l.
Proof.
  induction l as [| x l IH]; intros H; simpl.
  - exists []. repeat split. constructor.
  - destruct (H x (or_introl eq_refl)) as (y & -> & Hy).
    destruct IH as (ys & -> & Hys & Hl); [intros; apply H; now right |].
    exists (y :: ys). simpl. repeat split; auto.
Qed.

Lemma cat1_ok {A} (ts : list (tensor A)) (d0 d1 d2 : nat) :
  ts <> [] -> (forall u, In u ts -> shape u = [d0; d1; d2]) ->
  exists t, cat1 ts = inr t /\ shape t = [d0; length ts * d1; d2].
Proof.
  intros Hne Hs. unfold cat1. destruct ts as [| t0 ts']; [contradiction |].
  rewrite (Hs t0 (or_introl eq_refl)).
  assert (E : forallb (fun t => match shape t with
                                | e0 :: _ :: rest' => (e0 =? d0) && shape_eqb rest' [d2]
                                | _ => false
                                end) (t0 :: ts') = true).
  { apply forallb_forall. intros u Hu. rewrite (Hs u Hu), Nat.eqb_refl.
    now rewrite (proj2 (shape_eqb_eq [d2] [d2]) eq_refl). }
  rewrite E. eexists. split; [reflexivity |]. cbn [shape].
  rewrite (list_sum_const _ d1); [reflexivity |].
  intros u Hu. unfold size. now rewrite (Hs u Hu).
Qed.

Lemma numel_app (a b : list nat) : numel (a ++ b) = numel a * numel b.
Proof.
  induction a as [| x a IH]; simpl; [lia |]. fold (numel (a ++ b)). fold (numel a).
  rewrite IH. lia.
Qed.

(** [get_indices] succeeds on a well-formed object. *)
Lemma get_indices_ok (self : HashingMemory T) (query : tensor T) (bs : nat) :
  topk_contract -> module_wf self ->
  0 < heads self -> 0 < knn self -> knn self <= n_keys self ->
  shape query = [bs * heads self; k_dim self] -> 0 < bs ->
  exists s i, get_indices self query = inr (s, i).
Proof.
  intros Htopk (Hk2 & Heven & _ & _ & Hkeys & _) Hh HK Hle Hq Hbs.
  set (K := knn self) in *. set (hs := heads self) in *. set (kd := k_dim self) in *.
  unfold get_indices. fold K hs kd.
  unfold tdim, size. rewrite Hq. cbn [length nth].
  rewrite !Nat.eqb_refl. cbn [andb assert]. rewrite bind_ok.
  rewrite view3_lead, Hq.
  assert (Hn : numel [bs * hs; kd] = bs * (hs * kd)) by (simpl; lia).
  rewrite Hn, Nat.Div0.mod_mul, Nat.div_mul by nia.
  rewrite (proj2 (Nat.ltb_lt 0 (hs * kd))) by nia.
  cbn [andb Nat.eqb]. rewrite bind_ok. unfold len. cbn [shape]. rewrite bind_ok.
  set (query3 := Tensor [bs; hs; kd] (data query)).
  destruct (mapM_exists
              (fun i => q <- select1 query3 i ;; k <- select0 (keys self) i ;;
                        _get_indices self q k)
              (fun o => shape (fst o) = [bs; K] /\ shape (snd o) = [bs; K])
              (seq 0 hs)) as (outputs & -> & Fo & Lo).
  { intros i Hi. apply in_seq in Hi.
    destruct (select1_ok query3 i bs hs [kd] eq_refl) as (q & -> & Hq'); [lia |].
    rewrite bind_ok.
    destruct (select0_ok (keys self) i hs _ Hkeys) as (k & -> & Hk'); [lia |].
    rewrite bind_ok.
    destruct (_get_indices_ok self q k bs (n_keys self) Htopk Heven Hq' Hbs Hk' Hle)
      as (sc & ix & E).
    exists (sc, ix). split; [exact E |].
    destruct (_get_indices_row _ _ _ _ _ Htopk E)
      as (_ & _ & _ & _ & _ & _ & _ & Hsc & Hix & _).
    unfold size in Hsc, Hix. rewrite Hq' in Hsc, Hix. auto. }
  rewrite bind_ok. rewrite length_seq in Lo. rewrite Forall_forall in Fo.
  destruct (mapM_exists (fun o : tensor T * tensor nat =>
                           view (fst o) [Some bs; Some 1; Some K])
              (fun u => shape u = [bs; 1; K]) outputs) as (ss & -> & Fs & Ls).
  { intros o Ho. change [Some bs; Some 1; Some K] with (map Some [bs; 1; K]).
    rewrite view_known, (proj1 (Fo o Ho)).
    replace (numel [bs; K] =? numel [bs; 1; K]) with true
      by (symmetry; apply Nat.eqb_eq; simpl; lia).
    eexists. split; reflexivity. }
  rewrite bind_ok. rewrite Forall_forall in Fs.
  destruct (cat1_ok ss bs 1 K) as (s0 & -> & Hs0); auto.
  { destruct ss; [simpl in Ls; lia | discriminate]. }
  rewrite bind_ok.
  destruct (mapM_exists (fun o : tensor T * tensor nat =>
                           view (snd o) [Some bs; Some 1; Some K])
              (fun u => shape u = [bs; 1; K]) outputs) as (js & -> & Fj & Lj).
  { intros o Ho. change [Some bs; Some 1; Some K] with (map Some [bs; 1; K]).
    rewrite view_known, (proj2 (Fo o Ho)).
    replace (numel [bs; K] =? numel [bs; 1; K]) with true
      by (symmetry; apply Nat.eqb_eq; simpl; lia).
    eexists. split; reflexivity. }
  rewrite bind_ok. rewrite Forall_forall in Fj.
  destruct (cat1_ok js bs 1 K) as (i0 & -> & Hi0); auto.
  { destruct js; [simpl in Lj; lia | discriminate]. }
  rewrite bind_ok.
  rewrite !view_cols, Hs0, Hi0.
  assert (Hm : forall l, numel [bs; l * 1; K] mod K = 0)
    by (intros l; cbn [numel fold_right];
        replace (bs * (l * 1 * (K * 1))) with (bs * l * K) by lia;
        apply Nat.Div0.mod_mul).
  rewrite !Hm. rewrite (proj2 (Nat.ltb_lt 0 K) HK). cbn [andb Nat.eqb].
  rewrite !bind_ok. eauto.
Qed.

Lemma bindM_lift {A C} (c : result A) (a : A) (k : A -> M G C) (g : G) :
  c = inr a -> bindM (lift c) k g = k a g.
Proof. intros ->. reflexivity. Qed.

Lemma bindM_step {A C} (c : M G A) (a : A) (k : A -> M G C) (g g1 : G) :
  c g = inr (a, g1) -> bindM c k g = k a g1.
Proof. unfold bindM. intros ->. reflexivity. Qed.

Lemma F_dropout_ok (x : tensor T) (p : Q) (tr : bool) (g : G) :
  valid_rate p ->
  exists o g1, F_dropout x p tr g = inr (o, g1) /\ shape o = shape x.
Proof.
  intros [H0 H1]. unfold F_dropout.
  rewrite (proj2 (Qle_bool_iff 0 p) H0), (proj2 (Qle_bool_iff p 1) H1).
  cbn [andb negb]. destruct tr.
  - destruct (dropout_mask p (data x) g) as [d g1]. do 2 eexists.
    split; reflexivity.
  - do 2 eexists. split; reflexivity.
Qed.

(** The first part of [forward] succeeds on a non-empty batch with at
    least one leading dimension. *)
Lemma forward_select_ok (self : HashingMemory T) (input : tensor T) (g : G)
      (pre : list nat) :
  topk_contract -> module_wf self -> usable_config self ->
  query_proj_contract self (numel pre) ->
  shape input = pre ++ [input_dim self] -> pre <> [] -> 0 < numel pre ->
  exists idx w g',
    forward_select self input g = inr ((pre, numel pre, idx, w), g').
Proof.
  intros Htopk Hwf (Hh & HK & Hle & Hid & Vi & Vq & Vv) Hqp Hin Hne Hbs.
  pose proof Hwf as (Hk2 & Heven & _ & _ & Hkeys & _).
  unfold forward_select.
  rewrite Hin, rev_app_distr. cbn [rev app].
  rewrite (bindM_lift _ (input_dim self)) by reflexivity.
  rewrite Nat.eqb_refl. cbn [assert]. rewrite (bindM_lift _ tt) by reflexivity.
  rewrite removelast_last.
  destruct (F_dropout_ok input (input_dropout self) (training self) g Vi)
    as (input1 & g1 & E1 & Hs1).
  rewrite (bindM_step _ _ _ _ _ E1).
  assert (Ex : view input1 [None; Some (input_dim self)] =
               inr (Tensor [numel pre; input_dim self] (data input1))).
  { rewrite view_cols, Hs1, Hin, numel_app.
    replace (numel [input_dim self]) with (input_dim self) by (simpl; lia).
    rewrite Nat.Div0.mod_mul, Nat.div_mul by lia.
    rewrite (proj2 (Nat.ltb_lt 0 (input_dim self))) by lia. reflexivity. }
  rewrite (bindM_lift _ _ _ _ Ex).
  destruct (Hqp (Tensor [numel pre; input_dim self] (data input1)) eq_refl)
    as (query & Eq & Hq).
  rewrite (bindM_lift _ _ _ _ Eq).
  assert (Hnp : np_prod pre = PyInt (numel pre)) by (destruct pre; [contradiction | reflexivity]).
  rewrite Hnp. cbn [py_mul as_size].
  rewrite (bindM_lift _ (numel pre * heads self)) by reflexivity.
  assert (Ev : view query [Some (numel pre * heads self); Some (k_dim self)] =
               inr (Tensor [numel pre * heads self; k_dim self] (data query))).
  { change [Some (numel pre * heads self); Some (k_dim self)]
      with (map Some [numel pre * heads self; k_dim self]).
    rewrite view_known, Hq.
    replace (numel [numel pre; heads self * k_dim self] =?
             numel [numel pre * heads self; k_dim self]) with true
      by (symmetry; apply Nat.eqb_eq; simpl; lia).
    reflexivity. }
  rewrite (bindM_lift _ _ _ _ Ev).
  destruct (F_dropout_ok (Tensor [numel pre * heads self; k_dim self] (data query))
              (query_dropout self) (training self) g1 Vq)
    as (query1 & g2 & E2 & Hs2).
  rewrite (bindM_step _ _ _ _ _ E2). cbn [shape] in Hs2.
  rewrite Hs2, (proj2 (shape_eqb_eq _ _) eq_refl). cbn [assert].
  rewrite (bindM_lift _ tt) by reflexivity.
  destruct (get_indices_ok self query1 (numel pre) Htopk Hwf) as (s & i & Egi); auto.
  rewrite (bindM_lift _ _ _ _ Egi).
  destruct (get_indices_inr _ _ _ _ Htopk Egi)
    as (bs' & _ & _ & _ & Hkd & Hnum & Hs & Hi & _).
  rewrite Hs2 in Hnum. cbn [numel fold_right] in Hnum.
  assert (bs' = numel pre) by nia. subst bs'.
  rewrite (bindM_lift _ (numel pre)) by reflexivity.
  change [Some (numel pre); Some (heads self * knn self)]
    with (map Some [numel pre; heads self * knn self]).
  rewrite !view_known. unfold F_softmax at 1. cbn [shape]. rewrite Hs, Hi.
  replace (numel [numel pre * heads self; knn self] =?
           numel [numel pre; heads self * knn self]) with true
    by (symmetry; apply Nat.eqb_eq; simpl; lia).
  rewrite (bindM_lift _ _ _ _ eq_refl).
  rewrite (bindM_lift _ _ _ _ eq_refl).
  unfold retM. eauto.
Qed.

(** C2, as the code has it.  On a well-formed object with a usable
    configuration, for an input whose last size is [input_dim] and which
    has at least one leading dimension and at least one element, [forward]
    returns a tensor whose shape is the leading sizes of the input
    followed by [output_dim], provided the query network accepts the
    batch. *)
Theorem forward_preserves_leading_shape
        (self : HashingMemory T) (input : tensor T) (g : G) (pre : list nat) :
  topk_contract -> module_wf self -> usable_config self ->
  query_proj_contract self (numel pre) ->
  shape input = pre ++ [input_dim self] -> pre <> [] -> 0 < numel pre ->
  exists out g',
    forward self input g = inr (out, g') /\
    shape out = pre ++ [output_dim self].
Proof.
  intros Htopk Hwf Hcfg Hqp Hin Hne Hbs.
  destruct (forward_select_ok self input g pre Htopk Hwf Hcfg Hqp Hin Hne Hbs)
    as (idx & w & g1 & Esel).
  destruct (forward_select_inr _ _ _ _ _ _ _ _ Htopk Esel)
    as (_ & _ & _ & _ & _ & _ & _ & Hidx & Hw & _ & Hrange & _).
  destruct Hwf as (_ & _ & Hv & Hsize & Hkeys & Hvalues).
  destruct Hcfg as (_ & _ & _ & _ & _ & _ & Vv).
  unfold forward. rewrite (bindM_step _ _ _ _ _ Esel).
  assert (Eo : EmbeddingBag (values self) idx w =
               inr (Tensor [numel pre; v_dim self]
                      (concat (map (fun p => bag_sum (chunks (size_ self) (v_dim self)
                                                        (data (values self)))
                                                (v_dim self) (fst p) (snd p))
                                   (combine (chunks (numel pre) (heads self * knn self)
                                                    (data idx))
                                            (chunks (numel pre) (heads self * knn self)
                                                    (data w))))))).
  { unfold EmbeddingBag. rewrite Hvalues, Hidx, Hw.
    rewrite (proj2 (shape_eqb_eq _ _) eq_refl). cbn [negb].
    assert (E : forallb (fun i => i <? size_ self) (data idx) = true).
    { apply forallb_forall. intros x Hx. rewrite Forall_forall in Hrange.
      apply Nat.ltb_lt. rewrite Hsize. unfold size in Hrange.
      rewrite Hkeys in Hrange. now apply Hrange. }
    rewrite E. reflexivity. }
  rewrite (bindM_lift _ _ _ _ Eo).
  destruct (F_dropout_ok (Tensor [numel pre; v_dim self]
                            (concat (map (fun p => bag_sum (chunks (size_ self) (v_dim self)
                                                              (data (values self)))
                                                      (v_dim self) (fst p) (snd p))
                                         (combine (chunks (numel pre) (heads self * knn self)
                                                          (data idx))
                                                  (chunks (numel pre) (heads self * knn self)
                                                          (data w))))))
              (value_dropout self) (training self) g1 Vv)
    as (o' & g2 & E2 & Hs2).
  rewrite (bindM_step _ _ _ _ _ E2). cbn [shape] in Hs2.
  destruct (Nat.leb_spec 2 (length pre)) as [Hlen | Hlen].
  - rewrite view_known, Hs2, numel_app.
    replace (numel [numel pre; v_dim self] =? numel pre * numel [v_dim self]) with true
      by (symmetry; apply Nat.eqb_eq; simpl; lia).
    unfold lift, ok. do 2 eexists. split; [reflexivity |]. cbn [shape]. now rewrite Hv.
  - unfold retM, ok. do 2 eexists. split; [reflexivity |].
    rewrite Hs2, <- Hv.
    destruct pre as [| p0 [| p1 pre']]; [contradiction | | simpl in Hlen; lia].
    cbn [numel fold_right app]. now rewrite Nat.mul_1_r.
Qed.

End ShapeClaims.

(** ** The executable instance meets the contracts and the laws *)

Section StableTopk.

Context {T : Type} {S : Scalar T}.

Lemma topk_stable_meets_spec (k : nat) (xs : list T) :
  total_preorder -> k <= length xs -> topk_spec k xs (topk_stable sleb k xs).
Proof.
  intros [Htot Htrans] Hk.
  destruct (topk_stable_facts sleb Htot Htrans szero k xs Hk)
    as (Hl & Hn & Hr & Hs & Hd).
  repeat split; auto.
  intros i j Hij Hj. rewrite length_map, Hl in Hj.
  rewrite !(nth_map_lt _ _ _ 0) by lia. now apply Hs.
Qed.

End StableTopk.

Lemma Qc_sleb_iff (x y : Qc) : sleb x y = true <-> (x <= y)%Qc.
Proof. apply Qle_bool_iff. Qed.

Lemma Qc_positive_iff (x : Qc) : positive x <-> (0 < x)%Qc.
Proof.
  unfold positive. split; intros H.
  - destruct (Qclt_le_dec 0 x) as [Hlt | Hle]; [exact Hlt |].
    apply Qc_sleb_iff in Hle. cbn in H, Hle. congruence.
  - destruct (sleb x szero) eqn:E; [| reflexivity].
    apply Qc_sleb_iff in E. exfalso. exact (Qclt_not_le _ _ H E).
Qed.

Lemma Qc_total_preorder : total_preorder (T := Qc).
Proof.
  split.
  - intros x y. rewrite !Qc_sleb_iff.
    destruct (Qclt_le_dec x y) as [H | H]; [left; now apply Qclt_le_weak | now right].
  - intros x y z. rewrite !Qc_sleb_iff. apply Qcle_trans.
Qed.

Lemma demo_topk_contract : topk_contract (B := demo_backend).
Proof.
  intros k xs Hk. apply (topk_stable_meets_spec (S := Qc_scalar)); [| exact Hk].
  apply Qc_total_preorder.
Qed.

Lemma demo_uniform_contract : uniform_contract (B := demo_backend).
Proof.
  intros seed low high n. cbn [RandomState_uniform demo_backend]. split.
  - apply repeat_length.
  - intros Hlh. apply Forall_forall. intros x Hx. apply repeat_spec in Hx. subst x.
    split; [| exact Hlh]. apply Qc_sleb_iff. apply Qcle_refl.
Qed.

Lemma Qc_semiring_laws : semiring_laws (T := Qc).
Proof.
  repeat split; intros; cbn [sadd smul szero Qc_scalar]; ring.
Qed.

Lemma Qc_softmax_laws : softmax_laws (T := Qc).
Proof.
  unfold softmax_laws. repeat split.
  - intros x. apply Qc_positive_iff. cbn [sexp Qc_scalar].
    unfold Qclt. cbn [this Q2Qc]. rewrite !Qred_correct.
    apply Qpower_0_lt. reflexivity.
  - intros a b Ha Hb. apply Qc_positive_iff in Ha. apply Qc_sleb_iff in Hb.
    apply Qc_positive_iff. cbn [sadd Qc_scalar].
    unfold Qclt, Qcle in *. cbn [this Q2Qc Qcplus szero Qc_scalar] in *.
    rewrite Qred_correct in Ha. rewrite Qred_correct in Hb.
    rewrite !Qred_correct. lra.
  - intros a Ha. apply Qc_positive_iff in Ha. apply Qc_sleb_iff.
    now apply Qclt_le_weak.
  - intros a s Ha Hs. apply Qc_positive_iff in Ha. apply Qc_positive_iff in Hs.
    apply Qc_sleb_iff. cbn [sdiv szero Qc_scalar].
    unfold Qclt, Qcle, Qcdiv, Qcmult, Qcinv in *. cbn [this Q2Qc szero Qc_scalar] in *.
    rewrite Qred_correct in Ha. rewrite Qred_correct in Hs.
    rewrite !Qred_correct.
    apply Qmult_le_0_compat; [lra |].
    apply Qlt_le_weak. now apply Qinv_lt_0_compat.
  - intros a b s. cbn [sdiv sadd Qc_scalar]. unfold Qcdiv. ring.
  - intros s _. cbn [sdiv szero Qc_scalar]. unfold Qcdiv. ring.
  - intros s Hs. apply Qc_positive_iff in Hs. cbn [sdiv sone Qc_scalar].
    unfold Qcdiv. apply Qcmult_inv_r. intros E. subst s.
    exact (Qclt_not_eq _ _ Hs eq_refl).
Qed.

(** ** Concrete runs *)

Lemma init_establishes_invariant {T G : Type} {S : Scalar T} {B : Backend T G}
      (i_dim o_dim : nat) (params : AttrDict) (g g' : G) (m : HashingMemory T) :
  __init__ i_dim o_dim params g = inr (m, g') -> module_wf m /\ training m = true.
Proof.
  intros H. unfold __init__ in H.
  inv_lift H as u Ea. apply assert_inr in Ea. apply andb_prop in Ea.
  destruct Ea as [E2 Ee]. apply Nat.leb_le in E2. apply Nat.eqb_eq in Ee.
  inv_lift H as ks Eks. inv_lift H as std Estd.
  stepM H as w g1 Ew. stepM H as qp g2 Eqp.
  unfold retM, ok in H. injection H as <- <-.
  pose proof (initialize_keys_shape _ _ _ _ Eks) as Hshape.
  unfold module_wf. cbn [k_dim v_dim output_dim size_ n_keys keys values heads training].
  repeat split; auto.
Qed.

Lemma demo_run_selection :
  _get_indices (G := nat) demo_memory demo_query demo_subkeys =
  inr (demo_scores, demo_indices).
Proof. vm_compute. reflexivity. Qed.

Lemma demo_run_select :
  forward_select demo_memory demo_input 0 =
  inr (([2; 1], 2, demo_selected, demo_weights), 0).
Proof. vm_compute. reflexivity. Qed.

Lemma demo_run_forward :
  forward (eval demo_memory) demo_input 0 = inr (demo_output, 0).
Proof. vm_compute. reflexivity. Qed.

Lemma demo_module_wf : module_wf demo_memory.
Proof. unfold module_wf. cbn. repeat split; lia. Qed.

Lemma demo_usable_config : usable_config demo_memory.
Proof. unfold usable_config. cbn. repeat split; try lia; try apply Qle_refl; discriminate. Qed.

Lemma demo_query_proj_contract (bs : nat) : query_proj_contract demo_memory bs.
Proof.
  intros x Hx. cbn [query_proj demo_memory training heads k_dim].
  destruct (F_linear_ok x (Tensor [4; 2] (map qz [1; 0; 0; 1; 1; 1; 2; 1]%Z)) bs 2 4 Hx eq_refl)
    as (q & E & Hq & _).
  exists q. split; [exact E | exact Hq].
Qed.

(** The selector on the two demo queries: scores (9, 8) with rows (6, 3)
    for the first, scores (12, 11) with rows (6, 8) for the second. *)
Example demo_selection_values :
  map this (data demo_scores) = [9 # 1; 8 # 1; 12 # 1; 11 # 1]%Q /\
  data demo_indices = [6; 3; 6; 8].
Proof. vm_compute. split; reflexivity. Qed.

(** The whole read on the demo input: the rows selected by the two heads
    for each of the two batch elements (row 3 is selected by both heads
    for the first), their weights, and the output. *)
Example demo_forward_values :
  data demo_selected = [6; 3; 5; 3;  6; 8; 5; 8] /\
  map this (data demo_weights) =
    [2 # 3; 1 # 3; 4096 # 4097; 1 # 4097;
     2 # 3; 1 # 3; 65536 # 65537; 1 # 65537]%Q /\
  shape demo_output = [2; 1; 2] /\
  map this (data demo_output) =
    [8 # 3; 45064 # 12291; 851996 # 196611; 917524 # 196611]%Q.
Proof. vm_compute. repeat split; reflexivity. Qed.

Lemma selector_returns_exact_topk_of_candidates_witness :
  topk_contract (B := demo_backend) /\
  _get_indices (G := nat) demo_memory demo_query demo_subkeys =
    inr (demo_scores, demo_indices) /\
  exists S1 S2 n,
    half_scores demo_memory demo_query demo_subkeys S1 S2 n /\
    forall b, b < 2 ->
      let K := 2 in
      let s1 := nth b (rows S1) [] in
      let s2 := nth b (rows S2) [] in
      let sc := nth b (rows demo_scores) [] in
      let ix := nth b (rows demo_indices) [] in
      topk_spec K s1 (topk1 K s1) /\ topk_spec K s2 (topk1 K s2) /\
      length sc = K /\ length ix = K /\ sorted_desc sc /\
      exists best,
        length best = K /\ NoDup best /\ (forall p, In p best -> p < K * K) /\
        (forall t, t < K ->
           nth t sc szero = cand_score K s1 s2 (nth t best 0) /\
           nth t ix 0 = cand_index K n s1 s2 (nth t best 0)) /\
        (forall p t, p < K * K -> ~ In p best -> t < K ->
           sleb (cand_score K s1 s2 p) (nth t sc szero) = true).
Proof.
  split; [exact demo_topk_contract |]. split; [exact demo_run_selection |].
  exact (selector_returns_exact_topk_of_candidates
           demo_memory demo_query demo_subkeys demo_scores demo_indices
           demo_topk_contract demo_run_selection).
Defined.

Lemma selected_index_names_value_row_witness :
  topk_contract (B := demo_backend) /\
  _get_indices (G := nat) demo_memory demo_query demo_subkeys =
    inr (demo_scores, demo_indices) /\
  exists S1 S2 n,
    half_scores demo_memory demo_query demo_subkeys S1 S2 n /\
    Forall (fun x => x < n ^ 2) (data demo_indices) /\
    forall b t, b < 2 -> t < 2 ->
      let s1 := nth b (rows S1) [] in
      let s2 := nth b (rows S2) [] in
      let x := nth t (nth b (rows demo_indices) []) 0 in
      x < n ^ 2 /\ x / n < n /\ x mod n < n /\
      In (x / n) (topk1 2 s1) /\ In (x mod n) (topk1 2 s2) /\
      nth t (nth b (rows demo_scores) []) szero =
        sadd (nth (x / n) s1 szero) (nth (x mod n) s2 szero).
Proof.
  split; [exact demo_topk_contract |]. split; [exact demo_run_selection |].
  exact (selected_index_names_value_row
           demo_memory demo_query demo_subkeys demo_scores demo_indices
           demo_topk_contract demo_run_selection).
Defined.

Lemma selected_indices_distinct_witness :
  topk_contract (B := demo_backend) /\
  _get_indices (G := nat) demo_memory demo_query demo_subkeys =
    inr (demo_scores, demo_indices) /\
  exists S1 S2 n,
    half_scores demo_memory demo_query demo_subkeys S1 S2 n /\
    (forall i1 i2 j1 j2, i2 < n -> j2 < n ->
       i1 * n + i2 = j1 * n + j2 -> i1 = j1 /\ i2 = j2) /\
    forall b, b < 2 ->
      NoDup (topk1 2 (nth b (rows S1) [])) /\
      NoDup (topk1 2 (nth b (rows S2) [])) /\
      length (nth b (rows demo_indices) []) = 2 /\
      NoDup (nth b (rows demo_indices) []).
Proof.
  split; [exact demo_topk_contract |]. split; [exact demo_run_selection |].
  exact (selected_indices_distinct
           demo_memory demo_query demo_subkeys demo_scores demo_indices
           demo_topk_contract demo_run_selection).
Defined.

(** C2 as stated fails: an input of shape (input_dim,), with no leading
    dimension, satisfies its premise, and [forward] raises [TypeError]
    (numpy's product of the empty tuple is the float 1.0, which [view]
    refuses as a size) instead of returning a tensor of shape
    (output_dim,).  An empty batch, of shape (0, input_dim), is refused as
    well: [view(bs, -1)] cannot infer a size when [bs] is 0. *)
Lemma forward_rejects_input_without_leading_dimension :
  shape demo_vector = [] ++ [input_dim demo_memory] /\
  forward demo_memory demo_vector 0 = inl TypeError /\
  ~ (exists out g',
        forward demo_memory demo_vector 0 = inr (out, g') /\
        shape out = [] ++ [output_dim demo_memory]) /\
  forward demo_memory (Tensor [0; 2] []) 0 = inl RuntimeError.
Proof.
  assert (E : forward demo_memory demo_vector 0 = inl TypeError)
    by (vm_compute; reflexivity).
  split; [reflexivity |]. split; [exact E |]. split.
  - intros (out & g' & H & _). rewrite E in H. discriminate.
  - vm_compute. reflexivity.
Qed.

Lemma forward_preserves_leading_shape_witness :
  topk_contract (B := demo_backend) /\
  module_wf demo_memory /\ usable_config demo_memory /\
  query_proj_contract demo_memory (numel [2; 1]) /\
  shape demo_input = [2; 1] ++ [input_dim demo_memory] /\
  [2; 1] <> [] /\ 0 < numel [2; 1] /\
  exists out g',
    forward demo_memory demo_input 0 = inr (out, g') /\
    shape out = [2; 1] ++ [output_dim demo_memory].
Proof.
  assert (H5 : shape demo_input = [2; 1] ++ [input_dim demo_memory]) by reflexivity.
  assert (H6 : [2; 1] <> @nil nat) by discriminate.
  assert (H7 : 0 < numel [2; 1]) by (vm_compute; lia).
  split; [exact demo_topk_contract |]. split; [exact demo_module_wf |].
  split; [exact demo_usable_config |].
  split; [exact (demo_query_proj_contract (numel [2; 1])) |].
  split; [exact H5 |]. split; [exact H6 |]. split; [exact H7 |].
  exact (forward_preserves_leading_shape demo_memory demo_input 0 [2; 1]
           demo_topk_contract demo_module_wf demo_usable_config
           (demo_query_proj_contract (numel [2; 1])) H5 H6 H7).
Defined.

Lemma output_is_weighted_sum_of_selected_rows_witness :
  semiring_laws (T := Qc) /\ wf (values demo_memory) /\
  forward (eval demo_memory) demo_input 0 = inr (demo_output, 0) /\
  exists pre bs idx w,
    forward_select (eval demo_memory) demo_input 0 = inr ((pre, bs, idx, w), 0) /\
    let d := size (values demo_memory) 1 in
    let table := rows (values demo_memory) in
    data demo_output =
      concat (map (fun p => weighted_row_sum table d (fst p) (snd p))
                  (combine (rows idx) (rows w))) /\
    forall b, b < size idx 0 ->
      firstn d (skipn (b * d) (data demo_output)) =
      weighted_row_sum table d (nth b (rows idx) []) (nth b (rows w) []).
Proof.
  assert (Hwf : wf (values demo_memory)) by reflexivity.
  split; [exact Qc_semiring_laws |]. split; [exact Hwf |].
  split; [exact demo_run_forward |].
  exact (output_is_weighted_sum_of_selected_rows Qc_semiring_laws
           demo_memory demo_input demo_output 0 0 Hwf demo_run_forward).
Defined.

Lemma keys_come_from_uniform_generator_witness :
  uniform_contract (B := demo_backend) /\
  (exists m g', __init__ (B := demo_backend) 2 2 demo_params 0 = inr (m, g')) /\
  (forall m g', __init__ (B := demo_backend) 2 2 demo_params 0 = inr (m, g') ->
     shape (keys m) = [2; 2; 3; 1] /\
     forall h j, h < 2 -> j < 2 ->
       exists kh khj,
         select0 (keys m) h = inr kh /\ select0 kh j = inr khj /\
         get_uniform_keys 3 1 (N.of_nat (2 * h + j)) = inr khj /\
         shape khj = [3; 1]).
Proof.
  pose proof (keys_come_from_uniform_generator 2 2 demo_params 0 demo_uniform_contract)
    as [Hex Hall].
  split; [exact demo_uniform_contract |]. split.
  - apply Hex; cbn; lia.
  - intros m g' H. destruct (Hall m g' H) as (Eh & En & Ek & Hs & Hb).
    rewrite Eh, En, Ek in Hs, Hb. cbn in Hs, Hb. split; [exact Hs | exact Hb].
Defined.

Lemma invalid_configuration_fails_fast_witness :
  __init__ (B := demo_backend) 2 2 odd_params 0 = inl AssertionError /\
  (exists m g', __init__ (B := demo_backend) 2 2 greedy_params 0 = inr (m, g')) /\
  (forall m g', __init__ (B := demo_backend) 2 2 greedy_params 0 = inr (m, g') ->
     forall input g0,
       (exists e, forward m input g0 = inl e) /\
       (exists e, forward (eval m) input g0 = inl e)).
Proof.
  split; [| split].
  - apply (invalid_configuration_fails_fast 2 2 odd_params 0).
    right. cbn. discriminate.
  - vm_compute. do 2 eexists. reflexivity.
  - apply (invalid_configuration_fails_fast 2 2 greedy_params 0). cbn. lia.
Defined.

Lemma eval_mode_ignores_dropout_rates_witness :
  valid_rate (1 # 2) /\ valid_rate (1 # 4) /\ valid_rate 1 /\
  forward (eval (with_dropout demo_memory (1 # 2) (1 # 4) 1)) demo_input 0 =
  forward (eval (with_dropout demo_memory 0 0 0)) demo_input 0.
Proof.
  assert (H1 : valid_rate (1 # 2)) by (split; discriminate).
  assert (H2 : valid_rate (1 # 4)) by (split; discriminate).
  assert (H3 : valid_rate 1) by (split; discriminate).
  split; [exact H1 |]. split; [exact H2 |]. split; [exact H3 |].
  exact (eval_mode_ignores_dropout_rates demo_memory (1 # 2) (1 # 4) 1 demo_input 0
           H1 H2 H3).
Defined.

(** ** The selection against all product keys *)

Section GlobalSelection.

Context {T G : Type} {S : Scalar T} {B : Backend T G}.






End GlobalSelection.

(** ** The half scores as inner products *)

Section ClosedForm.

Context {T G : Type} {S : Scalar T} {B : Backend T G}.


Lemma half_le (kd : nat) : kd / 2 <= kd.
Proof. pose proof (Nat.Div0.mul_div_le kd 2). lia. Qed.








End ClosedForm.

(** ** Which exceptions can be raised *)

Lemma raises_only_bind {A C} (P : error -> Prop) (c : result A) (k : A -> result C) :
  raises_only P c -> (forall a, c = inr a -> raises_only P (k a)) ->
  raises_only P (bind c k).
Proof.
  intros Hc Hk e H. destruct c as [e' | a]; simpl in H.
  - apply Hc. now inversion H.
  - exact (Hk a eq_refl e H).
Qed.

Lemma raises_only_ok {A} (P : error -> Prop) (a : A) : raises_only P (ok a).
Proof. intros e H. discriminate. Qed.

Lemma raises_only_inr {A} (P : error -> Prop) (c : result A) (a : A) :
  c = inr a -> raises_only P c.
Proof. intros -> e H. discriminate. Qed.

Lemma raises_only_impl {A} (P Q : error -> Prop) (c : result A) :
  (forall e, P e -> Q e) -> raises_only P c -> raises_only Q c.
Proof. intros HPQ H e He. apply HPQ. now apply H. Qed.

Lemma raises_only_mapM {A C} (P : error -> Prop) (f : A -> result C) (l : list A) :
  (forall x, In x l -> raises_only P (f x)) -> raises_only P (mapM f l).
Proof.
  induction l as [| x l IH]; intros H.
  - apply raises_only_ok.
  - cbn [mapM]. apply raises_only_bind; [apply H; now left |].
    intros y _. apply raises_only_bind; [apply IH; intros; apply H; now right |].
    intros ys _. apply raises_only_ok.
Qed.

Lemma view_raises {A} (t : tensor A) (sz : list (option nat)) :
  raises_only (eq RuntimeError) (view t sz).
Proof.
  intros e. unfold view.
  destruct (unknowns sz) as [| [| ?]].
  - destruct (_ =? _); intros H; inversion H; reflexivity.
  - destruct (_ && _); intros H; inversion H; reflexivity.
  - intros H; inversion H; reflexivity.
Qed.

Lemma expand_raises {A} (t : tensor A) (tgt : list nat) :
  raises_only (eq RuntimeError) (expand t tgt).
Proof. intros e. unfold expand. destruct (expandable _ _); intros H; inversion H; auto. Qed.

Lemma tmap2_raises {A C D} (f : A -> C -> D) (x : tensor A) (y : tensor C) :
  raises_only (eq RuntimeError) (tmap2 f x y).
Proof. intros e. unfold tmap2. destruct (shape_eqb _ _); intros H; inversion H; auto. Qed.

Lemma gather1_raises {A} (dflt : A) (t : tensor A) (index : tensor nat) :
  raises_only (eq RuntimeError) (gather1 dflt t index).
Proof.
  intros e. unfold gather1.
  destruct (shape t) as [| r [| c [| ? ?]]]; try (intros H; inversion H; reflexivity).
  destruct (shape index) as [| r' [| c' [| ? ?]]]; try (intros H; inversion H; reflexivity).
  destruct (_ && _); intros H; inversion H; reflexivity.
Qed.

Lemma cat1_raises {A} (ts : list (tensor A)) : raises_only (eq RuntimeError) (cat1 ts).
Proof.
  intros e. unfold cat1. destruct ts as [| t0 ts]; [intros H; inversion H; reflexivity |].
  destruct (shape t0) as [| d0 [| d1 rest]]; try (intros H; inversion H; reflexivity).
  destruct (forallb _ _); intros H; inversion H; reflexivity.
Qed.

Lemma cartesian_raises {A} (op : A -> A -> A) (bs knn : nat) (a b : tensor A) :
  raises_only (eq RuntimeError) (cartesian op bs knn a b).
Proof.
  unfold cartesian.
  apply raises_only_bind; [apply view_raises | intros a1 _].
  apply raises_only_bind; [apply expand_raises | intros a2 _].
  apply raises_only_bind; [apply view_raises | intros b1 _].
  apply raises_only_bind; [apply expand_raises | intros b2 _].
  apply raises_only_bind; [apply tmap2_raises | intros c _].
  apply view_raises.
Qed.

Lemma cartesian_inr_shape {A} (op : A -> A -> A) (bs knn : nat) (a b c : tensor A) :
  cartesian op bs knn a b = inr c -> exists m, shape c = [bs; m].
Proof.
  unfold cartesian. intros H. do 5 inv_bind H.
  rewrite view_rows in H. destruct (_ && _); [| discriminate].
  unfold ok in H. injection H as <-. eexists. reflexivity.
Qed.

Section RaisesProofs.

Context {T G : Type} {S : Scalar T} {B : Backend T G}.

Lemma F_linear_raises (x w : tensor T) : raises_only (eq RuntimeError) (F_linear x w).
Proof.
  intros e. unfold F_linear.
  destruct (shape x) as [| bs [| d [| ? ?]]]; try (intros H; inversion H; reflexivity).
  destruct (shape w) as [| n [| d' [| ? ?]]]; try (intros H; inversion H; reflexivity).
  destruct (_ =? _); intros H; inversion H; reflexivity.
Qed.

Lemma topk_dim1_raises (k : nat) (t : tensor T) :
  raises_only (eq RuntimeError) (topk_dim1 k t).
Proof.
  intros e. unfold topk_dim1.
  destruct (shape t) as [| r [| c [| ? ?]]]; try (intros H; inversion H; reflexivity).
  destruct (_ <=? _); intros H; inversion H; reflexivity.
Qed.

(** On a 2-D query with [k_dim] columns and sub-keys of shape (2, n, h),
    nothing but [RuntimeError] comes out of [_get_indices]: its two
    assertions hold, every index and slice is in range. *)
Lemma _get_indices_raises (self : HashingMemory T) (query subkeys : tensor T)
      (bs n h : nat) :
  shape query = [bs; k_dim self] -> shape subkeys = [2; n; h] ->
  raises_only (eq RuntimeError) (_get_indices self query subkeys).
Proof.
  intros Hq Hk.
  set (kd := k_dim self) in *. set (half := kd / 2) in *. set (K := knn self) in *.
  assert (Hh : half <= kd) by apply half_le.
  unfold _get_indices. fold kd K half.
  unfold tdim, size. rewrite Hq. cbn [length nth].
  rewrite !Nat.eqb_refl. cbn [andb assert]. rewrite bind_ok.
  destruct (select0_ok subkeys 0 2 _ Hk) as (k0 & -> & Hk0); [lia |].
  rewrite bind_ok. unfold len. rewrite Hk0. rewrite bind_ok.
  destruct (slice1_ok query 0 half bs kd Hq) as (q1 & -> & Hq1); try lia.
  rewrite bind_ok.
  destruct (slice1_ok query half kd bs kd Hq) as (q2 & -> & Hq2); try lia.
  rewrite bind_ok.
  apply raises_only_bind; [apply F_linear_raises | intros S1 ES1].
  destruct (select0_ok subkeys 1 2 _ Hk) as (k1 & -> & Hk1); [lia |].
  rewrite bind_ok.
  apply raises_only_bind; [apply F_linear_raises | intros S2 ES2].
  apply raises_only_bind; [apply topk_dim1_raises | intros [sc1 ix1] Et1].
  apply raises_only_bind; [apply topk_dim1_raises | intros [sc2 ix2] Et2].
  apply raises_only_bind; [apply cartesian_raises | intros all_scores Eas].
  apply raises_only_bind; [apply cartesian_raises | intros all_indices Eai].
  apply raises_only_bind; [apply topk_dim1_raises | intros [scores best] Et].
  apply raises_only_bind; [apply gather1_raises | intros indices Eg].
  destruct (cartesian_inr_shape _ _ _ _ _ _ Eas) as (m & Has).
  destruct (topk_dim1_inr _ _ _ _ Et) as (r & c & Hs & _ & -> & ->).
  rewrite Has in Hs. injection Hs as <- <-.
  destruct (gather1_inr _ _ _ _ Eg) as (r1 & c1 & r2 & c2 & _ & Hb & _ & _ & ->).
  cbn [shape] in Hb. injection Hb as <- <-. cbn [shape].
  rewrite (proj2 (shape_eqb_eq [bs; K] [bs; K]) eq_refl). cbn [andb assert].
  rewrite bind_ok. apply raises_only_ok.
Qed.

(** When [_get_indices] returns and when it raises.  On a 2-D query of
    [bs] rows and [k_dim] columns ([k_dim] even) and sub-keys of shape
    (2, n, k_dim // 2), the call returns exactly when the batch is not
    empty and [knn <= n]; otherwise it raises [RuntimeError] (from
    [topk] when there are too few keys, from [view(bs, -1)] when the
    batch is empty).  [knn = 0] is accepted here. *)
Theorem selector_returns_iff_batch_nonempty_and_enough_keys
        (self : HashingMemory T) (query subkeys : tensor T) (bs n : nat) :
  topk_contract -> k_dim self mod 2 = 0 ->
  shape query = [bs; k_dim self] -> shape subkeys = [2; n; k_dim self / 2] ->
  ((exists sc ix, _get_indices self query subkeys = inr (sc, ix)) <->
   0 < bs /\ knn self <= n) /\
  (bs = 0 \/ n < knn self -> _get_indices self query subkeys = inl RuntimeError).
Proof.
  intros Htopk Heven Hq Hk.
  assert (Hiff : (exists sc ix, _get_indices self query subkeys = inr (sc, ix)) <->
                 0 < bs /\ knn self <= n).
  { split.
    - intros (sc & ix & H).
      destruct (_get_indices_rows _ _ _ _ _ Htopk H)
        as (S1 & S2 & n' & _ & Hn & _ & _ & Hbs & Hle & _).
      unfold size in Hn, Hbs. rewrite Hk in Hn. rewrite Hq in Hbs.
      cbn [nth] in Hn, Hbs. subst n'. auto.
    - intros [Hbs Hle]. now apply (_get_indices_ok self query subkeys bs n). }
  split; [exact Hiff |].
  intros Hbad.
  destruct (_get_indices self query subkeys) as [e | [sc ix]] eqn:E.
  - f_equal. symmetry. exact (_get_indices_raises _ _ _ _ _ _ Hq Hk e E).
  - exfalso. assert (0 < bs /\ knn self <= n) by (apply Hiff; eauto). lia.
Qed.

End RaisesProofs.

(** ** [get_indices]: how the heads are laid out *)

(** Rows written batch element by batch element and, inside, head by
    head: row [b * h + i] is the row of head [i] for batch element [b]. *)
Lemma interleaved_row {A U} (f : nat -> U -> list A) (us : list U) (n k b i : nat) (d : U) :
  (forall b u, b < n -> In u us -> length (f b u) = k) ->
  b < n -> i < length us ->
  nth (b * length us + i)
      (chunks (n * length us) k
         (concat (map (fun b => concat (map (f b) us)) (seq 0 n)))) [] =
  f b (nth i us d).
Proof.
  intros Hf Hb Hi.
  set (h := length us) in *.
  set (F := fun b => concat (map (f b) us)).
  assert (LF : forall x, In x (seq 0 n) -> length (F x) = h * k).
  { intros x Hx. apply in_seq in Hx. unfold F.
    rewrite (length_concat_map _ k); [reflexivity |].
    intros u Hu. apply Hf; [lia | exact Hu]. }
  assert (Ll : length (concat (map F (seq 0 n))) = n * (h * k))
    by (rewrite (length_concat_map _ (h * k)), length_seq; auto).
  rewrite <- (chunks_chunks_nth n h k b i) by assumption.
  pose proof (chunks_concat_map F (h * k) (seq 0 n) LF) as E.
  rewrite length_seq in E. rewrite E.
  rewrite (nth_map_lt F (seq 0 n) b 0 []) by now rewrite length_seq.
  rewrite seq_nth by assumption. cbn [Nat.add]. unfold F.
  rewrite concat_nth_block.
  - rewrite length_map. fold h.
    rewrite (proj2 (Nat.ltb_lt _ _) Hi).
    apply (nth_map_lt (f b) us i d []). exact Hi.
  - apply Forall_map_length. intros u Hu. now apply Hf.
Qed.

Section HeadsLayout.

Context {T G : Type} {S : Scalar T} {B : Backend T G}.

(** The rows of the per-head view (bs, 1, knn) of a (bs, knn) tensor. *)
Lemma blocks0_view {A} (t u : tensor A) (bs K b : nat) :
  view t [Some bs; Some 1; Some K] = inr u -> b < bs ->
  nth b (blocks0 u) [] = nth b (chunks bs K (data t)) [].
Proof.
  intros H Hb.
  change [Some bs; Some 1; Some K] with (map Some [bs; 1; K]) in H.
  apply view_known_inr in H. destruct H as [_ ->].
  unfold blocks0. cbn [shape data hd tl numel fold_right].
  replace (1 * (K * 1)) with K by lia. reflexivity.
Qed.

(** A successful [get_indices] in full: the query is cut into
    (bs, heads, k_dim), [_get_indices] runs once per head on the batch of
    that head's queries with that head's keys, and row [b * heads + h] of
    either result is row [b] of what head [h] returned. *)
Lemma get_indices_layout (self : HashingMemory T) (query s : tensor T) (i : tensor nat) :
  topk_contract ->
  get_indices self query = inr (s, i) ->
  exists bs q3,
    view query [None; Some (heads self); Some (k_dim self)] = inr q3 /\
    q3 = Tensor [bs; heads self; k_dim self] (data query) /\
    shape query = [bs * heads self; k_dim self] /\
    shape s = [bs * heads self; knn self] /\
    shape i = [bs * heads self; knn self] /\
    0 < bs /\ 0 < heads self /\ 0 < knn self /\ 0 < k_dim self /\
    forall h, h < heads self ->
      exists q k sc ix,
        select1 q3 h = inr q /\ select0 (keys self) h = inr k /\
        _get_indices self q k = inr (sc, ix) /\
        forall b, b < bs ->
          nth (b * heads self + h) (rows s) [] = nth b (rows sc) [] /\
          nth (b * heads self + h) (rows i) [] = nth b (rows ix) [].
Proof.
  intros Htopk H.
  destruct (get_indices_inr _ _ _ _ Htopk H)
    as (bs & Hhs & HK & Hbs & Hkd & Hnum & Hs & Hi & _).
  unfold get_indices in H.
  step H as u0 Ea. apply assert_inr in Ea. apply andb_prop in Ea.
  destruct Ea as [Ed Ec]. apply Nat.eqb_eq in Ed. apply Nat.eqb_eq in Ec.
  step H as query3 Eq3. step H as bs0 Ebs.
  step H as outputs Eout. step H as ss Ess. step H as s0 Es0.
  step H as js Ejs. step H as i0 Ei0. step H as s' Es'. step H as i' Ei'.
  unfold ok in H. injection H as <- <-.
  set (K := knn self) in *. set (hs := heads self) in *. set (kd := k_dim self) in *.
  (* the shape of the query *)
  assert (Hq : shape query = [bs * hs; kd]).
  { unfold tdim in Ed. unfold size in Ec.
    destruct (shape query) as [| a [| c [| ? ?]]]; try discriminate.
    cbn [nth] in Ec. subst c. cbn [numel fold_right] in Hnum.
    f_equal. nia. }
  pose proof Eq3 as Eq3'.
  rewrite view3_lead in Eq3.
  destruct ((0 <? hs * kd) && (numel (shape query) mod (hs * kd) =? 0)); [| discriminate].
  unfold ok in Eq3. injection Eq3 as <-.
  rewrite Hnum in Ebs, Eq3'. rewrite Nat.div_mul in Ebs, Eq3' by nia.
  unfold len in Ebs. cbn [shape] in Ebs. unfold ok in Ebs. injection Ebs as <-.
  rewrite Hnum, Nat.div_mul in Eout by nia.
  exists bs, (Tensor [bs; hs; kd] (data query)).
  split; [exact Eq3' |].
  split; [reflexivity |].
  split; [exact Hq |]. split; [exact Hs |]. split; [exact Hi |].
  split; [exact Hbs |]. split; [exact Hhs |]. split; [exact HK |]. split; [exact Hkd |].
  (* the heads *)
  apply mapM_inr in Eout.
  destruct (Forall2_nth _ _ _ 0 (Tensor [] [], Tensor [] []) Eout) as [Lout Hout].
  rewrite length_seq in Lout, Hout.
  apply mapM_inr in Ess. apply mapM_inr in Ejs.
  destruct (Forall2_nth _ _ _ (Tensor [] [], Tensor [] []) (Tensor [] []) Ess) as [Lss Hss].
  destruct (Forall2_nth _ _ _ (Tensor [] [], Tensor [] []) (Tensor [] []) Ejs) as [Ljs Hjs].
  (* what each head returned *)
  assert (Hhead : forall h, h < hs ->
            exists q k sc ix,
              select1 (Tensor [bs; hs; kd] (data query)) h = inr q /\
              select0 (keys self) h = inr k /\
              _get_indices self q k = inr (sc, ix) /\
              nth h outputs (Tensor [] [], Tensor [] []) = (sc, ix) /\
              shape sc = [bs; K] /\ shape ix = [bs; K] /\
              length (data sc) = bs * K /\ length (data ix) = bs * K).
  { intros h Hh. specialize (Hout h Hh). rewrite seq_nth in Hout by assumption.
    cbn [Nat.add] in Hout.
    step Hout as q Eq. step Hout as k Ek.
    destruct (nth h outputs _) as [sc ix].
    destruct (select1_inr _ _ _ Eq) as (d0 & d1 & rest & Hs3 & _ & Hqs).
    cbn [shape] in Hs3. injection Hs3 as <- <- <-.
    destruct (_get_indices_row _ _ _ _ _ Htopk Hout)
      as (S1 & S2 & n & _ & _ & _ & _ & Hsc & Hix & Lsc & Lix & _).
    assert (Hq0 : size q 0 = bs) by (unfold size; now rewrite Hqs).
    rewrite Hq0 in *.
    exists q, k, sc, ix. repeat match goal with |- _ /\ _ => split end; auto. }
  (* the two concatenations *)
  destruct (cat1_inr _ _ Es0) as (d0 & d1 & rest & Hne & Hhd & _ & Hs0).
  destruct (cat1_inr _ _ Ei0) as (e0 & e1 & rest' & Hne' & Hhd' & _ & Hi0).
  assert (Sss : forall u, In u ss -> shape u = [bs; 1; K]).
  { intros u Hu. destruct (In_nth _ _ (Tensor [] []) Hu) as (h & Hh & <-).
    rewrite <- Lss in Hh. specialize (Hss h Hh).
    change [Some bs; Some 1; Some K] with (map Some [bs; 1; K]) in Hss.
    apply view_known_inr in Hss. destruct Hss as [_ ->]. reflexivity. }
  assert (Sjs : forall u, In u js -> shape u = [bs; 1; K]).
  { intros u Hu. destruct (In_nth _ _ (Tensor [] []) Hu) as (h & Hh & <-).
    rewrite <- Ljs in Hh. specialize (Hjs h Hh).
    change [Some bs; Some 1; Some K] with (map Some [bs; 1; K]) in Hjs.
    apply view_known_inr in Hjs. destruct Hjs as [_ ->]. reflexivity. }
  assert (In (hd (Tensor [] []) ss) ss) as Hin
    by (destruct ss; [contradiction | now left]).
  assert (In (hd (Tensor [] []) js) js) as Hin'
    by (destruct js; [contradiction | now left]).
  rewrite (Sss _ Hin) in Hhd. injection Hhd as <- <- <-.
  rewrite (Sjs _ Hin') in Hhd'. injection Hhd' as <- <- <-.
  apply view_inr_data in Es'. apply view_inr_data in Ei'.
  rewrite Hs0 in Es'. rewrite Hi0 in Ei'. cbn [data] in Es', Ei'.
  assert (Lss' : length ss = hs) by congruence.
  assert (Ljs' : length js = hs) by congruence.
  assert (Bss : forall b h, b < bs -> h < hs ->
            nth b (blocks0 (nth h ss (Tensor [] []))) [] =
            nth b (chunks bs K (data (fst (nth h outputs (Tensor [] [], Tensor [] []))))) []).
  { intros b h Hb Hh. apply (blocks0_view _ _ bs K b); [| exact Hb].
    apply Hss. lia. }
  assert (Bjs : forall b h, b < bs -> h < hs ->
            nth b (blocks0 (nth h js (Tensor [] []))) [] =
            nth b (chunks bs K (data (snd (nth h outputs (Tensor [] [], Tensor [] []))))) []).
  { intros b h Hb Hh. apply (blocks0_view _ _ bs K b); [| exact Hb].
    apply Hjs. lia. }
  intros h Hh.
  destruct (Hhead h Hh) as (q & k & sc & ix & Eq & Ek & Eg & En & Hsc & Hix & Lsc & Lix).
  exists q, k, sc, ix. split; [exact Eq |]. split; [exact Ek |]. split; [exact Eg |].
  intros b Hb.
  rewrite (rows_2d _ _ _ Hs), (rows_2d _ _ _ Hi), (rows_2d _ _ _ Hsc), (rows_2d _ _ _ Hix).
  rewrite Es', Ei'. rewrite <- Lss' at 1 2. rewrite <- Ljs' at 1 2.
  split.
  - rewrite (interleaved_row (fun b t => nth b (blocks0 t) []) ss bs K b h (Tensor [] []));
      try lia.
    + rewrite Bss by assumption. now rewrite En.
    + intros b' u Hb' Hu. destruct (In_nth _ _ (Tensor [] []) Hu) as (h' & Hh' & <-).
      rewrite Bss by lia.
      destruct (Hhead h' ltac:(lia)) as (_ & _ & sc' & ix' & _ & _ & _ & En' & _ & _ & L' & _).
      rewrite En'. cbn [fst]. rewrite chunks_nth by assumption.
      rewrite length_firstn, length_skipn. nia.
  - rewrite (interleaved_row (fun b t => nth b (blocks0 t) []) js bs K b h (Tensor [] []));
      try lia.
    + rewrite Bjs by assumption. now rewrite En.
    + intros b' u Hb' Hu. destruct (In_nth _ _ (Tensor [] []) Hu) as (h' & Hh' & <-).
      rewrite Bjs by lia.
      destruct (Hhead h' ltac:(lia)) as (_ & _ & sc' & ix' & _ & _ & _ & En' & _ & _ & _ & L').
      rewrite En'. cbn [snd]. rewrite chunks_nth by assumption.
      rewrite length_firstn, length_skipn. nia.
Qed.

End HeadsLayout.

(** ** [get_indices]: one call per head *)

Section HeadsClaims.

Context {T G : Type} {S : Scalar T} {B : Backend T G}.

(** The heads are interleaved.  A successful [get_indices] on a query of
    shape (bs * heads, k_dim) has run [_get_indices] once per head [h], on
    the queries [query.view(bs, heads, k_dim)[:, h]] with the keys
    [keys[h]], and row [b * heads + h] of the scores and of the indices it
    returns is row [b] of what head [h] returned: the rows of one batch
    element are consecutive, one per head. *)
Theorem get_indices_interleaves_heads
        (self : HashingMemory T) (query s : tensor T) (i : tensor nat) :
  topk_contract ->
  get_indices self query = inr (s, i) ->
  exists bs q3,
    0 < bs /\
    view query [None; Some (heads self); Some (k_dim self)] = inr q3 /\
    shape q3 = [bs; heads self; k_dim self] /\
    shape query = [bs * heads self; k_dim self] /\
    shape s = [bs * heads self; knn self] /\
    shape i = [bs * heads self; knn self] /\
    forall h, h < heads self ->
      exists q k sc ix,
        select1 q3 h = inr q /\ select0 (keys self) h = inr k /\
        _get_indices self q k = inr (sc, ix) /\
        forall b, b < bs ->
          nth (b * heads self + h) (rows s) [] = nth b (rows sc) [] /\
          nth (b * heads self + h) (rows i) [] = nth b (rows ix) [].
Proof.
  intros Htopk H.
  destruct (get_indices_layout _ _ _ _ Htopk H)
    as (bs & q3 & Ev & -> & Hq & Hs & Hi & Hbs & _ & _ & _ & Hheads).
  exists bs, (Tensor [bs; heads self; k_dim self] (data query)).
  repeat match goal with |- _ /\ _ => split end; auto.
Qed.

(** Nothing but [RuntimeError] comes out of [get_indices] on a 2-D query
    with [k_dim] columns when the keys have four dimensions, the second
    of size 2. *)
Lemma get_indices_raises (self : HashingMemory T) (query : tensor T) (m n h : nat) :
  shape query = [m; k_dim self] -> shape (keys self) = [heads self; 2; n; h] ->
  raises_only (eq RuntimeError) (get_indices self query).
Proof.
  intros Hq Hkeys. unfold get_indices.
  unfold tdim, size. rewrite Hq. cbn [length nth].
  rewrite !Nat.eqb_refl. cbn [andb assert]. rewrite bind_ok.
  apply raises_only_bind; [apply view_raises | intros q3 Eq3].
  rewrite view3_lead in Eq3. destruct (_ && _); [| discriminate].
  unfold ok in Eq3. injection Eq3 as <-.
  unfold len. cbn [shape]. rewrite bind_ok.
  apply raises_only_bind.
  - apply raises_only_mapM. intros i Hi. apply in_seq in Hi.
    destruct (select1_ok (Tensor [numel (shape query) / (heads self * k_dim self);
                                  heads self; k_dim self] (data query))
                i _ (heads self) [k_dim self] eq_refl) as (q & -> & Sq); [lia |].
    rewrite bind_ok.
    destruct (select0_ok (keys self) i (heads self) _ Hkeys) as (k & -> & Sk); [lia |].
    rewrite bind_ok. exact (_get_indices_raises _ _ _ _ _ _ Sq Sk).
  - intros outputs _.
    apply raises_only_bind; [apply raises_only_mapM; intros; apply view_raises |].
    intros ss _.
    apply raises_only_bind; [apply cat1_raises | intros s _].
    apply raises_only_bind; [apply raises_only_mapM; intros; apply view_raises |].
    intros js _.
    apply raises_only_bind; [apply cat1_raises | intros i _].
    apply raises_only_bind; [apply view_raises | intros s' _].
    apply raises_only_bind; [apply view_raises | intros i' _].
    apply raises_only_ok.
Qed.

(** When [get_indices] returns and what it raises.  On an object that
    satisfies the invariant of the constructor and a 2-D query of [m]
    rows and [k_dim] columns, [get_indices] returns exactly when there is
    at least one head, [1 <= knn <= n_keys], and [m] is a positive
    multiple of the number of heads; in every other case it raises
    [RuntimeError], never an assertion or an index error. *)
Theorem get_indices_returns_iff_configuration_usable
        (self : HashingMemory T) (query : tensor T) (m : nat) :
  topk_contract -> module_wf self -> shape query = [m; k_dim self] ->
  ((exists s i, get_indices self query = inr (s, i)) <->
   0 < heads self /\ 0 < knn self /\ knn self <= n_keys self /\
   0 < m /\ m mod heads self = 0) /\
  (forall e, get_indices self query = inl e -> e = RuntimeError).
Proof.
  intros Htopk Hwf Hq. pose proof Hwf as (Hk2 & Heven & _ & _ & Hkeys & _).
  split.
  - split.
    + intros (s & i & H).
      destruct (get_indices_inr _ _ _ _ Htopk H)
        as (bs & Hhs & HK & Hbs & Hkd & Hnum & _).
      rewrite Hq in Hnum. cbn [numel fold_right] in Hnum.
      assert (Hm : m = bs * heads self) by nia.
      destruct (get_indices_head0 _ _ _ H) as (q & k & r0 & Ek & Er).
      destruct (_get_indices_knn_le _ _ _ _ Er) as (k0 & Ek0 & Hle).
      destruct (select0_inr _ _ _ Ek) as (d0 & rest & Hs & _ & ->).
      rewrite Hkeys in Hs. injection Hs as <- <-.
      destruct (select0_inr _ _ _ Ek0) as (d0 & rest & Hs & _ & ->).
      cbn [shape] in Hs. injection Hs as <- <-.
      unfold size in Hle. cbn [shape nth] in Hle.
      repeat split; auto; try nia.
      rewrite Hm. apply Nat.Div0.mod_mul.
    + intros (Hhs & HK & Hle & Hm & Hdiv).
      assert (Em : m = m / heads self * heads self).
      { rewrite (Nat.div_mod_eq m (heads self)) at 1. rewrite Hdiv. lia. }
      apply (get_indices_ok self query (m / heads self)); auto.
      * now rewrite <- Em.
      * destruct (m / heads self); [simpl in Em; lia | lia].
  - intros e He. symmetry. exact (get_indices_raises _ _ _ _ _ Hq Hkeys e He).
Qed.

End HeadsClaims.

(** ** [forward]: the steps of a read *)

Section ForwardSteps.

Context {T G : Type} {S : Scalar T} {B : Backend T G}.

Lemma F_dropout_inr_valid (x o : tensor T) (p : Q) (tr : bool) (g g' : G) :
  F_dropout x p tr g = inr (o, g') -> valid_rate p.
Proof.
  unfold F_dropout.
  destruct (Qle_bool 0 p) eqn:E0; [| discriminate].
  destruct (Qle_bool p 1) eqn:E1; [| discriminate].
  intros _. split; now apply Qle_bool_iff.
Qed.

Lemma F_dropout_inl (x : tensor T) (p : Q) (tr : bool) (g : G) (e : error) :
  F_dropout x p tr g = inl e -> e = ValueError /\ ~ valid_rate p.
Proof.
  unfold F_dropout. intros H.
  destruct (Qle_bool 0 p && Qle_bool p 1) eqn:E; cbn [negb] in H.
  - destruct tr.
    + destruct (dropout_mask p (data x) g); discriminate.
    + discriminate.
  - unfold lift, raise in H. injection H as <-. split; [reflexivity |].
    intros [H0 H1]. apply Qle_bool_iff in H0. apply Qle_bool_iff in H1.
    rewrite H0, H1 in E. discriminate.
Qed.

Lemma last_dim_split (sh : list nat) (d : nat) (l : list nat) :
  rev sh = d :: l -> sh = rev l ++ [d] /\ removelast sh = rev l /\ last sh 0 = d.
Proof.
  intros H. assert (E : sh = rev l ++ [d]).
  { rewrite <- (rev_involutive sh), H. reflexivity. }
  split; [exact E |]. rewrite E. split; [apply removelast_last | apply last_last].
Qed.

Lemma as_size_np_prod_mul (pre : list nat) (hs n : nat) :
  as_size (py_mul (np_prod pre) hs) = inr n -> pre <> [] /\ n = numel pre * hs.
Proof.
  destruct pre as [| p0 pre']; [discriminate |].
  intros H. unfold np_prod, py_mul, as_size, ok in H. injection H as <-.
  split; [discriminate | reflexivity].
Qed.

Lemma as_size_np_prod (pre : list nat) (n : nat) :
  as_size (np_prod pre) = inr n -> pre <> [] /\ n = numel pre.
Proof.
  destruct pre as [| p0 pre']; [discriminate |].
  intros H. unfold np_prod, as_size, ok in H. injection H as <-.
  split; [discriminate | reflexivity].
Qed.

(** The steps of a successful first part of [forward]. *)
Lemma forward_select_steps (self : HashingMemory T) (input : tensor T) (g g' : G)
      (pre : list nat) (bs : nat) (idx : tensor nat) (w : tensor T) :
  forward_select self input g = inr ((pre, bs, idx, w), g') ->
  exists input1 g1 x q0 query s i,
    shape input = pre ++ [input_dim self] /\ pre <> [] /\ bs = numel pre /\
    F_dropout input (input_dropout self) (training self) g = inr (input1, g1) /\
    view input1 [None; Some (input_dim self)] = inr x /\
    query_proj self (training self) x = inr q0 /\
    numel (shape q0) = bs * heads self * k_dim self /\
    F_dropout (Tensor [bs * heads self; k_dim self] (data q0))
              (query_dropout self) (training self) g1 = inr (query, g') /\
    shape query = [bs * heads self; k_dim self] /\
    get_indices self query = inr (s, i) /\
    idx = Tensor [bs; heads self * knn self] (data i) /\
    w = Tensor [bs; heads self * knn self] (data (F_softmax s)).
Proof.
  intros H. unfold forward_select in H.
  inv_lift H as d Ed.
  inv_lift H as u Ea. apply assert_inr in Ea. apply Nat.eqb_eq in Ea.
  stepM H as input1 g1 Edrop1.
  inv_lift H as x Ex.
  inv_lift H as q0 Eqp.
  inv_lift H as bsh Ebsh.
  inv_lift H as query0 Eview.
  stepM H as query1 g2 Edrop2.
  inv_lift H as u' Eshape. apply assert_inr in Eshape. apply shape_eqb_eq in Eshape.
  inv_lift H as si Egi. destruct si as [scores indices].
  inv_lift H as bs0 Ebs.
  inv_lift H as indices0 Evi.
  inv_lift H as scores0 Evs.
  unfold retM, ok in H. injection H as <- <- <- <- <-.
  destruct (rev (shape input)) as [| d0 l] eqn:Er; [discriminate |].
  unfold ok in Ed. injection Ed as ->.
  destruct (last_dim_split _ _ _ Er) as (Hsh & Hpre & _).
  destruct (as_size_np_prod_mul _ _ _ Ebsh) as [Hne ->].
  destruct (as_size_np_prod _ _ Ebs) as [_ ->].
  set (pre := removelast (shape input)) in *.
  match type of Eview with
  | view _ [Some ?a; Some ?b] = _ =>
      change [Some a; Some b] with (map Some [a; b]) in Eview
  end.
  apply view_known_inr in Eview. destruct Eview as [Hn ->].
  match type of Evi with
  | view _ [Some ?a; Some ?b] = _ =>
      change [Some a; Some b] with (map Some [a; b]) in Evi, Evs
  end.
  apply view_known_inr in Evi. destruct Evi as [_ ->].
  apply view_known_inr in Evs. destruct Evs as [_ ->].
  exists input1, g1, x, q0, query1, scores, indices.
  repeat match goal with |- _ /\ _ => split end; auto.
  - now rewrite Hpre, <- Ea.
  - rewrite Hn. cbn [numel fold_right]. lia.
Qed.

(** The embedding bag accepts what the first part of [forward] hands it. *)
Lemma EmbeddingBag_after_select (self : HashingMemory T) (input : tensor T) (g g' : G)
      (pre : list nat) (bs : nat) (idx : tensor nat) (w : tensor T) :
  topk_contract -> module_wf self ->
  forward_select self input g = inr ((pre, bs, idx, w), g') ->
  exists o, EmbeddingBag (values self) idx w = inr o /\ shape o = [bs; v_dim self].
Proof.
  intros Htopk (_ & _ & Hv & Hsize & Hkeys & Hvalues) H.
  destruct (forward_select_inr _ _ _ _ _ _ _ _ Htopk H)
    as (_ & _ & _ & _ & _ & _ & _ & Hidx & Hw & _ & Hrange & _).
  unfold EmbeddingBag. rewrite Hvalues, Hidx, Hw.
  rewrite (proj2 (shape_eqb_eq _ _) eq_refl). cbn [negb].
  assert (E : forallb (fun i => i <? size_ self) (data idx) = true).
  { apply forallb_forall. intros x Hx. rewrite Forall_forall in Hrange.
    apply Nat.ltb_lt. rewrite Hsize. unfold size in Hrange.
    rewrite Hkeys in Hrange. now apply Hrange. }
  rewrite E. cbn [negb]. eexists. split; reflexivity.
Qed.

End ForwardSteps.

(** ** [forward]: when it returns *)

Section ForwardClaims.

Context {T G : Type} {S : Scalar T} {B : Backend T G}.

(** A read that returns was made with a usable configuration. *)
Lemma forward_inr_config
      (self : HashingMemory T) (input out : tensor T) (g g' : G) :
  topk_contract -> module_wf self ->
  forward self input g = inr (out, g') ->
  usable_config self.
Proof.
  intros Htopk Hwf H.
  destruct (forward_inr _ _ _ _ _ H)
    as (pre & bs & idx & w & g1 & o & o' & Esel & Eo & Edrop & _ & Hout).
  destruct (forward_select_inr _ _ _ _ _ _ _ _ Htopk Esel)
    as (Hpre & Hne & Hbs & _ & Hpos & Hhs & HK & _).
  destruct (forward_select_steps _ _ _ _ _ _ _ _ Esel)
    as (input1 & g0 & x & q0 & query & s & i & Hsh & _ & _ & Ed1 & Ex & _ & _ & Ed2
        & _ & Egi & _).
  pose proof Hwf as (_ & _ & Hv & _ & Hkeys & _).
  unfold usable_config.
  split; [exact Hhs |]. split; [exact HK |]. split.
  { destruct (get_indices_head0 _ _ _ Egi) as (q & k & r0 & Ek & Er).
    destruct (_get_indices_knn_le _ _ _ _ Er) as (k0 & Ek0 & Hle).
    destruct (select0_inr _ _ _ Ek) as (d0 & rest & Hs & _ & ->).
    rewrite Hkeys in Hs. injection Hs as <- <-.
    destruct (select0_inr _ _ _ Ek0) as (d0 & rest & Hs & _ & ->).
    cbn [shape] in Hs. injection Hs as <- <-.
    unfold size in Hle. cbn [shape nth] in Hle. exact Hle. }
  split.
  { rewrite view_cols in Ex.
    destruct (Nat.ltb_spec 0 (input_dim self)) as [Hi | Hi]; [exact Hi | discriminate]. }
  split; [exact (F_dropout_inr_valid _ _ _ _ _ _ Ed1) |].
  split; [exact (F_dropout_inr_valid _ _ _ _ _ _ Ed2) |].
  exact (F_dropout_inr_valid _ _ _ _ _ _ Edrop).
Qed.

(** [forward] returns only on a usable configuration and a usable input.
    Whenever a read on an object that satisfies the invariant of the
    constructor returns a tensor, the input had at least one leading
    dimension and a last dimension of size [input_dim], the batch was not
    empty, there is at least one head, [1 <= knn <= n_keys],
    [input_dim >= 1], the three dropout probabilities lie in [0, 1], and
    the output has the leading sizes of the input followed by
    [output_dim]. *)
Theorem forward_returns_only_on_usable_configuration
        (self : HashingMemory T) (input out : tensor T) (g g' : G) :
  topk_contract -> module_wf self ->
  forward self input g = inr (out, g') ->
  let pre := removelast (shape input) in
  pre <> [] /\ 0 < numel pre /\ shape input = pre ++ [input_dim self] /\
  usable_config self /\ shape out = pre ++ [output_dim self].
Proof.
  intros Htopk Hwf H pre0.
  destruct (forward_inr _ _ _ _ _ H)
    as (pre & bs & idx & w & g1 & o & o' & Esel & Eo & Edrop & _ & Hout).
  destruct (forward_select_inr _ _ _ _ _ _ _ _ Htopk Esel)
    as (Hpre & Hne & Hbs & _ & Hpos & Hhs & HK & _).
  destruct (forward_select_steps _ _ _ _ _ _ _ _ Esel)
    as (input1 & g0 & x & q0 & query & s & i & Hsh & _ & _ & Ed1 & Ex & _ & _ & Ed2
        & _ & Egi & _).
  destruct (EmbeddingBag_after_select _ _ _ _ _ _ _ _ Htopk Hwf Esel) as (o2 & Eo2 & So).
  rewrite Eo in Eo2. injection Eo2 as <-.
  destruct (F_dropout_inr _ _ _ _ _ _ Edrop) as [So' _].
  pose proof Hwf as (_ & _ & Hv & _ & Hkeys & _).
  unfold pre0. rewrite <- Hpre. subst bs.
  split; [exact Hne |]. split; [exact Hpos |]. split; [exact Hsh |]. split.
  - (* the configuration *)
    exact (forward_inr_config self input out g g' Htopk Hwf H).
  - (* the shape of the output *)
    rewrite Hout, <- Hv. destruct (Nat.leb_spec 2 (length pre)) as [Hl | Hl];
      [reflexivity |].
    rewrite So', So.
    destruct pre as [| p0 [| p1 pre']]; [contradiction | | simpl in Hl; lia].
    cbn [numel fold_right app]. now rewrite Nat.mul_1_r.
Qed.

(** How [forward] merges heads and neighbours.  After the first part of a
    successful read, row [b] of the indices handed to the embedding bag is
    the concatenation, head after head, of the rows [b * heads + h] that
    [get_indices] returned, and row [b] of the weights is the
    concatenation of the softmax of each of these rows of scores: the
    weights of a head are normalised over the [knn] scores of that head
    for that batch element. *)
Theorem forward_merges_heads_of_each_batch_element
        (self : HashingMemory T) (input : tensor T) (g g' : G)
        (pre : list nat) (bs : nat) (idx : tensor nat) (w : tensor T) :
  topk_contract ->
  forward_select self input g = inr ((pre, bs, idx, w), g') ->
  exists query s i,
    get_indices self query = inr (s, i) /\
    shape query = [bs * heads self; k_dim self] /\
    shape idx = [bs; heads self * knn self] /\
    shape w = [bs; heads self * knn self] /\
    forall b h, b < bs -> h < heads self ->
      firstn (knn self) (skipn (h * knn self) (nth b (rows idx) [])) =
        nth (b * heads self + h) (rows i) [] /\
      firstn (knn self) (skipn (h * knn self) (nth b (rows w) [])) =
        softmax_row (nth (b * heads self + h) (rows s) []).
Proof.
  intros Htopk H.
  destruct (forward_select_steps _ _ _ _ _ _ _ _ H)
    as (input1 & g0 & x & q0 & query & s & i & _ & _ & _ & _ & _ & _ & _ & _
        & Hq & Egi & -> & ->).
  exists query, s, i. split; [exact Egi |]. split; [exact Hq |].
  split; [reflexivity |]. split; [reflexivity |].
  destruct (get_indices_inr _ _ _ _ Htopk Egi)
    as (bs' & Hhs & HK & Hbs' & Hkd & Hnum & Hs & Hi & Ls & Li & _).
  rewrite Hq in Hnum. cbn [numel fold_right] in Hnum.
  assert (bs' = bs) by nia. subst bs'.
  set (K := knn self) in *. set (hs := heads self) in *.
  intros b h Hb Hh.
  rewrite (rows_2d (Tensor [bs; hs * K] (data i)) bs (hs * K) eq_refl).
  rewrite (rows_2d (Tensor [bs; hs * K] (data (F_softmax s))) bs (hs * K) eq_refl).
  cbn [data].
  destruct (F_softmax_data s _ _ Hs) as [_ Dw].
  set (C := chunks (bs * hs) K (data s)) in *.
  assert (FC : Forall (fun r => length r = K) C)
    by (apply chunks_Forall_length; lia).
  assert (LC : length C = bs * hs) by apply chunks_length.
  assert (Lsm : forall r, In r C -> length (softmax_row r) = K).
  { intros r Hr. unfold softmax_row. rewrite !length_map.
    rewrite Forall_forall in FC. now apply FC. }
  assert (Lw : length (data (F_softmax s)) = bs * (hs * K)).
  { rewrite Dw, (length_concat_map _ K), LC by exact Lsm. lia. }
  assert (Hi' : b * hs + h < bs * hs) by nia.
  split.
  - rewrite chunks_chunks_nth by (try assumption; lia).
    now rewrite (rows_2d _ _ _ Hi).
  - rewrite chunks_chunks_nth by assumption.
    rewrite Dw. rewrite <- LC at 1. rewrite chunks_concat_map by exact Lsm.
    rewrite (rows_2d _ _ _ Hs). fold C.
    apply (nth_map_lt softmax_row C _ [] []). now rewrite LC.
Qed.

(** Outside training a read neither uses nor advances the random
    generator: there is one result, a tensor or an exception, that
    [forward] gives from every generator state, and it hands the state
    back unchanged. *)
Theorem eval_forward_leaves_generator_untouched
        (self : HashingMemory T) (input : tensor T) :
  training self = false ->
  exists r : result (tensor T),
    forall g : G,
      forward self input g =
      match r with
      | inl e => inl e
      | inr out => inr (out, g)
      end.
Proof.
  intros Htr.
  assert (Hpure : forall {A C} (c : M G A) (k : A -> M G C),
            (exists r, forall g, c g = lift r g) ->
            (forall a, exists r, forall g, k a g = lift r g) ->
            exists r, forall g, bindM c k g = lift r g).
  { intros A C c k [[e | a] Hc] Hk.
    - exists (inl e). intros g. unfold bindM. now rewrite Hc.
    - destruct (Hk a) as [r Hr]. exists r. intros g. unfold bindM.
      rewrite Hc. cbn. apply Hr. }
  assert (Hlift : forall {A} (c : result A), exists r, forall g : G, lift c g = lift r g)
    by (intros A c; exists c; reflexivity).
  assert (Hdrop : forall x p, exists r, forall g : G, F_dropout x p false g = lift r g).
  { intros x p. unfold F_dropout.
    destruct (negb (Qle_bool 0 p && Qle_bool p 1)).
    - exists (inl ValueError). reflexivity.
    - exists (inr x). reflexivity. }
  assert (Hret : forall {A} (a : A), exists r, forall g : G, retM a g = lift r g)
    by (intros A a; exists (inr a); reflexivity).
  assert (Hsel : exists r, forall g, forward_select self input g = lift r g).
  { unfold forward_select. rewrite Htr.
    apply Hpure; [apply Hlift | intros d].
    apply Hpure; [apply Hlift | intros _].
    apply Hpure; [apply Hdrop | intros input1].
    apply Hpure; [apply Hlift | intros x].
    apply Hpure; [apply Hlift | intros q0].
    apply Hpure; [apply Hlift | intros bsh].
    apply Hpure; [apply Hlift | intros query0].
    apply Hpure; [apply Hdrop | intros query1].
    apply Hpure; [apply Hlift | intros _].
    apply Hpure; [apply Hlift | intros [scores indices]].
    apply Hpure; [apply Hlift | intros bs].
    apply Hpure; [apply Hlift | intros indices0].
    apply Hpure; [apply Hlift | intros scores0].
    apply Hret. }
  assert (Hfw : exists r, forall g, forward self input g = lift r g).
  { unfold forward. rewrite Htr.
    apply Hpure; [exact Hsel | intros [[[pre bs] idx] w]].
    apply Hpure; [apply Hlift | intros o].
    apply Hpure; [apply Hdrop | intros o'].
    destruct (2 <=? length pre); [apply Hlift | apply Hret]. }
  destruct Hfw as [r Hr]. exists r. intros g. rewrite Hr.
  destruct r; reflexivity.
Qed.

End ForwardClaims.

(** ** [forward]: the softmax of each head *)

Section SoftmaxPerHead.

Context {T G : Type} {S : Scalar T} {B : Backend T G}.

(** The rows of the merged view (bs, heads * knn) of what [get_indices]
    returned. *)
Lemma merged_rows (s : tensor T) (i : tensor nat) (bs hs K : nat) :
  shape s = [bs * hs; K] -> shape i = [bs * hs; K] ->
  length (data s) = bs * hs * K -> length (data i) = bs * hs * K ->
  forall b h, b < bs -> h < hs ->
    firstn K (skipn (h * K) (nth b (rows (Tensor [bs; hs * K] (data i))) [])) =
      nth (b * hs + h) (rows i) [] /\
    firstn K (skipn (h * K)
                (nth b (rows (Tensor [bs; hs * K] (data (F_softmax s)))) [])) =
      softmax_row (nth (b * hs + h) (rows s) []).
Proof.
  intros Hs Hi Ls Li b h Hb Hh.
  rewrite (rows_2d (Tensor [bs; hs * K] (data i)) bs (hs * K) eq_refl).
  rewrite (rows_2d (Tensor [bs; hs * K] (data (F_softmax s))) bs (hs * K) eq_refl).
  cbn [data].
  destruct (F_softmax_data s _ _ Hs) as [_ Dw].
  set (C := chunks (bs * hs) K (data s)) in *.
  assert (LC : length C = bs * hs) by apply chunks_length.
  assert (Lsm : forall r, In r C -> length (softmax_row r) = K).
  { intros r Hr. unfold softmax_row. rewrite !length_map.
    assert (FC : Forall (fun r => length r = K) C)
      by (apply chunks_Forall_length; lia).
    rewrite Forall_forall in FC. now apply FC. }
  split.
  - rewrite chunks_chunks_nth by (try assumption; lia).
    now rewrite (rows_2d _ _ _ Hi).
  - rewrite chunks_chunks_nth; try assumption.
    + rewrite Dw. rewrite <- LC at 1. rewrite chunks_concat_map by exact Lsm.
      rewrite (rows_2d _ _ _ Hs). fold C.
      apply (nth_map_lt softmax_row C _ [] []). rewrite LC. nia.
    + rewrite Dw, (length_concat_map _ K), LC by exact Lsm. lia.
Qed.

(** C4.  The weights that [forward] hands to the embedding bag are, for
    every head [h] and every batch element [b], the softmax of the [knn]
    scores that [_get_indices] returned for that head and that batch
    element, and of these alone: with [q] the queries of head [h]
    ([query.view(bs, heads, k_dim)[:, h]], for the [query] on which
    [forward] calls [get_indices]) and [sc] the scores that
    [_get_indices(q, keys[h])] returns, the [knn] weights of row [b]
    that start at position [h * knn] are [softmax_row] of row [b] of
    [sc].  These [knn] weights are non-negative and add up to one. *)
Theorem softmax_normalises_each_head
        (self : HashingMemory T) (input : tensor T) (g g' : G)
        (pre : list nat) (bs : nat) (idx : tensor nat) (w : tensor T) :
  topk_contract -> softmax_laws ->
  forward_select self input g = inr ((pre, bs, idx, w), g') ->
  exists query q3 s i,
    get_indices self query = inr (s, i) /\
    shape query = [bs * heads self; k_dim self] /\
    view query [None; Some (heads self); Some (k_dim self)] = inr q3 /\
    forall h, h < heads self ->
      exists q k sc ix,
        select1 q3 h = inr q /\ select0 (keys self) h = inr k /\
        _get_indices self q k = inr (sc, ix) /\
        forall b, b < bs ->
          let row := nth b (rows sc) [] in
          let ws := firstn (knn self) (skipn (h * knn self) (nth b (rows w) [])) in
          length row = knn self /\
          ws = softmax_row row /\
          length ws = knn self /\
          Forall (fun x => sleb szero x = true) ws /\
          ssum ws = sone.
Proof.
  intros Htopk L H.
  destruct (forward_select_steps _ _ _ _ _ _ _ _ H)
    as (input1 & g0 & x & q0 & query & s & i & _ & _ & _ & _ & _ & _ & _ & _
        & Hq & Egi & _ & ->).
  destruct (get_indices_layout _ _ _ _ Htopk Egi)
    as (bs' & q3 & Ev & _ & Hq' & Hs & Hi & Hbs & Hhs & HK & _ & Hheads).
  destruct (get_indices_inr _ _ _ _ Htopk Egi)
    as (bs'' & _ & _ & _ & _ & _ & Hs'' & _ & Ls & Li & _).
  assert (bs' = bs) by (rewrite Hq in Hq'; injection Hq' as E; nia). subst bs'.
  assert (bs'' = bs) by (rewrite Hs in Hs''; injection Hs'' as E; nia). subst bs''.
  exists query, q3, s, i.
  split; [exact Egi |]. split; [exact Hq |]. split; [exact Ev |].
  intros h Hh.
  destruct (Hheads h Hh) as (q & k & sc & ix & Eq & Ek & Eg & Hrows).
  exists q, k, sc, ix.
  split; [exact Eq |]. split; [exact Ek |]. split; [exact Eg |].
  intros b Hb row ws.
  destruct (Hrows b Hb) as [Rs _].
  destruct (merged_rows s i bs (heads self) (knn self) Hs Hi Ls Li b h Hb Hh) as [_ Ew].
  rewrite Rs in Ew. fold row in Ew. fold ws in Ew.
  assert (Lrow : length row = knn self).
  { unfold row. rewrite <- Rs, (rows_2d _ _ _ Hs).
    assert (F : Forall (fun r => length r = knn self)
                  (chunks (bs * heads self) (knn self) (data s)))
      by (apply chunks_Forall_length; lia).
    rewrite Forall_forall in F. apply F, nth_In. rewrite chunks_length. nia. }
  assert (Hne : row <> []).
  { intros E. rewrite E in Lrow. simpl in Lrow. lia. }
  destruct (softmax_row_normalised row L Hne) as (L1 & L2 & L3).
  rewrite Ew. split; [exact Lrow |]. split; [reflexivity |].
  split; [congruence |]. split; [exact L2 | exact L3].
Qed.

End SoftmaxPerHead.

(** ** [forward]: what its exceptions mean *)

Section ForwardErrors.

Context {T G : Type} {S : Scalar T} {B : Backend T G}.

Lemma bindM_raises {A C} (P : error -> Prop) (c : M G A) (k : A -> M G C) (g : G) :
  (forall e, c g = inl e -> P e) ->
  (forall a g', c g = inr (a, g') -> forall e, k a g' = inl e -> P e) ->
  forall e, bindM c k g = inl e -> P e.
Proof.
  intros Hc Hk e. unfold bindM. destruct (c g) as [e' | [a g']].
  - intros H. apply Hc. now inversion H.
  - now apply Hk.
Qed.

Lemma lift_inl {A} (c : result A) (g : G) (e : error) : lift c g = inl e -> c = inl e.
Proof. unfold lift. destruct c; intros H; [now inversion H | discriminate]. Qed.

Lemma view2_ok {A} (t : tensor A) (a b : nat) :
  numel (shape t) = a * b ->
  view t [Some a; Some b] = inr (Tensor [a; b] (data t)).
Proof.
  intros H. change [Some a; Some b] with (map Some [a; b]).
  rewrite view_known.
  replace (numel (shape t) =? numel [a; b]) with true; [reflexivity |].
  symmetry. apply Nat.eqb_eq. rewrite H. cbn [numel fold_right]. lia.
Qed.

(** Every exception of the first part of [forward] has its cause in the
    call, when the query network honours its contract on the batch. *)
Lemma forward_select_raises (self : HashingMemory T) (input : tensor T) (g : G) :
  topk_contract -> module_wf self ->
  query_proj_contract self (numel (removelast (shape input))) ->
  forall e, forward_select self input g = inl e ->
    forward_error_cause self input e.
Proof.
  intros Htopk Hwf Hc. pose proof Hwf as (Hk2 & Heven & Hv & Hsize & Hkeys & Hvalues).
  unfold forward_select.
  (* input.shape[-1] *)
  apply bindM_raises.
  { intros e He. apply lift_inl in He.
    destruct (rev (shape input)) as [| d l] eqn:Er; [| discriminate].
    injection He as <-. cbn.
    rewrite <- (rev_involutive (shape input)), Er. reflexivity. }
  intros d g0 Ed. apply lift_inr in Ed. destruct Ed as [Ed ->].
  destruct (rev (shape input)) as [| d0 l] eqn:Er; [discriminate |].
  unfold ok in Ed. injection Ed as ->.
  destruct (last_dim_split _ _ _ Er) as (Hsh & Hpre & Hlast).
  cbv zeta. rewrite Hpre in *. set (pre := rev l) in *.
  (* the assertion on the last size *)
  apply bindM_raises.
  { intros e He. apply lift_inl in He. unfold assert in He.
    destruct (Nat.eqb_spec d (input_dim self)) as [| Hd]; [discriminate |].
    injection He as <-. cbn. split.
    - rewrite Hsh. destruct pre; discriminate.
    - now rewrite Hlast. }
  intros u g0 Ea. apply lift_inr in Ea. destruct Ea as [Ea ->].
  apply assert_inr in Ea. apply Nat.eqb_eq in Ea. subst d.
  (* dropout on the input *)
  apply bindM_raises.
  { intros e He. apply F_dropout_inl in He. destruct He as [-> Hbad].
    cbn. now left. }
  intros input1 g1 Ed1. destruct (F_dropout_inr _ _ _ _ _ _ Ed1) as [S1 _].
  assert (Hnum : numel (shape input1) = numel pre * input_dim self).
  { rewrite S1, Hsh, numel_app. cbn [numel fold_right]. lia. }
  (* the batch as a matrix *)
  apply bindM_raises.
  { intros e He. apply lift_inl in He. pose proof (view_raises _ _ e He) as <-.
    cbn. right; right; right; left.
    rewrite view_cols, Hnum in He.
    destruct (Nat.ltb_spec 0 (input_dim self)) as [Hi | Hi]; [| lia].
    rewrite Nat.Div0.mod_mul in He. discriminate. }
  intros x g0 Ex. apply lift_inr in Ex. destruct Ex as [Ex ->].
  assert (Hx : 0 < input_dim self /\ shape x = [numel pre; input_dim self]).
  { rewrite view_cols, Hnum in Ex.
    destruct (Nat.ltb_spec 0 (input_dim self)) as [Hi | Hi]; [| discriminate].
    rewrite Nat.Div0.mod_mul in Ex. cbn [andb Nat.eqb] in Ex. unfold ok in Ex.
    injection Ex as <-. split; [exact Hi |]. cbn [shape].
    now rewrite Nat.div_mul by lia. }
  destruct Hx as [Hi Sx].
  (* the query network *)
  apply bindM_raises.
  { intros e He. apply lift_inl in He.
    destruct (Hc x Sx) as (q & Eq' & _). rewrite Eq' in He. discriminate. }
  intros q0 g0 Eq. apply lift_inr in Eq. destruct Eq as [Eq ->].
  destruct (Hc x Sx) as (q & Eq' & Sq). rewrite Eq in Eq'. injection Eq' as <-.
  (* bs * heads *)
  apply bindM_raises.
  { intros e He. apply lift_inl in He.
    destruct pre as [| p0 pre'] eqn:Ep; [| discriminate].
    cbn in He. injection He as <-. cbn. now rewrite Hsh. }
  intros bsh g0 Eb. apply lift_inr in Eb. destruct Eb as [Eb ->].
  destruct (as_size_np_prod_mul _ _ _ Eb) as [Hne ->].
  (* the queries of all heads *)
  apply bindM_raises.
  { intros e He. apply lift_inl in He.
    exfalso. rewrite view2_ok in He; [discriminate |].
    rewrite Sq. cbn [numel fold_right]. lia. }
  intros query0 g0 Ev. apply lift_inr in Ev. destruct Ev as [Ev ->].
  change [Some (numel pre * heads self); Some (k_dim self)]
    with (map Some [numel pre * heads self; k_dim self]) in Ev.
  apply view_known_inr in Ev. destruct Ev as [_ ->].
  (* dropout on the queries *)
  apply bindM_raises.
  { intros e He. apply F_dropout_inl in He. destruct He as [-> Hbad].
    cbn. right. now left. }
  intros query1 g2 Ed2. destruct (F_dropout_inr _ _ _ _ _ _ Ed2) as [S2 _].
  cbn [shape] in S2.
  (* the assertion on the shape of the queries holds *)
  apply bindM_raises.
  { intros e He. apply lift_inl in He.
    rewrite S2, (proj2 (shape_eqb_eq _ _) eq_refl) in He. discriminate. }
  intros u' g3 _.
  (* the selection *)
  apply bindM_raises.
  { intros e He. apply lift_inl in He.
    pose proof (get_indices_raises _ _ _ _ _ S2 Hkeys e He) as <-.
    cbn. rewrite Hpre.
    destruct (Nat.eq_dec (heads self) 0) as [| Hh]; [now left |].
    destruct (Nat.eq_dec (knn self) 0) as [| HK]; [right; now left |].
    destruct (Nat.lt_ge_cases (n_keys self) (knn self)) as [| Hle];
      [right; right; now left |].
    destruct (Nat.eq_dec (numel pre) 0) as [| Hb];
      [right; right; right; right; assumption |].
    exfalso.
    destruct (get_indices_ok self query1 (numel pre) Htopk Hwf) as (s & i & E);
      try lia; [exact S2 |].
    rewrite E in He. discriminate. }
  intros [scores indices] g0 Eg. apply lift_inr in Eg. destruct Eg as [Eg ->].
  destruct (get_indices_inr _ _ _ _ Htopk Eg)
    as (bs' & Hhs & HK & Hbs' & Hkd & Hn' & Hs & Hix & _).
  rewrite S2 in Hn'. cbn [numel fold_right] in Hn'.
  assert (bs' = numel pre) by nia. subst bs'.
  (* bs *)
  apply bindM_raises.
  { intros e He. apply lift_inl in He.
    destruct pre; [contradiction | discriminate]. }
  intros bs g0 Eb2. apply lift_inr in Eb2. destruct Eb2 as [Eb2 ->].
  destruct (as_size_np_prod _ _ Eb2) as [_ ->].
  (* the two views that merge heads and neighbours *)
  apply bindM_raises.
  { intros e He. apply lift_inl in He. exfalso.
    rewrite view2_ok in He; [discriminate |].
    rewrite Hix. cbn [numel fold_right]. lia. }
  intros indices0 g4 _.
  apply bindM_raises.
  { intros e He. apply lift_inl in He. exfalso.
    rewrite view2_ok in He; [discriminate |].
    unfold F_softmax. cbn [shape]. rewrite Hs. cbn [numel fold_right]. lia. }
  intros scores0 g5 _.
  intros e He. discriminate.
Qed.

(** The exceptions of [forward], by cause.  On an object that satisfies
    the invariant of the constructor and whose query network honours its
    contract on batches of the size at hand (it returns a tensor of
    shape (bs, heads * k_dim) for an input of shape (bs, input_dim), as
    [nn.Linear] does), an exception that [forward] raises tells what was
    wrong with the call:
    - [IndexError]: the input has no dimension at all;
    - [AssertionError]: the last size of the input is not [input_dim]
      (the other assertions on the way never fail);
    - [ValueError]: one of the three dropout probabilities is outside
      [0, 1];
    - [TypeError]: the input has a single dimension, so that the batch
      size is numpy's float 1.0;
    - [RuntimeError]: there is no head, [knn] is 0 or exceeds [n_keys],
      [input_dim] is 0, or the batch is empty;
    - [ZeroDivisionError] is never raised. *)
Theorem forward_exceptions_tell_their_cause
        (self : HashingMemory T) (input : tensor T) (g : G) (e : error) :
  topk_contract -> module_wf self ->
  query_proj_contract self (numel (removelast (shape input))) ->
  forward self input g = inl e ->
  forward_error_cause self input e.
Proof.
  intros Htopk Hwf Hc. revert e. unfold forward.
  apply bindM_raises.
  { intros e He. exact (forward_select_raises self input g Htopk Hwf Hc e He). }
  intros [[[pre bs] idx] w] g1 Esel.
  destruct (EmbeddingBag_after_select _ _ _ _ _ _ _ _ Htopk Hwf Esel)
    as (o & Eo & So).
  destruct (forward_select_inr _ _ _ _ _ _ _ _ Htopk Esel)
    as (_ & _ & Hbs & _).
  apply bindM_raises.
  { intros e He. apply lift_inl in He. rewrite Eo in He. discriminate. }
  intros o1 g0 Eo1. apply lift_inr in Eo1. destruct Eo1 as [Eo1 ->].
  rewrite Eo in Eo1. injection Eo1 as <-.
  apply bindM_raises.
  { intros e He. apply F_dropout_inl in He. destruct He as [-> Hbad].
    cbn. right. now right. }
  intros o' g2 Ed3. destruct (F_dropout_inr _ _ _ _ _ _ Ed3) as [So' _].
  destruct (2 <=? length pre).
  - intros e He. apply lift_inl in He. exfalso.
    rewrite view_known, So', So, numel_app in He.
    replace (numel [bs; v_dim self] =? numel pre * numel [v_dim self]) with true in He;
      [discriminate |].
    symmetry. apply Nat.eqb_eq. subst bs. reflexivity.
  - intros e He. discriminate.
Qed.

End ForwardErrors.

(** ** The constructor *)

Section ConstructorClaims.

Context {T G : Type} {S : Scalar T} {B : Backend T G}.

Lemma get_uniform_keys_raises (count dim : nat) (seed : N) :
  1 <= dim -> raises_only (eq ValueError) (get_uniform_keys count dim seed).
Proof.
  intros Hd e. unfold get_uniform_keys.
  destruct (seed <? 2 ^ 32)%N; [| intros H; now inversion H].
  destruct (Nat.eqb_spec dim 0); [lia | discriminate].
Qed.

(** [initialize_keys] returns exactly when every seed is one that numpy
    accepts, and raises [ValueError] otherwise. *)
Lemma initialize_keys_result (kd nk hd : nat) :
  2 <= kd ->
  ((N.of_nat (2 * hd) <= 2 ^ 32)%N -> exists ks, initialize_keys kd nk hd = inr ks) /\
  ((2 ^ 32 < N.of_nat (2 * hd))%N -> initialize_keys kd nk hd = inl ValueError).
Proof.
  intros Hk. split; [now apply initialize_keys_ok |].
  intros Hbig.
  assert (Hhalf : 1 <= kd / 2) by (apply Nat.div_le_lower_bound; lia).
  destruct (initialize_keys kd nk hd) as [e | ks] eqn:E.
  - f_equal. symmetry. revert e E. unfold initialize_keys.
    apply raises_only_bind.
    + apply raises_only_mapM. intros ij _. now apply get_uniform_keys_raises.
    + intros arrs Ea e Hv. exfalso.
      apply mapM_inr in Ea.
      destruct (Forall2_nth _ _ _ (0, 0) (Tensor [] []) Ea) as [_ Hnth].
      assert (Hhd : 1 <= hd) by lia.
      specialize (Hnth (2 * (hd - 1) + 1)).
      rewrite pairs_length, pairs_nth in Hnth by lia.
      specialize (Hnth ltac:(lia)). cbn [fst snd] in Hnth.
      apply get_uniform_keys_inr in Hnth. destruct Hnth as (_ & Hs & _). lia.
  - exfalso. unfold initialize_keys in E. step E as arrs Ea.
    apply mapM_inr in Ea.
    destruct (Forall2_nth _ _ _ (0, 0) (Tensor [] []) Ea) as [_ Hnth].
    assert (Hhd : 1 <= hd) by lia.
    specialize (Hnth (2 * (hd - 1) + 1)).
    rewrite pairs_length, pairs_nth in Hnth by lia.
    specialize (Hnth ltac:(lia)). cbn [fst snd] in Hnth.
    apply get_uniform_keys_inr in Hnth. destruct Hnth as (_ & Hs & _). lia.
Qed.

(** The constructor returns for an even [k_dim >= 2], seeds in range and
    a positive [output_dim]. *)
Lemma init_returns (i_dim o_dim : nat) (params : AttrDict) (g : G) :
  2 <= p_k_dim params -> p_k_dim params mod 2 = 0 ->
  (N.of_nat (2 * p_heads params) <= 2 ^ 32)%N -> 1 <= o_dim ->
  exists m g', __init__ i_dim o_dim params g = inr (m, g').
Proof.
  intros Hk He Hs Ho.
  destruct (initialize_keys_result (p_k_dim params) (p_n_keys params) (p_heads params) Hk)
    as [Hok _].
  destruct (Hok Hs) as (ks & Eks).
  unfold __init__, bindM, lift.
  rewrite (proj2 (Nat.leb_le _ _) Hk), (proj2 (Nat.eqb_eq _ _) He). cbn [andb assert].
  rewrite Eks.
  destruct (Nat.eqb_spec o_dim 0) as [-> | _]; [lia |].
  cbn. destruct (normal_ _ _ _ g) as [w g1].
  destruct (new_query_proj _ _ _ g1) as [qp g2].
  unfold retM, ok. eauto.
Qed.

(** What the constructor answers, by configuration.  The checks come in
    this order: an odd [k_dim] or one below 2 fails the assertion; then a
    number of heads so large that a seed [2 * h + j] reaches 2**32 makes
    numpy raise [ValueError]; then [output_dim = 0] makes
    [v_dim ** -0.5] raise [ZeroDivisionError].  In every other case an
    object is returned: [knn], [n_keys], the dropout probabilities and
    [input_dim] are not checked at construction, and a configuration with
    no head or no key is accepted. *)
Theorem constructor_result_by_configuration
        (i_dim o_dim : nat) (params : AttrDict) (g : G) :
  let kd := p_k_dim params in
  let hs := p_heads params in
  (2 <= kd -> kd mod 2 = 0 -> (2 ^ 32 < N.of_nat (2 * hs))%N ->
   __init__ i_dim o_dim params g = inl ValueError) /\
  (2 <= kd -> kd mod 2 = 0 -> (N.of_nat (2 * hs) <= 2 ^ 32)%N -> o_dim = 0 ->
   __init__ i_dim o_dim params g = inl ZeroDivisionError) /\
  ((exists m g', __init__ i_dim o_dim params g = inr (m, g')) <->
   2 <= kd /\ kd mod 2 = 0 /\ (N.of_nat (2 * hs) <= 2 ^ 32)%N /\ 1 <= o_dim).
Proof.
  intros kd hs.
  assert (Hassert : 2 <= kd -> kd mod 2 = 0 ->
                    assert ((2 <=? p_k_dim params) && (p_k_dim params mod 2 =? 0)) = ok tt).
  { intros Hk He. fold kd.
    now rewrite (proj2 (Nat.leb_le _ _) Hk), (proj2 (Nat.eqb_eq _ _) He). }
  split; [| split; [| split]].
  - intros Hk He Hbig.
    destruct (initialize_keys_result kd (p_n_keys params) hs Hk) as [_ Hv].
    unfold __init__, bindM, lift. rewrite (Hassert Hk He).
    fold kd hs. now rewrite (Hv Hbig).
  - intros Hk He Hs Ho.
    destruct (initialize_keys_result kd (p_n_keys params) hs Hk) as [Hok _].
    destruct (Hok Hs) as (ks & Eks).
    unfold __init__, bindM, lift. rewrite (Hassert Hk He).
    fold kd hs. rewrite Eks. subst o_dim. reflexivity.
  - intros (m & g' & H). unfold __init__ in H.
    inv_lift H as u Ea. apply assert_inr in Ea. apply andb_prop in Ea.
    destruct Ea as [E2 Ee]. apply Nat.leb_le in E2. apply Nat.eqb_eq in Ee.
    inv_lift H as ks Eks. inv_lift H as std Estd.
    fold kd in E2, Ee.
    split; [exact E2 |]. split; [exact Ee |]. split.
    + destruct (N.le_gt_cases (N.of_nat (2 * hs)) (2 ^ 32)) as [Hle | Hgt];
        [exact Hle |].
      destruct (initialize_keys_result kd (p_n_keys params) hs E2) as [_ Hv].
      fold kd hs in Eks. rewrite (Hv Hgt) in Eks. discriminate.
    + destruct (Nat.eqb_spec o_dim 0); [discriminate | lia].
  - intros (Hk & He & Hs & Ho). now apply init_returns.
Qed.

(** The key tensor that [initialize_keys] returns holds as many numbers
    as its shape says. *)
Lemma initialize_keys_wf (kd nk hd : nat) (ks : tensor T) :
  uniform_contract -> initialize_keys kd nk hd = inr ks -> wf ks.
Proof.
  intros Hu H. unfold initialize_keys in H.
  set (half := kd / 2) in *.
  step H as arrs E.
  change [Some hd; Some 2; Some nk; Some half]
    with (map Some [hd; 2; nk; half]) in H.
  apply view_known_inr in H. destruct H as [_ ->].
  apply mapM_inr in E.
  destruct (Forall2_nth _ _ _ (0, 0) (Tensor [] []) E) as [Hlen Hnth].
  rewrite pairs_length in Hlen, Hnth.
  assert (Harr : forall a, In a arrs -> length (data a) = nk * half).
  { intros a Ha. destruct (In_nth _ _ (Tensor [] []) Ha) as (i & Hi' & <-).
    specialize (Hnth i ltac:(lia)).
    apply get_uniform_keys_inr in Hnth. destruct Hnth as (_ & _ & ->).
    cbn [data]. rewrite length_map. apply Hu. }
  assert (Hdata : data (np_array arrs) = concat (map (@data T) arrs))
    by (destruct arrs; reflexivity).
  unfold wf. cbn [shape data]. rewrite Hdata, (length_concat_map _ (nk * half)) by exact Harr.
  rewrite <- Hlen. cbn [numel fold_right]. lia.
Qed.

(** The attributes of the object that the constructor returns. *)
Lemma init_fields (i_dim o_dim : nat) (params : AttrDict) (g g' : G)
      (m : HashingMemory T) :
  __init__ i_dim o_dim params g = inr (m, g') ->
  input_dim m = i_dim /\ output_dim m = o_dim /\
  k_dim m = p_k_dim params /\ heads m = p_heads params /\
  knn m = p_knn params /\ n_keys m = p_n_keys params /\
  input_dropout m = p_input_dropout params /\
  query_dropout m = p_query_dropout params /\
  value_dropout m = p_value_dropout params /\
  exists ks w g1,
    initialize_keys (p_k_dim params) (p_n_keys params) (p_heads params) = inr ks /\
    keys m = ks /\ o_dim <> 0 /\
    normal_ szero (key_bound o_dim) (p_n_keys params ^ 2 * o_dim) g = (w, g1) /\
    values m = Tensor [p_n_keys params ^ 2; o_dim] w /\
    new_query_proj i_dim (p_heads params * p_k_dim params)
      (p_query_batchnorm params) g1 = (query_proj m, g').
Proof.
  intros H. unfold __init__ in H.
  inv_lift H as u Ea. inv_lift H as ks Eks. inv_lift H as std Estd.
  stepM H as w g1 Ew. stepM H as qp g2 Eqp.
  unfold retM, ok in H. injection H as Hm Hg.
  destruct (Nat.eqb_spec o_dim 0) as [| Ho]; [discriminate |].
  unfold ok in Estd. injection Estd as Hstd.
  unfold ok in Ew. injection Ew as Ew. unfold ok in Eqp. injection Eqp as Eqp.
  change (p_n_keys params * (p_n_keys params * 1) * o_dim)
    with (p_n_keys params ^ 2 * o_dim) in Ew.
  fold (key_bound (T := T) o_dim) in Hstd. subst std. subst g2.
  repeat match goal with |- _ /\ _ => split end; try (subst m; reflexivity).
  exists ks, w, g1.
  repeat match goal with |- _ /\ _ => split end; auto; try (subst m; reflexivity).
  subst m. exact Eqp.
Qed.

(** What the constructor builds.  Every object it returns is in training
    mode, has the sizes and dropout probabilities of its arguments,
    [v_dim = output_dim] and [size = n_keys ** 2]; its key tensor has
    shape (heads, 2, n_keys, k_dim // 2) and its value table shape
    (n_keys ** 2, output_dim), and both hold as many numbers as their
    shapes say. *)
Theorem constructor_builds_a_consistent_object
        (i_dim o_dim : nat) (params : AttrDict) (g g' : G) (m : HashingMemory T) :
  uniform_contract -> normal_contract ->
  __init__ i_dim o_dim params g = inr (m, g') ->
  module_wf m /\ wf (keys m) /\ wf (values m) /\ training m = true /\
  input_dim m = i_dim /\ output_dim m = o_dim /\
  k_dim m = p_k_dim params /\ heads m = p_heads params /\
  knn m = p_knn params /\ n_keys m = p_n_keys params /\
  input_dropout m = p_input_dropout params /\
  query_dropout m = p_query_dropout params /\
  value_dropout m = p_value_dropout params.
Proof.
  intros Hu Hn H.
  destruct (init_establishes_invariant _ _ _ _ _ _ H) as [Hwf Htr].
  destruct (init_fields _ _ _ _ _ _ H)
    as (Pi & Po & Pd & Ph & Pk & Pn & R1 & R2 & R3 & ks & w & g1 & Eks & Pks & Ho
        & Ew & Pv & Eqp).
  assert (Lw : length w = p_n_keys params ^ 2 * o_dim).
  { replace w with (fst (normal_ szero (key_bound o_dim)
                           (p_n_keys params ^ 2 * o_dim) g))
      by now rewrite Ew.
    apply Hn. }
  split; [exact Hwf |].
  split; [rewrite Pks; exact (initialize_keys_wf _ _ _ _ Hu Eks) |].
  split.
  { rewrite Pv. unfold wf. cbn [shape data numel fold_right]. rewrite Lw. lia. }
  repeat match goal with |- _ /\ _ => split end; auto.
Qed.

(** The keys do not depend on the layer or on the generator.  Two
    constructions that agree on [k_dim] and [n_keys], whatever their
    other arguments, their numbers of heads and the states of the
    ambient generator, give every head they both have the same two
    sub-key sets. *)
Theorem keys_are_shared_by_all_constructions
        (i1 o1 i2 o2 : nat) (p1 p2 : AttrDict) (g1 g2 g1' g2' : G)
        (m1 m2 : HashingMemory T) :
  uniform_contract ->
  __init__ i1 o1 p1 g1 = inr (m1, g1') ->
  __init__ i2 o2 p2 g2 = inr (m2, g2') ->
  p_k_dim p1 = p_k_dim p2 -> p_n_keys p1 = p_n_keys p2 ->
  forall h j, h < heads m1 -> h < heads m2 -> j < 2 ->
    exists kh1 kh2 k,
      select0 (keys m1) h = inr kh1 /\ select0 (keys m2) h = inr kh2 /\
      select0 kh1 j = inr k /\ select0 kh2 j = inr k.
Proof.
  intros Hu H1 H2 Ek En h j Hh1 Hh2 Hj.
  unfold __init__ in H1, H2.
  inv_lift H1 as u1 Ea1. inv_lift H1 as ks1 Eks1. inv_lift H1 as std1 Estd1.
  stepM H1 as w1 ga Ew1. stepM H1 as qp1 gb Eqp1.
  unfold retM, ok in H1. injection H1 as <- <-.
  inv_lift H2 as u2 Ea2. inv_lift H2 as ks2 Eks2. inv_lift H2 as std2 Estd2.
  stepM H2 as w2 gc Ew2. stepM H2 as qp2 gd Eqp2.
  unfold retM, ok in H2. injection H2 as <- <-.
  cbn [keys heads] in *.
  destruct (initialize_keys_inr _ _ _ _ Hu Eks1) as [_ B1].
  destruct (initialize_keys_inr _ _ _ _ Hu Eks2) as [_ B2].
  destruct (B1 h j Hh1 Hj) as (kh1 & k1 & E1 & F1 & U1 & _).
  destruct (B2 h j Hh2 Hj) as (kh2 & k2 & E2 & F2 & U2 & _).
  rewrite Ek, En, U2 in U1. injection U1 as ->.
  exists kh1, kh2, k1. auto.
Qed.

End ConstructorClaims.

(** ** From construction to a read *)

Section Composition.

Context {T G : Type} {S : Scalar T} {B : Backend T G}.

(** A read on a well-formed object with a usable configuration. *)
Lemma forward_ok (self : HashingMemory T) (input : tensor T) (g : G) (pre : list nat) :
  topk_contract -> module_wf self -> usable_config self ->
  query_proj_contract self (numel pre) ->
  shape input = pre ++ [input_dim self] -> pre <> [] -> 0 < numel pre ->
  exists out g',
    forward self input g = inr (out, g') /\ shape out = pre ++ [output_dim self].
Proof.
  intros Htopk Hwf Hcfg Hqp Hin Hne Hbs.
  destruct (forward_select_ok self input g pre Htopk Hwf Hcfg Hqp Hin Hne Hbs)
    as (idx & w & g1 & Esel).
  destruct (EmbeddingBag_after_select _ _ _ _ _ _ _ _ Htopk Hwf Esel) as (o & Eo & So).
  destruct Hwf as (_ & _ & Hv & _).
  destruct Hcfg as (_ & _ & _ & _ & _ & _ & Vv).
  destruct (F_dropout_ok o (value_dropout self) (training self) g1 Vv)
    as (o' & g2 & E2 & Hs2).
  unfold forward. rewrite (bindM_step _ _ _ _ _ Esel).
  rewrite (bindM_lift _ _ _ _ Eo). rewrite (bindM_step _ _ _ _ _ E2).
  rewrite So in Hs2.
  destruct (Nat.leb_spec 2 (length pre)) as [Hlen | Hlen].
  - rewrite view_known, Hs2, numel_app.
    replace (numel [numel pre; v_dim self] =? numel pre * numel [v_dim self]) with true
      by (symmetry; apply Nat.eqb_eq; simpl; lia).
    unfold lift, ok. do 2 eexists. split; [reflexivity |]. cbn [shape]. now rewrite Hv.
  - unfold retM, ok. do 2 eexists. split; [reflexivity |].
    rewrite Hs2, <- Hv.
    destruct pre as [| p0 [| p1 pre']]; [contradiction | | simpl in Hlen; lia].
    cbn [numel fold_right app]. now rewrite Nat.mul_1_r.
Qed.

(** Construct, then read.  An object built by the constructor from a
    configuration with at least one head, [1 <= knn <= n_keys], a
    positive [input_dim] and dropout probabilities in [0, 1] reads, in
    the training mode it is built in and from any state of the
    generator, every non-empty batch with at least one leading dimension
    and last size [input_dim] that its query network accepts, and returns
    a tensor with the leading sizes of the input followed by
    [output_dim]. *)
Theorem constructed_object_reads_batches
        (i_dim o_dim : nat) (params : AttrDict) (g g1 g2 : G) (m : HashingMemory T)
        (input : tensor T) (pre : list nat) :
  topk_contract ->
  __init__ i_dim o_dim params g = inr (m, g1) ->
  1 <= p_heads params -> 1 <= p_knn params -> p_knn params <= p_n_keys params ->
  1 <= i_dim ->
  valid_rate (p_input_dropout params) -> valid_rate (p_query_dropout params) ->
  valid_rate (p_value_dropout params) ->
  query_proj_contract m (numel pre) ->
  shape input = pre ++ [i_dim] -> pre <> [] -> 0 < numel pre ->
  exists out g3,
    forward m input g2 = inr (out, g3) /\ shape out = pre ++ [o_dim].
Proof.
  intros Htopk H Hh HK Hle Hi Vi Vq Vv Hqp Hin Hne Hbs.
  destruct (init_establishes_invariant _ _ _ _ _ _ H) as [Hwf _].
  unfold __init__ in H.
  inv_lift H as u Ea. inv_lift H as ks Eks. inv_lift H as std Estd.
  stepM H as w ga Ew. stepM H as qp gb Eqp.
  unfold retM, ok in H. injection H as <- <-.
  apply (forward_ok _ input g2 pre Htopk Hwf); auto.
  unfold usable_config. cbn. auto 10.
Qed.

(** The session of the notebook.  With the configuration of the
    notebook ([k_dim = 128], 4 heads, [knn = 32], 512 keys per half,
    batch normalisation of the queries, no dropout), the construction
    [HashingMemory(50, 100, params)] succeeds and the read of any input
    of shape (2, 3, 4, 50) returns a tensor of shape (2, 3, 4, 100), the
    shape that the notebook prints, provided the freshly initialised
    query network maps a batch of 24 inputs of size 50 to 24 vectors of
    size 512. *)
Theorem notebook_run_returns_the_printed_shape (x : tensor T) (g : G) :
  topk_contract ->
  (forall g0 q, shape q = [24; 50] ->
     exists r, fst (new_query_proj 50 512 true g0) true q = inr r /\
               shape r = [24; 512]) ->
  shape x = [2; 3; 4; 50] ->
  exists out g', notebook_run x g = inr (out, g') /\ shape out = [2; 3; 4; 100].
Proof.
  intros Htopk Hnet Hx.
  assert (H1 : 2 <= p_k_dim params) by (cbn; lia).
  assert (H2 : p_k_dim params mod 2 = 0) by reflexivity.
  assert (H3 : (N.of_nat (2 * p_heads params) <= 2 ^ 32)%N)
    by (vm_compute; discriminate).
  assert (H4 : 1 <= 100) by lia.
  destruct (init_returns 50 100 params g H1 H2 H3 H4) as (m & g1 & E).
  unfold notebook_run. rewrite (bindM_step _ _ _ _ _ E).
  destruct (init_establishes_invariant _ _ _ _ _ _ E) as [Hwf Htr].
  destruct (init_fields _ _ _ _ _ _ E)
    as (Pi & Po & Pd & Ph & Pk & Pn & R1 & R2 & R3 & ks & w & ga & _ & _ & _
        & _ & _ & Eqp).
  cbn [params p_k_dim p_heads p_knn p_n_keys p_query_batchnorm
       p_input_dropout p_query_dropout p_value_dropout] in Pd, Ph, Pk, Pn, R1, R2, R3, Eqp.
  change (4 * 128) with 512 in Eqp.
  assert (Pq : query_proj m = fst (new_query_proj 50 512 true ga)) by now rewrite Eqp.
  assert (V0 : valid_rate 0) by (split; discriminate).
  destruct (forward_ok m x g1 [2; 3; 4] Htopk Hwf) as (out & g' & Ef & Sout).
  - unfold usable_config. rewrite Ph, Pk, Pn, Pi, R1, R2, R3.
    repeat split; try apply V0; lia.
  - intros q Hq. rewrite Pi in Hq. rewrite Htr, Pq, Ph, Pd.
    change (numel [2; 3; 4]) with 24 in Hq.
    change (4 * 128) with 512. now apply Hnet.
  - now rewrite Hx, Pi.
  - discriminate.
  - cbn. lia.
  - exists out, g'. split; [exact Ef |]. now rewrite Sout, Po.
Qed.

End Composition.

(** ** [forward]: the leading dimensions *)

Section LeadingDimensions.

Context {T G : Type} {S : Scalar T} {B : Backend T G}.

Lemma np_prod_ne (pre : list nat) : pre <> [] -> np_prod pre = PyInt (numel pre).
Proof. destruct pre; [contradiction | reflexivity]. Qed.

Lemma with_prefix_bindM {A} (p : list nat) (c : M G A)
      (k1 k2 : A -> M G (list nat * nat * tensor nat * tensor T)) (g : G) :
  (forall a g', k1 a g' = with_prefix p (k2 a g')) ->
  bindM c k1 g = with_prefix p (bindM c k2 g).
Proof.
  intros H. unfold bindM. destruct (c g) as [e | [a g']]; [reflexivity | apply H].
Qed.

Lemma view_numel {A} (s1 s2 : list nat) (d : list A) (sz : list (option nat)) :
  numel s1 = numel s2 -> view (Tensor s1 d) sz = view (Tensor s2 d) sz.
Proof. intros H. unfold view. cbn [shape data]. now rewrite H. Qed.

Lemma dropout_view_prefix (p s1 s2 : list nat) (xs : list T) (r : Q) (tr : bool)
      (sz : list (option nat))
      (K1 K2 : tensor T -> M G (list nat * nat * tensor nat * tensor T)) (g : G) :
  numel s1 = numel s2 ->
  (forall x g', K1 x g' = with_prefix p (K2 x g')) ->
  bindM (F_dropout (Tensor s1 xs) r tr) (fun input => bindM (lift (view input sz)) K1) g =
  with_prefix p
    (bindM (F_dropout (Tensor s2 xs) r tr)
       (fun input => bindM (lift (view input sz)) K2) g).
Proof.
  intros Hn HK. unfold F_dropout.
  destruct (negb (Qle_bool 0 r && Qle_bool r 1)); [reflexivity |].
  destruct tr.
  - unfold bindM at 1 3. cbn [data shape].
    destruct (dropout_mask r xs g) as [d' g']. unfold ok.
    rewrite (view_numel s1 s2 d' sz Hn).
    apply with_prefix_bindM. exact HK.
  - unfold bindM at 1 3. unfold retM, ok.
    rewrite (view_numel s1 s2 xs sz Hn).
    apply with_prefix_bindM. exact HK.
Qed.

Lemma forward_select_prefix (self : HashingMemory T) (pre1 pre2 : list nat) (d : nat)
      (xs : list T) (g : G) :
  pre1 <> [] -> pre2 <> [] -> numel pre1 = numel pre2 ->
  forward_select self (Tensor (pre1 ++ [d]) xs) g =
  with_prefix pre1 (forward_select self (Tensor (pre2 ++ [d]) xs) g).
Proof.
  intros H1 H2 Hn. unfold forward_select. cbn [shape].
  rewrite !rev_unit, !removelast_last, (np_prod_ne _ H1), (np_prod_ne _ H2), Hn.
  apply with_prefix_bindM. intros d0 g0.
  apply with_prefix_bindM. intros u g1.
  apply dropout_view_prefix.
  { rewrite !numel_app. now rewrite Hn. }
  intros x g2.
  apply with_prefix_bindM. intros q0 g3.
  apply with_prefix_bindM. intros bsh g4.
  apply with_prefix_bindM. intros query0 g5.
  apply with_prefix_bindM. intros query1 g6.
  apply with_prefix_bindM. intros u' g7.
  apply with_prefix_bindM. intros [scores indices] g8.
  apply with_prefix_bindM. intros bs g9.
  apply with_prefix_bindM. intros indices0 g10.
  apply with_prefix_bindM. intros scores0 g11.
  reflexivity.
Qed.

(** The last step of [forward] on what the embedding bag returns. *)
Lemma forward_reshape_ok (self : HashingMemory T) (pre : list nat) (o' : tensor T) (g : G) :
  pre <> [] -> shape o' = [numel pre; v_dim self] ->
  exists out,
    (if 2 <=? length pre
     then lift (view o' (map Some (pre ++ [v_dim self])))
     else retM o') g = inr (out, g) /\
    data out = data o' /\ shape out = pre ++ [v_dim self].
Proof.
  intros Hne Hs. destruct (Nat.leb_spec 2 (length pre)) as [Hl | Hl].
  - rewrite view_known, Hs, numel_app.
    replace (numel [numel pre; v_dim self] =? numel pre * numel [v_dim self]) with true
      by (symmetry; apply Nat.eqb_eq; simpl; lia).
    eexists. split; [reflexivity |]. split; reflexivity.
  - exists o'. split; [reflexivity |]. split; [reflexivity |].
    rewrite Hs. destruct pre as [| p0 [| p1 pre']]; [contradiction | | simpl in Hl; lia].
    cbn [numel fold_right app]. now rewrite Nat.mul_1_r.
Qed.

(** The leading dimensions of the input are only bookkeeping.  Two
    inputs with the same elements and the same last size whose leading
    sizes have the same product (at least one leading dimension each) are
    read alike on an object that satisfies the invariant of the
    constructor: if one read raises an exception, the other raises the
    same one; if one returns, the other returns the same elements and
    leaves the generator in the same state, and each output has the
    leading sizes of its own input followed by [output_dim]. *)
Theorem forward_flattens_leading_dimensions
        (self : HashingMemory T) (pre1 pre2 : list nat) (d : nat) (xs : list T) (g : G) :
  topk_contract -> module_wf self ->
  pre1 <> [] -> pre2 <> [] -> numel pre1 = numel pre2 ->
  let t1 := Tensor (pre1 ++ [d]) xs in
  let t2 := Tensor (pre2 ++ [d]) xs in
  (forall e, forward self t1 g = inl e -> forward self t2 g = inl e) /\
  (forall o1 g1, forward self t1 g = inr (o1, g1) ->
     exists o2,
       forward self t2 g = inr (o2, g1) /\ data o2 = data o1 /\
       shape o1 = pre1 ++ [output_dim self] /\ shape o2 = pre2 ++ [output_dim self]).
Proof.
  intros Htopk Hwf H1 H2 Hn t1 t2.
  pose proof (forward_select_prefix self pre1 pre2 d xs g H1 H2 Hn) as HA.
  fold t1 t2 in HA.
  destruct (forward_select self t2 g) as [e2 | [[[[p bs] idx] w] g']] eqn:E2;
    cbn [with_prefix] in HA.
  - assert (F1 : forward self t1 g = inl e2) by (unfold forward, bindM; now rewrite HA).
    assert (F2 : forward self t2 g = inl e2) by (unfold forward, bindM; now rewrite E2).
    rewrite F1, F2. split; [auto |]. intros o1 g1 H. discriminate.
  - destruct (forward_select_inr _ _ _ _ _ _ _ _ Htopk E2) as (Hp & _ & Hbs & _).
    cbn [t2 shape] in Hp. rewrite removelast_last in Hp. subst p.
    destruct (EmbeddingBag_after_select _ _ _ _ _ _ _ _ Htopk Hwf E2) as (o & Eo & So).
    pose proof Hwf as (_ & _ & Hv & _).
    unfold forward.
    rewrite (bindM_step _ _ _ _ _ HA), (bindM_step _ _ _ _ _ E2).
    rewrite !(bindM_lift _ _ _ _ Eo).
    unfold bindM.
    destruct (F_dropout o (value_dropout self) (training self) g') as [e | [o' g2]] eqn:Ed.
    + split; [auto |]. intros o1 g1 H. discriminate.
    + destruct (F_dropout_inr _ _ _ _ _ _ Ed) as [So' _]. rewrite So in So'.
      assert (S1 : shape o' = [numel pre1; v_dim self]) by (rewrite So', Hbs; now rewrite Hn).
      assert (S2 : shape o' = [numel pre2; v_dim self]) by now rewrite So', Hbs.
      destruct (forward_reshape_ok self pre1 o' g2 H1 S1) as (out1 & R1 & D1 & Sh1).
      destruct (forward_reshape_ok self pre2 o' g2 H2 S2) as (out2 & R2 & D2 & Sh2).
      rewrite R1, R2. split; [intros e H; discriminate |].
      intros o1 g1 H. injection H as <- <-.
      exists out2. split; [reflexivity |]. split; [congruence |].
      rewrite <- Hv. auto.
Qed.
End LeadingDimensions.

(** ** [forward]: the rows of the value table that a read touches *)

Section SparseRead.

Context {T G : Type} {S : Scalar T} {B : Backend T G}.

Lemma fold_left_ext_in {A C} (f h : A -> C -> A) (l : list C) (a : A) :
  (forall acc q, In q l -> f acc q = h acc q) -> fold_left f l a = fold_left h l a.
Proof.
  revert a. induction l as [| q l IH]; intros a H; [reflexivity |].
  cbn [fold_left]. rewrite (H a q) by now left. apply IH. intros; apply H; now right.
Qed.

Lemma bag_sum_ext (table table' : list (list T)) (d : nat) (idx : list nat) (ws : list T) :
  (forall x, In x idx -> nth x table' [] = nth x table []) ->
  bag_sum table' d idx ws = bag_sum table d idx ws.
Proof.
  intros H. unfold bag_sum. apply fold_left_ext_in.
  intros acc [x t] Hq. cbn [fst snd]. rewrite H; [reflexivity |].
  exact (in_combine_l _ _ _ _ Hq).
Qed.

(** The embedding bag looks at the rows that its indices name, and at no
    other row of the table. *)
Lemma EmbeddingBag_rows_ext (v v' : tensor T) (idx : tensor nat) (w : tensor T) :
  shape v' = shape v ->
  (forall x, In x (data idx) -> nth x (rows v') [] = nth x (rows v) []) ->
  EmbeddingBag v' idx w = EmbeddingBag v idx w.
Proof.
  intros Hs Hrows. unfold EmbeddingBag. rewrite Hs.
  destruct (shape v) as [| n [| d [| ? ?]]] eqn:Sv; try reflexivity.
  destruct (shape idx) as [| b [| l [| ? ?]]]; try reflexivity.
  destruct (negb (shape_eqb [b; l] (shape w))); [reflexivity |].
  destruct (negb (forallb (fun i => i <? n) (data idx))); [reflexivity |].
  rewrite (rows_2d v' n d) in Hrows by congruence.
  rewrite (rows_2d v n d Sv) in Hrows.
  do 3 f_equal. apply map_ext_in. intros [r ws] Hin. cbn [fst snd].
  apply bag_sum_ext. intros x Hx. apply Hrows.
  apply in_combine_l in Hin. eapply In_chunks; eauto.
Qed.

(** A read touches only the rows of the value table that it selected.
    When the first part of [forward] has selected the indices [idx], a
    read on the same object with another value table of the same shape,
    whose rows agree with the old ones at every selected index, gives the
    same result, tensor or exception, and the same generator state: the
    rows that were not selected can be changed at will. *)
Theorem forward_reads_only_the_selected_rows
        (self : HashingMemory T) (v' input : tensor T) (g g1 : G)
        (pre : list nat) (bs : nat) (idx : tensor nat) (w : tensor T) :
  forward_select self input g = inr ((pre, bs, idx, w), g1) ->
  shape v' = shape (values self) ->
  (forall x, In x (data idx) -> nth x (rows v') [] = nth x (rows (values self)) []) ->
  forward (with_values self v') input g = forward self input g.
Proof.
  intros E Hs Hrows. unfold forward.
  rewrite (bindM_step _ _ _ _ _ E).
  assert (E' : forward_select (with_values self v') input g = inr ((pre, bs, idx, w), g1))
    by exact E.
  rewrite (bindM_step _ _ _ _ _ E').
  cbn [values with_values value_dropout training v_dim].
  now rewrite (EmbeddingBag_rows_ext (values self) v' idx w Hs Hrows).
Qed.

End SparseRead.

(** ** More concrete runs *)


Lemma demo_normal_contract : normal_contract (B := demo_backend).
Proof. intros mean std n g. cbn [normal_ demo_backend fst]. apply repeat_length. Qed.


Lemma demo_run_heads :
  get_indices (G := nat) demo_memory demo_head_queries =
  inr (demo_head_scores, demo_head_indices).
Proof. vm_compute. reflexivity. Qed.

Lemma demo_run_read : forward demo_memory demo_input 0 = inr (demo_output, 0).
Proof. vm_compute. reflexivity. Qed.

Lemma demo_run_init :
  __init__ (B := demo_backend) 2 2 demo_params 0 = inr (demo_built, 2).
Proof. vm_compute. reflexivity. Qed.

Lemma wide_run_init :
  __init__ (B := demo_backend) 5 3 wide_params 7 = inr (wide_built, 9).
Proof. vm_compute. reflexivity. Qed.

Lemma demo_built_query_proj_contract (bs : nat) : query_proj_contract demo_built bs.
Proof.
  intros x Hx.
  change (query_proj demo_built (training demo_built) x)
    with (F_linear x (Tensor [4; 2] (repeat (Q2Qc 1) 8))).
  change (input_dim demo_built) with 2 in Hx.
  destruct (F_linear_ok x (Tensor [4; 2] (repeat (Q2Qc 1) 8)) bs 2 4 Hx eq_refl)
    as (q & E & Hq & _).
  exists q. split; [exact E | exact Hq].
Qed.


Lemma selector_returns_iff_batch_nonempty_and_enough_keys_witness :
  topk_contract (B := demo_backend) /\ k_dim demo_memory mod 2 = 0 /\
  shape demo_query = [2; k_dim demo_memory] /\
  shape demo_subkeys = [2; 3; k_dim demo_memory / 2] /\
  ((exists sc ix, _get_indices (G := nat) demo_memory demo_query demo_subkeys
                  = inr (sc, ix)) <->
   0 < 2 /\ knn demo_memory <= 3) /\
  (2 = 0 \/ 3 < knn demo_memory ->
   _get_indices (G := nat) demo_memory demo_query demo_subkeys = inl RuntimeError).
Proof.
  assert (He : k_dim demo_memory mod 2 = 0) by reflexivity.
  assert (Hq : shape demo_query = [2; k_dim demo_memory]) by reflexivity.
  assert (Hk : shape demo_subkeys = [2; 3; k_dim demo_memory / 2]) by reflexivity.
  split; [exact demo_topk_contract |]. split; [exact He |].
  split; [exact Hq |]. split; [exact Hk |].
  exact (selector_returns_iff_batch_nonempty_and_enough_keys
           demo_memory demo_query demo_subkeys 2 3 demo_topk_contract He Hq Hk).
Defined.

(** The rows of the two heads for the two batch elements: rows 0 and 2
    come from head 0, rows 1 and 3 from head 1. *)
Example demo_heads_values :
  shape demo_head_scores = [4; 2] /\
  data demo_head_indices = [6; 3;  5; 3;  6; 8;  2; 5].
Proof. vm_compute. split; reflexivity. Qed.

Lemma get_indices_interleaves_heads_witness :
  topk_contract (B := demo_backend) /\
  get_indices (G := nat) demo_memory demo_head_queries =
    inr (demo_head_scores, demo_head_indices) /\
  exists bs q3,
    0 < bs /\
    view demo_head_queries [None; Some (heads demo_memory); Some (k_dim demo_memory)]
      = inr q3 /\
    shape q3 = [bs; heads demo_memory; k_dim demo_memory] /\
    shape demo_head_queries = [bs * heads demo_memory; k_dim demo_memory] /\
    shape demo_head_scores = [bs * heads demo_memory; knn demo_memory] /\
    shape demo_head_indices = [bs * heads demo_memory; knn demo_memory] /\
    forall h, h < heads demo_memory ->
      exists q k sc ix,
        select1 q3 h = inr q /\ select0 (keys demo_memory) h = inr k /\
        _get_indices (G := nat) demo_memory q k = inr (sc, ix) /\
        forall b, b < bs ->
          nth (b * heads demo_memory + h) (rows demo_head_scores) [] =
            nth b (rows sc) [] /\
          nth (b * heads demo_memory + h) (rows demo_head_indices) [] =
            nth b (rows ix) [].
Proof.
  split; [exact demo_topk_contract |]. split; [exact demo_run_heads |].
  exact (get_indices_interleaves_heads
           demo_memory demo_head_queries demo_head_scores demo_head_indices
           demo_topk_contract demo_run_heads).
Defined.

Lemma get_indices_returns_iff_configuration_usable_witness :
  topk_contract (B := demo_backend) /\ module_wf demo_memory /\
  shape demo_head_queries = [4; k_dim demo_memory] /\
  ((exists s i, get_indices (G := nat) demo_memory demo_head_queries = inr (s, i)) <->
   0 < heads demo_memory /\ 0 < knn demo_memory /\
   knn demo_memory <= n_keys demo_memory /\ 0 < 4 /\ 4 mod heads demo_memory = 0) /\
  (forall e, get_indices (G := nat) demo_memory demo_head_queries = inl e ->
             e = RuntimeError).
Proof.
  assert (Hq : shape demo_head_queries = [4; k_dim demo_memory]) by reflexivity.
  split; [exact demo_topk_contract |]. split; [exact demo_module_wf |].
  split; [exact Hq |].
  exact (get_indices_returns_iff_configuration_usable
           demo_memory demo_head_queries 4 demo_topk_contract demo_module_wf Hq).
Defined.

Lemma forward_returns_only_on_usable_configuration_witness :
  topk_contract (B := demo_backend) /\ module_wf demo_memory /\
  forward demo_memory demo_input 0 = inr (demo_output, 0) /\
  let pre := removelast (shape demo_input) in
  pre <> [] /\ 0 < numel pre /\ shape demo_input = pre ++ [input_dim demo_memory] /\
  usable_config demo_memory /\ shape demo_output = pre ++ [output_dim demo_memory].
Proof.
  split; [exact demo_topk_contract |]. split; [exact demo_module_wf |].
  split; [exact demo_run_read |].
  exact (forward_returns_only_on_usable_configuration
           demo_memory demo_input demo_output 0 0
           demo_topk_contract demo_module_wf demo_run_read).
Defined.

Lemma forward_merges_heads_of_each_batch_element_witness :
  topk_contract (B := demo_backend) /\
  forward_select demo_memory demo_input 0 =
    inr (([2; 1], 2, demo_selected, demo_weights), 0) /\
  exists query s i,
    get_indices (G := nat) demo_memory query = inr (s, i) /\
    shape query = [2 * heads demo_memory; k_dim demo_memory] /\
    shape demo_selected = [2; heads demo_memory * knn demo_memory] /\
    shape demo_weights = [2; heads demo_memory * knn demo_memory] /\
    forall b h, b < 2 -> h < heads demo_memory ->
      firstn (knn demo_memory)
        (skipn (h * knn demo_memory) (nth b (rows demo_selected) [])) =
        nth (b * heads demo_memory + h) (rows i) [] /\
      firstn (knn demo_memory)
        (skipn (h * knn demo_memory) (nth b (rows demo_weights) [])) =
        softmax_row (nth (b * heads demo_memory + h) (rows s) []).
Proof.
  split; [exact demo_topk_contract |]. split; [exact demo_run_select |].
  exact (forward_merges_heads_of_each_batch_element
           demo_memory demo_input 0 0 [2; 1] 2 demo_selected demo_weights
           demo_topk_contract demo_run_select).
Defined.

Lemma eval_forward_leaves_generator_untouched_witness :
  training demo_memory = false /\
  exists r : result (tensor Qc),
    forall g : nat,
      forward demo_memory demo_input g =
      match r with
      | inl e => inl e
      | inr out => inr (out, g)
      end.
Proof.
  split; [reflexivity |].
  exact (eval_forward_leaves_generator_untouched (G := nat) demo_memory demo_input
           eq_refl).
Defined.

Lemma constructor_result_by_configuration_witness :
  __init__ (B := demo_backend) 2 2 crowded_params 0 = inl ValueError /\
  __init__ (B := demo_backend) 2 0 demo_params 0 = inl ZeroDivisionError /\
  (exists m g', __init__ (B := demo_backend) 5 3 wide_params 7 = inr (m, g')).
Proof.
  split; [| split].
  - apply (constructor_result_by_configuration (B := demo_backend) 2 2 crowded_params 0).
    + cbn [crowded_params p_k_dim]. lia.
    + reflexivity.
    + cbn [crowded_params p_heads]. rewrite Nat2N.inj_mul, N2Nat.id. reflexivity.
  - apply (constructor_result_by_configuration (B := demo_backend) 2 0 demo_params 0).
    + cbn. lia.
    + reflexivity.
    + vm_compute. discriminate.
    + reflexivity.
  - apply (constructor_result_by_configuration (B := demo_backend) 5 3 wide_params 7).
    split; [cbn; lia |]. split; [reflexivity |].
    split; [vm_compute; discriminate | lia].
Defined.

Lemma constructor_builds_a_consistent_object_witness :
  uniform_contract (B := demo_backend) /\ normal_contract (B := demo_backend) /\
  __init__ (B := demo_backend) 2 2 demo_params 0 = inr (demo_built, 2) /\
  module_wf demo_built /\ wf (keys demo_built) /\ wf (values demo_built) /\
  training demo_built = true /\
  input_dim demo_built = 2 /\ output_dim demo_built = 2 /\
  k_dim demo_built = p_k_dim demo_params /\ heads demo_built = p_heads demo_params /\
  knn demo_built = p_knn demo_params /\ n_keys demo_built = p_n_keys demo_params /\
  input_dropout demo_built = p_input_dropout demo_params /\
  query_dropout demo_built = p_query_dropout demo_params /\
  value_dropout demo_built = p_value_dropout demo_params.
Proof.
  split; [exact demo_uniform_contract |]. split; [exact demo_normal_contract |].
  split; [exact demo_run_init |].
  exact (constructor_builds_a_consistent_object 2 2 demo_params 0 2 demo_built
           demo_uniform_contract demo_normal_contract demo_run_init).
Defined.

Lemma keys_are_shared_by_all_constructions_witness :
  uniform_contract (B := demo_backend) /\
  __init__ (B := demo_backend) 2 2 demo_params 0 = inr (demo_built, 2) /\
  __init__ (B := demo_backend) 5 3 wide_params 7 = inr (wide_built, 9) /\
  p_k_dim demo_params = p_k_dim wide_params /\
  p_n_keys demo_params = p_n_keys wide_params /\
  forall h j, h < heads demo_built -> h < heads wide_built -> j < 2 ->
    exists kh1 kh2 k,
      select0 (keys demo_built) h = inr kh1 /\ select0 (keys wide_built) h = inr kh2 /\
      select0 kh1 j = inr k /\ select0 kh2 j = inr k.
Proof.
  split; [exact demo_uniform_contract |]. split; [exact demo_run_init |].
  split; [exact wide_run_init |]. split; [reflexivity |]. split; [reflexivity |].
  exact (keys_are_shared_by_all_constructions 2 2 5 3 demo_params wide_params 0 7 2 9
           demo_built wide_built demo_uniform_contract demo_run_init wide_run_init
           eq_refl eq_refl).
Defined.

Lemma constructed_object_reads_batches_witness :
  topk_contract (B := demo_backend) /\
  __init__ (B := demo_backend) 2 2 demo_params 0 = inr (demo_built, 2) /\
  1 <= p_heads demo_params /\ 1 <= p_knn demo_params /\
  p_knn demo_params <= p_n_keys demo_params /\ 1 <= 2 /\
  valid_rate (p_input_dropout demo_params) /\
  valid_rate (p_query_dropout demo_params) /\
  valid_rate (p_value_dropout demo_params) /\
  query_proj_contract demo_built (numel [2; 1]) /\
  shape demo_input = [2; 1] ++ [2] /\ [2; 1] <> [] /\ 0 < numel [2; 1] /\
  exists out g3,
    forward demo_built demo_input 5 = inr (out, g3) /\ shape out = [2; 1] ++ [2].
Proof.
  assert (V0 : valid_rate 0) by (split; discriminate).
  assert (A1 : 1 <= p_heads demo_params) by (cbn; lia).
  assert (A2 : 1 <= p_knn demo_params) by (cbn; lia).
  assert (A3 : p_knn demo_params <= p_n_keys demo_params) by (cbn; lia).
  assert (A4 : 1 <= 2) by lia.
  assert (A5 : shape demo_input = [2; 1] ++ [2]) by reflexivity.
  assert (A6 : [2; 1] <> @nil nat) by discriminate.
  assert (A7 : 0 < numel [2; 1]) by (cbn; lia).
  split; [exact demo_topk_contract |]. split; [exact demo_run_init |].
  split; [exact A1 |]. split; [exact A2 |]. split; [exact A3 |]. split; [exact A4 |].
  split; [exact V0 |]. split; [exact V0 |]. split; [exact V0 |].
  split; [exact (demo_built_query_proj_contract (numel [2; 1])) |].
  split; [exact A5 |]. split; [exact A6 |]. split; [exact A7 |].
  exact (constructed_object_reads_batches 2 2 demo_params 0 2 5 demo_built
           demo_input [2; 1] demo_topk_contract demo_run_init A1 A2 A3 A4 V0 V0 V0
           (demo_built_query_proj_contract (numel [2; 1])) A5 A6 A7).
Defined.

Lemma notebook_run_returns_the_printed_shape_witness :
  topk_contract (B := demo_backend) /\
  (forall (g0 : nat) (q : tensor Qc), shape q = [24; 50] ->
     exists r, fst (new_query_proj (Backend := demo_backend) 50 512 true g0) true q
               = inr r /\ shape r = [24; 512]) /\
  shape (Tensor [2; 3; 4; 50] (repeat (qz 0) 1200)) = [2; 3; 4; 50] /\
  exists out g',
    notebook_run (B := demo_backend) (Tensor [2; 3; 4; 50] (repeat (qz 0) 1200)) 0
      = inr (out, g') /\
    shape out = [2; 3; 4; 100].
Proof.
  assert (Hnet : forall (g0 : nat) (q : tensor Qc), shape q = [24; 50] ->
            exists r, fst (new_query_proj (Backend := demo_backend) 50 512 true g0) true q
                      = inr r /\ shape r = [24; 512]).
  { intros g0 q Hq. cbn [new_query_proj demo_backend fst].
    destruct (F_linear_ok q (Tensor [512; 50] (repeat (Q2Qc 1) (512 * 50))) 24 50 512
                Hq eq_refl) as (r & E & Hr & _).
    exists r. split; [exact E | exact Hr]. }
  split; [exact demo_topk_contract |]. split; [exact Hnet |].
  split; [reflexivity |].
  exact (notebook_run_returns_the_printed_shape
           (Tensor [2; 3; 4; 50] (repeat (qz 0) 1200)) 0
           demo_topk_contract Hnet eq_refl).
Defined.

Lemma forward_flattens_leading_dimensions_witness :
  topk_contract (B := demo_backend) /\ module_wf demo_memory /\
  [2; 1] <> [] /\ [2] <> [] /\ numel [2; 1] = numel [2] /\
  let t1 := Tensor ([2; 1] ++ [2]) (data demo_input) in
  let t2 := Tensor ([2] ++ [2]) (data demo_input) in
  (forall e, forward demo_memory t1 0 = inl e -> forward demo_memory t2 0 = inl e) /\
  (forall o1 g1, forward demo_memory t1 0 = inr (o1, g1) ->
     exists o2,
       forward demo_memory t2 0 = inr (o2, g1) /\ data o2 = data o1 /\
       shape o1 = [2; 1] ++ [output_dim demo_memory] /\
       shape o2 = [2] ++ [output_dim demo_memory]).
Proof.
  assert (A1 : [2; 1] <> @nil nat) by discriminate.
  assert (A2 : [2] <> @nil nat) by discriminate.
  assert (A3 : numel [2; 1] = numel [2]) by reflexivity.
  split; [exact demo_topk_contract |]. split; [exact demo_module_wf |].
  split; [exact A1 |]. split; [exact A2 |]. split; [exact A3 |].
  exact (forward_flattens_leading_dimensions demo_memory [2; 1] [2] 2 (data demo_input) 0
           demo_topk_contract demo_module_wf A1 A2 A3).
Defined.

Lemma forward_reads_only_the_selected_rows_witness :
  forward_select demo_memory demo_input 0 =
    inr (([2; 1], 2, demo_selected, demo_weights), 0) /\
  values demo_memory <> demo_other_values /\
  forward (with_values demo_memory demo_other_values) demo_input 0 =
  forward demo_memory demo_input 0.
Proof.
  split; [exact demo_run_select |]. split; [discriminate |].
  apply (forward_reads_only_the_selected_rows
           demo_memory demo_other_values demo_input 0 0 [2; 1] 2
           demo_selected demo_weights demo_run_select eq_refl).
  intros x Hx. vm_compute in Hx.
  repeat (destruct Hx as [<- | Hx]; [vm_compute; reflexivity |]).
  contradiction.
Defined.

Lemma greedy_run_init :
  __init__ (B := demo_backend) 2 2 greedy_params 0 = inr (greedy_built, 2).
Proof. vm_compute. reflexivity. Qed.

Lemma greedy_module_wf : module_wf greedy_built.
Proof. exact (proj1 (init_establishes_invariant _ _ _ _ _ _ greedy_run_init)). Qed.

Lemma greedy_query_proj_contract (bs : nat) : query_proj_contract greedy_built bs.
Proof.
  intros x Hx.
  change (query_proj greedy_built (training greedy_built) x)
    with (F_linear x (Tensor [4; 2] (repeat (Q2Qc 1) 8))).
  change (input_dim greedy_built) with 2 in Hx.
  destruct (F_linear_ok x (Tensor [4; 2] (repeat (Q2Qc 1) 8)) bs 2 4 Hx eq_refl)
    as (q & E & Hq & _).
  exists q. split; [exact E | exact Hq].
Qed.

Lemma forward_exceptions_tell_their_cause_witness :
  (forward greedy_built demo_input 0 = inl RuntimeError /\
   forward_error_cause greedy_built demo_input RuntimeError) /\
  (forward demo_memory demo_vector 0 = inl TypeError /\
   forward_error_cause demo_memory demo_vector TypeError) /\
  (forward demo_memory demo_number 0 = inl IndexError /\
   forward_error_cause demo_memory demo_number IndexError) /\
  (forward demo_memory demo_misfit 0 = inl AssertionError /\
   forward_error_cause demo_memory demo_misfit AssertionError) /\
  (forward (with_dropout demo_memory 2 0 0) demo_input 0 = inl ValueError /\
   forward_error_cause (with_dropout demo_memory 2 0 0) demo_input ValueError).
Proof.
  assert (E1 : forward greedy_built demo_input 0 = inl RuntimeError)
    by (vm_compute; reflexivity).
  assert (E2 : forward demo_memory demo_vector 0 = inl TypeError)
    by (vm_compute; reflexivity).
  assert (E3 : forward demo_memory demo_number 0 = inl IndexError)
    by (vm_compute; reflexivity).
  assert (E4 : forward demo_memory demo_misfit 0 = inl AssertionError)
    by (vm_compute; reflexivity).
  assert (E5 : forward (with_dropout demo_memory 2 0 0) demo_input 0 = inl ValueError)
    by (vm_compute; reflexivity).
  split; [split; [exact E1 |] | split; [split; [exact E2 |] |
    split; [split; [exact E3 |] | split; [split; [exact E4 |] | split; [exact E5 |]]]]].
  - exact (forward_exceptions_tell_their_cause greedy_built demo_input 0 RuntimeError
             demo_topk_contract greedy_module_wf (greedy_query_proj_contract _) E1).
  - exact (forward_exceptions_tell_their_cause demo_memory demo_vector 0 TypeError
             demo_topk_contract demo_module_wf (demo_query_proj_contract _) E2).
  - exact (forward_exceptions_tell_their_cause demo_memory demo_number 0 IndexError
             demo_topk_contract demo_module_wf (demo_query_proj_contract _) E3).
  - exact (forward_exceptions_tell_their_cause demo_memory demo_misfit 0 AssertionError
             demo_topk_contract demo_module_wf (demo_query_proj_contract _) E4).
  - exact (forward_exceptions_tell_their_cause
             (with_dropout demo_memory 2 0 0) demo_input 0 ValueError
             demo_topk_contract demo_module_wf (demo_query_proj_contract _) E5).
Defined.

Lemma softmax_normalises_each_head_witness :
  topk_contract (B := demo_backend) /\ softmax_laws (T := Qc) /\
  forward_select demo_memory demo_input 0 =
    inr (([2; 1], 2, demo_selected, demo_weights), 0) /\
  exists query q3 s i,
    get_indices (G := nat) demo_memory query = inr (s, i) /\
    shape query = [2 * heads demo_memory; k_dim demo_memory] /\
    view query [None; Some (heads demo_memory); Some (k_dim demo_memory)] = inr q3 /\
    forall h, h < heads demo_memory ->
      exists q k sc ix,
        select1 q3 h = inr q /\ select0 (keys demo_memory) h = inr k /\
        _get_indices (G := nat) demo_memory q k = inr (sc, ix) /\
        forall b, b < 2 ->
          let row := nth b (rows sc) [] in
          let ws := firstn (knn demo_memory)
                      (skipn (h * knn demo_memory) (nth b (rows demo_weights) [])) in
          length row = knn demo_memory /\
          ws = softmax_row row /\
          length ws = knn demo_memory /\
          Forall (fun x => sleb szero x = true) ws /\
          ssum ws = sone.
Proof.
  split; [exact demo_topk_contract |]. split; [exact Qc_softmax_laws |].
  split; [exact demo_run_select |].
  exact (softmax_normalises_each_head demo_memory demo_input 0 0 [2; 1] 2
           demo_selected demo_weights demo_topk_contract Qc_softmax_laws
           demo_run_select).
Defined.
